(** * Isere: lexer, parser and IR lowering of [main.cpp]

    [main.cpp] holds three programs one after the other: a first draft
    (lexer, AST classes and [ParsePrimary]; its [getTok] is the one of
    Isere), the parser-only program [hug], and Isere itself, the front end
    with code generation (characters -> tokens -> AST -> IR).  This file
    is a shallow embedding of Isere and of the lexer and expression parser
    of [hug], with the properties the specification states about them.

    Conventions of the embedding.
    - A C [int] holding a character or a token is a [Z]; [EOF] is [-1].
    - Standard input is the [string] of characters not yet read.
    - File-scope and function-scope [static] variables are fields of an
      explicit state record that every function threads.
    - A pointer that may be null is an [option].
    - A function whose C++ body loops or recurses without a structural
      argument takes a [fuel : nat]; running out of fuel is the outer
      [None], never a null result of the program. *)

From Stdlib Require Import ZArith Ascii String List Lia Bool ZifyBool.
From Stdlib Require Import Floats.PrimFloat Uint63 Floats.SpecFloat Floats.FloatOps.
From stdpp Require Import gmap strings list pretty.

Set Warnings "-register-all".
Open Scope Z_scope.

#[local] Arguments String.append !_ _ / : simpl nomatch.

(** ** The C library: <cctype> in the "C" locale, <cstdio>'s getchar *)

Definition chr (a : ascii) : Z := Z.of_N (N_of_ascii a).

Definition ascii_of (c : Z) : ascii := ascii_of_N (Z.to_N c).

Definition EOF : Z := -1.

Definition isspace (c : Z) : bool := (c =? 32) || ((9 <=? c) && (c <=? 13)).

Definition isdigit (c : Z) : bool := (48 <=? c) && (c <=? 57).

Definition isalpha (c : Z) : bool :=
  ((65 <=? c) && (c <=? 90)) || ((97 <=? c) && (c <=? 122)).

Definition isalnum (c : Z) : bool := isalpha c || isdigit c.

Definition isascii (c : Z) : bool := (0 <=? c) && (c <=? 127).

(** [getchar()]: the next character of standard input as an [int], or [EOF]
    once the input is exhausted (and forever after). *)
Definition getchar (Stdin : string) : Z * string :=
  match Stdin with
  | EmptyString => (EOF, EmptyString)
  | String a rest => (chr a, rest)
  end.

(** [std::string += char]. *)
Definition push_back (s : string) (c : Z) : string :=
  (s +:+ String (ascii_of c) EmptyString)%string.

(** ** Tokens

    [enum Token]: the lexer returns one of these negative values for the
    things it knows, and the character itself, in [0,255], otherwise. *)

Definition tok_eof : Z := -1.
Definition tok_fun : Z := -2.
Definition tok_imp : Z := -3.
Definition tok_identifier : Z := -4.
Definition tok_number : Z := -5.

(** [double] is IEEE binary64. *)
Definition double : Type := float.

(** ** The abstract syntax tree

    [ExprAST] and its four subclasses as one inductive type; [PrototypeAST]
    and [FunctionAST] as records.  A [std::unique_ptr<ExprAST>] that may be
    null is an [option ExprAST]. *)

Inductive ExprAST : Type :=
| NumberExprAST (Val : double)
| VariableExprAST (Name : string)
| BinaryExprAST (Op : Z) (LHS RHS : ExprAST)
| CallExprAST (Callee : string) (Args : list ExprAST).

Record PrototypeAST : Type := mkPrototypeAST {
  Name : string;
  ProtoArgs : list string
}.

Record FunctionAST : Type := mkFunctionAST {
  Proto : PrototypeAST;
  Body : ExprAST
}.

(** [char Op]: the [int] token narrowed to a (signed, 8-bit) [char]. *)
Definition to_char (c : Z) : Z := (c + 128) mod 256 - 128.

(** ** Lexer and parser state

    [LastChar] is [getTok]'s function-scope static, [IdentifierStr],
    [NumVal], [CurTok] and [BinopPrecedence] are the file-scope statics.
    [Stderr] collects the error lines written to the error stream (the
    prompts of the driver are not recorded). *)

Record Parser : Type := mkParser {
  Stdin : string;
  LastChar : Z;
  IdentifierStr : string;
  NumVal : double;
  CurTok : Z;
  BinopPrecedence : gmap Z Z;
  Stderr : list string
}.

Definition set_lex (st : Parser) (inp : string) (c : Z) : Parser :=
  mkParser inp c (IdentifierStr st) (NumVal st) (CurTok st)
           (BinopPrecedence st) (Stderr st).

Definition set_IdentifierStr (st : Parser) (s : string) : Parser :=
  mkParser (Stdin st) (LastChar st) s (NumVal st) (CurTok st)
           (BinopPrecedence st) (Stderr st).

Definition set_NumVal (st : Parser) (d : double) : Parser :=
  mkParser (Stdin st) (LastChar st) (IdentifierStr st) d (CurTok st)
           (BinopPrecedence st) (Stderr st).

Definition set_CurTok (st : Parser) (t : Z) : Parser :=
  mkParser (Stdin st) (LastChar st) (IdentifierStr st) (NumVal st) t
           (BinopPrecedence st) (Stderr st).

Definition set_BinopPrecedence (st : Parser) (m : gmap Z Z) : Parser :=
  mkParser (Stdin st) (LastChar st) (IdentifierStr st) (NumVal st) (CurTok st)
           m (Stderr st).

Definition fprintf_stderr (st : Parser) (line : string) : Parser :=
  mkParser (Stdin st) (LastChar st) (IdentifierStr st) (NumVal st) (CurTok st)
           (BinopPrecedence st) (Stderr st ++ [line]).

(** The state of the process when [main] starts: [LastChar] is a space,
    the other statics are zero-initialised. *)
Definition start (input : string) : Parser :=
  mkParser input (chr " ") EmptyString 0%float 0 ∅ [].

(** ** The loops of [getTok]

    Each loop reads characters until its exit test; it returns the
    character that made it stop (the new [LastChar]) and the unread input. *)

(** [while (isspace(LastChar)) LastChar = getchar();] *)
Fixpoint skip_whitespace (inp : string) (c : Z) : Z * string :=
  if isspace c then
    match inp with
    | EmptyString => (EOF, EmptyString)
    | String a rest => skip_whitespace rest (chr a)
    end
  else (c, inp).

(** [while (isalnum((LastChar = getchar()))) IdentifierStr += LastChar;] *)
Fixpoint read_identifier (inp : string) (id : string) : string * Z * string :=
  match inp with
  | EmptyString => (id, EOF, EmptyString)
  | String a rest =>
      if isalnum (chr a) then read_identifier rest (push_back id (chr a))
      else (id, chr a, rest)
  end.

Definition is_num_char (c : Z) : bool := isdigit c || (c =? chr ".").

(** [do { NumStr += LastChar; LastChar = getchar(); }
     while (isdigit(LastChar) || LastChar == '.');]
    entered with the first character already appended to [num]. *)
Fixpoint read_number (inp : string) (num : string) : string * Z * string :=
  match inp with
  | EmptyString => (num, EOF, EmptyString)
  | String a rest =>
      if is_num_char (chr a) then read_number rest (push_back num (chr a))
      else (num, chr a, rest)
  end.

(** [do LastChar = getchar();
     while (LastChar != EOF && LastChar != '\n' && LastChar != '\r');] *)
Fixpoint skip_line (inp : string) : Z * string :=
  match inp with
  | EmptyString => (EOF, EmptyString)
  | String a rest =>
      if (chr a =? 10) || (chr a =? 13) then (chr a, rest) else skip_line rest
  end.

(** The [while (true)] loop of a block comment.  [Some rest]: the loop was
    left by [break] with [LastChar == '/'] and [rest] unread; [None]: it hit
    [EOF] and the function returns [tok_eof]. *)
Fixpoint skip_block (inp : string) : option string :=
  match inp with
  | EmptyString => None
  | String a rest =>
      if chr a =? chr "*" then
        match rest with
        | EmptyString => None
        | String b rest' =>
            if chr b =? chr "/" then Some rest' else skip_block rest'
        end
      else skip_block rest
  end.

(** [std::map<char,int>::operator[]]: the value stored under [k]; a key
    that is absent is first inserted with the value-initialised [0]. *)
Definition map_index (m : gmap Z Z) (k : Z) : Z * gmap Z Z :=
  match m !! k with
  | Some v => (v, m)
  | None => (0, <[k := 0]> m)
  end.

(** The four assignments at the top of [main]. *)
Definition install_binops (m : gmap Z Z) : gmap Z Z :=
  <[chr "*" := 40]> (<[chr "-" := 20]> (<[chr "+" := 20]> (<[chr "<" := 10]> m))).

(** ** The monad of the parser

    A parser function is a state transformer that may run out of fuel. *)

Definition M (A : Type) : Type := Parser -> option (A * Parser).

Definition ret {A} (a : A) : M A := fun st => Some (a, st).

Definition bind {A B} (m : M A) (k : A -> M B) : M B :=
  fun st => match m st with
            | None => None
            | Some (a, st') => k a st'
            end.

Notation "'let*' x ':=' m 'in' k" := (bind m (fun x => k))
  (at level 10, x name, m at level 100, k at level 200).

Definition read {A} (f : Parser -> A) : M A := fun st => Some (f st, st).

(** ** The parser-only program [hug]

    The second program of [main.cpp] (prompt [hg ->], no code generation).
    Its [getTok] tests for a line comment first and returns ['/'] in the
    [else] of that test; its [ParseBinOpRHS] leaves the branch for a
    tighter pending operator empty.  Everything else reads as in Isere. *)

Module Hug.

Section Hug.

Variable strtod : string -> double.

(** [getTok]: the end of the function, from the test for [EOF]. *)
Definition getTok_rest (st : Parser) (inp : string) (c : Z) : Z * Parser :=
  if c =? EOF then (tok_eof, set_lex st inp c)
  else
    let '(c', inp') := getchar inp in
    (c, set_lex st inp' c').

Fixpoint getTok_rec (fuel : nat) (st : Parser) : option (Z * Parser) :=
  let again st' := match fuel with O => None | S f => getTok_rec f st' end in
  (* the second [if (LastChar == '/')], for multi-line comments, and the
     rest of the function *)
  let multi_line st inp c :=
    if c =? chr "/" then
      let '(c1, inp1) := getchar inp in
      if c1 =? chr "*" then
        match skip_block inp1 with
        | None =>
            Some (tok_eof,
                  fprintf_stderr (set_lex st EmptyString EOF)
                                 "Error: Unterminated multi-line comment")
        | Some inp2 =>
            let '(c3, inp3) := getchar inp2 in
            again (set_lex st inp3 c3)
        end
      else Some (chr "/", set_lex st inp1 c1)
    else Some (getTok_rest st inp c) in
  let '(c, inp) := skip_whitespace (Stdin st) (LastChar st) in
  if isalpha c then
    let '(id, c', inp') := read_identifier inp (push_back EmptyString c) in
    let st' := set_IdentifierStr (set_lex st inp' c') id in
    if String.eqb id "fn" then Some (tok_fun, st')
    else if String.eqb id "import" then Some (tok_imp, st')
    else Some (tok_identifier, st')
  else if is_num_char c then
    let '(NumStr, c', inp') := read_number inp (push_back EmptyString c) in
    Some (tok_number, set_NumVal (set_lex st inp' c') (strtod NumStr))
  else if c =? chr "/" then
    let '(c1, inp1) := getchar inp in
    if c1 =? chr "/" then
      let '(c2, inp2) := skip_line inp1 in
      if negb (c2 =? EOF) then again (set_lex st inp2 c2)
      else multi_line st inp2 c2
    else Some (chr "/", set_lex st inp1 c1)
  else multi_line st inp c.

(** As in Isere, the length of the unread input is fuel enough. *)
Definition getTok : M Z := fun st => getTok_rec (String.length (Stdin st)) st.

(** The tokens of the rest of the input, as [tokens] of Isere below. *)
Fixpoint tokens (n : nat) (st : Parser) : list (Z * string * double) :=
  match n with
  | O => []
  | S n' =>
      match getTok st with
      | None => []
      | Some (t, st') =>
          let here :=
            if t =? tok_identifier then (t, IdentifierStr st', 0%float)
            else if t =? tok_number then (t, EmptyString, NumVal st')
            else (t, EmptyString, 0%float) in
          if t =? tok_eof then [here] else here :: tokens n' st'
      end
  end.

Definition getNextToken : M Z :=
  let* t := getTok in
  fun st => Some (t, set_CurTok st t).

Definition LogError {A} (Str : string) : M (option A) :=
  fun st => Some (None, fprintf_stderr st ("Error: " +:+ Str)).

Definition GetTokPrecedence : M Z :=
  fun st =>
    if negb (isascii (CurTok st)) then Some (-1, st)
    else
      let '(TokPrec, m) := map_index (BinopPrecedence st) (to_char (CurTok st)) in
      let st' := set_BinopPrecedence st m in
      if TokPrec <=? 0 then Some (-1, st') else Some (TokPrec, st').

Definition ParseNumberExpr : M (option ExprAST) :=
  let* result := read (fun st => NumberExprAST (NumVal st)) in
  let* _ := getNextToken in
  ret (Some result).

Fixpoint ParsePrimary (fuel : nat) : M (option ExprAST) :=
  match fuel with
  | O => fun _ => None
  | S f =>
      let* tok := read CurTok in
      if tok =? tok_identifier then ParseIdentifierExpr f
      else if tok =? tok_number then ParseNumberExpr
      else if tok =? chr "(" then ParseParenExpr f
      else LogError "Unknown token when expecting an expression"
  end

with ParseParenExpr (fuel : nat) : M (option ExprAST) :=
  match fuel with
  | O => fun _ => None
  | S f =>
      let* _ := getNextToken in
      let* V := ParseExpression f in
      match V with
      | None => ret None
      | Some V =>
          let* tok := read CurTok in
          if negb (tok =? chr ")") then
            LogError "Expected parenthesis => ')', Fix the error and get back here"
          else
            let* _ := getNextToken in
            ret (Some V)
      end
  end

with ParseIdentifierExpr (fuel : nat) : M (option ExprAST) :=
  match fuel with
  | O => fun _ => None
  | S f =>
      let* IdName := read IdentifierStr in
      let* _ := getNextToken in
      let* tok := read CurTok in
      if negb (tok =? chr "(") then ret (Some (VariableExprAST IdName))
      else
        let* _ := getNextToken in
        let* tok := read CurTok in
        let* Args :=
          (if negb (tok =? chr ")") then ParseArguments f [] else ret (Some [])) in
        match Args with
        | None => ret None
        | Some Args =>
            let* _ := getNextToken in
            ret (Some (CallExprAST IdName Args))
        end
  end

(** The argument loop of [ParseIdentifierExpr]. *)
with ParseArguments (fuel : nat) (Args : list ExprAST) : M (option (list ExprAST)) :=
  match fuel with
  | O => fun _ => None
  | S f =>
      let* Arg := ParseExpression f in
      match Arg with
      | None => ret None
      | Some Arg =>
          let Args := Args ++ [Arg] in
          let* tok := read CurTok in
          if tok =? chr ")" then ret (Some Args)
          else if negb (tok =? chr ",") then
            LogError "Expected ')' or ',' in argument list"
          else
            let* _ := getNextToken in
            ParseArguments f Args
      end
  end

with ParseBinOpRHS (fuel : nat) (ExprPrec : Z) (LHS : ExprAST) : M (option ExprAST) :=
  match fuel with
  | O => fun _ => None
  | S f =>
      let* TokPrec := GetTokPrecedence in
      if TokPrec <? ExprPrec then ret (Some LHS)
      else
        let* BinOp := read CurTok in
        let* _ := getNextToken in
        let* RHS := ParsePrimary f in
        match RHS with
        | None => ret None
        | Some RHS =>
            let* NextPrec := GetTokPrecedence in
            (* [if (TokPrec < NextPrec) { }]: nothing is done with the
               comparison *)
            let RHS := if TokPrec <? NextPrec then RHS else RHS in
            ParseBinOpRHS f ExprPrec (BinaryExprAST (to_char BinOp) LHS RHS)
        end
  end

with ParseExpression (fuel : nat) : M (option ExprAST) :=
  match fuel with
  | O => fun _ => None
  | S f =>
      let* LHS := ParsePrimary f in
      match LHS with
      | None => ret None
      | Some LHS => ParseBinOpRHS f 0 LHS
      end
  end.

Definition main_primed (input : string) : option Parser :=
  let st := start input in
  let st := set_BinopPrecedence st (install_binops (BinopPrecedence st)) in
  match getNextToken st with
  | None => None
  | Some (_, st') => Some st'
  end.

Definition parse_expression (fuel : nat) (input : string) : option (option ExprAST * Z) :=
  match main_primed input with
  | None => None
  | Some st =>
      match ParseExpression fuel st with
      | None => None
      | Some (e, st') => Some (e, CurTok st')
      end
  end.

End Hug.

End Hug.

(** ** The Isere front end (the program with code generation) *)

Section Isere.

(** [strtod] of the C library, on the text the lexer hands it. *)
Variable strtod : string -> double.

(** *** Lexer *)

(** [getTok]: the remainder of the function once the comment block has
    been passed or skipped. *)
Definition getTok_rest (st : Parser) (inp : string) (c : Z) : Z * Parser :=
  if c =? EOF then (tok_eof, set_lex st inp c)
  else
    let '(c', inp') := getchar inp in
    (c, set_lex st inp' c').

Fixpoint getTok_rec (fuel : nat) (st : Parser) : option (Z * Parser) :=
  let again st' := match fuel with O => None | S f => getTok_rec f st' end in
  let '(c, inp) := skip_whitespace (Stdin st) (LastChar st) in
  if isalpha c then
    let '(id, c', inp') := read_identifier inp (push_back EmptyString c) in
    let st' := set_IdentifierStr (set_lex st inp' c') id in
    if String.eqb id "fn" then Some (tok_fun, st')
    else if String.eqb id "import" then Some (tok_imp, st')
    else Some (tok_identifier, st')
  else if is_num_char c then
    let '(NumStr, c', inp') := read_number inp (push_back EmptyString c) in
    Some (tok_number, set_NumVal (set_lex st inp' c') (strtod NumStr))
  else if c =? chr "/" then
    let '(c1, inp1) := getchar inp in
    if c1 =? chr "/" then
      let '(c2, inp2) := skip_line inp1 in
      if negb (c2 =? EOF) then again (set_lex st inp2 c2)
      else Some (getTok_rest st inp2 c2)
    else if c1 =? chr "*" then
      match skip_block inp1 with
      | None =>
          Some (tok_eof,
                fprintf_stderr (set_lex st EmptyString EOF)
                               "Error: Unterminated multi-line comment")
      | Some inp2 =>
          let '(c3, inp3) := getchar inp2 in
          again (set_lex st inp3 c3)
      end
    else Some (chr "/", set_lex st inp1 c1)
  else Some (getTok_rest st inp c).

(** Every recursive call of [getTok] comes after a comment of at least two
    characters, so the length of the unread input is fuel enough. *)
Definition getTok : M Z := fun st => getTok_rec (String.length (Stdin st)) st.

(** The tokens of the rest of the input with what the lexer left in
    [IdentifierStr] and [NumVal] for each, up to and including the first
    [tok_eof]; at most [n] of them. *)
Fixpoint tokens (n : nat) (st : Parser) : list (Z * string * double) :=
  match n with
  | O => []
  | S n' =>
      match getTok st with
      | None => []
      | Some (t, st') =>
          let here :=
            if t =? tok_identifier then (t, IdentifierStr st', 0%float)
            else if t =? tok_number then (t, EmptyString, NumVal st')
            else (t, EmptyString, 0%float) in
          if t =? tok_eof then [here] else here :: tokens n' st'
      end
  end.

(** *** Parser *)

Definition getNextToken : M Z :=
  let* t := getTok in
  fun st => Some (t, set_CurTok st t).

(** [LogError]: one line on the error stream, and a null pointer. *)
Definition LogError {A} (Str : string) : M (option A) :=
  fun st => Some (None, fprintf_stderr st ("Error: " +:+ Str)).

Definition LogErrorP : string -> M (option PrototypeAST) := LogError.

Definition GetTokPrecedence : M Z :=
  fun st =>
    if negb (isascii (CurTok st)) then Some (-1, st)
    else
      let '(TokPrec, m) := map_index (BinopPrecedence st) (to_char (CurTok st)) in
      let st' := set_BinopPrecedence st m in
      if TokPrec <=? 0 then Some (-1, st') else Some (TokPrec, st').

Definition ParseNumberExpr : M (option ExprAST) :=
  let* result := read (fun st => NumberExprAST (NumVal st)) in
  let* _ := getNextToken in
  ret (Some result).

Fixpoint ParsePrimary (fuel : nat) : M (option ExprAST) :=
  match fuel with
  | O => fun _ => None
  | S f =>
      let* tok := read CurTok in
      if tok =? tok_identifier then ParseIdentifierExpr f
      else if tok =? tok_number then ParseNumberExpr
      else if tok =? chr "(" then ParseParenExpr f
      else LogError "Unknown token when expecting an expression"
  end

with ParseParenExpr (fuel : nat) : M (option ExprAST) :=
  match fuel with
  | O => fun _ => None
  | S f =>
      let* _ := getNextToken in
      let* V := ParseExpression f in
      match V with
      | None => ret None
      | Some V =>
          let* tok := read CurTok in
          if negb (tok =? chr ")") then LogError "Expected ')'"
          else
            let* _ := getNextToken in
            ret (Some V)
      end
  end

with ParseIdentifierExpr (fuel : nat) : M (option ExprAST) :=
  match fuel with
  | O => fun _ => None
  | S f =>
      let* IdName := read IdentifierStr in
      let* _ := getNextToken in
      let* tok := read CurTok in
      if negb (tok =? chr "(") then ret (Some (VariableExprAST IdName))
      else
        let* _ := getNextToken in
        let* tok := read CurTok in
        let* Args :=
          (if negb (tok =? chr ")") then ParseArguments f [] else ret (Some [])) in
        match Args with
        | None => ret None
        | Some Args =>
            let* _ := getNextToken in
            ret (Some (CallExprAST IdName Args))
        end
  end

(** The [while (true)] loop of [ParseIdentifierExpr]: [Some Args] when it
    is left by [break], [None] when the function returns null from it. *)
with ParseArguments (fuel : nat) (Args : list ExprAST) : M (option (list ExprAST)) :=
  match fuel with
  | O => fun _ => None
  | S f =>
      let* Arg := ParseExpression f in
      match Arg with
      | None => ret None
      | Some Arg =>
          let Args := Args ++ [Arg] in
          let* tok := read CurTok in
          if tok =? chr ")" then ret (Some Args)
          else if negb (tok =? chr ",") then
            LogError "Expected ',' or ')' in argument list"
          else
            let* _ := getNextToken in
            ParseArguments f Args
      end
  end

with ParseBinOpRHS (fuel : nat) (ExprPrec : Z) (LHS : ExprAST) : M (option ExprAST) :=
  match fuel with
  | O => fun _ => None
  | S f =>
      let* TokPrec := GetTokPrecedence in
      if TokPrec <? ExprPrec then ret (Some LHS)
      else
        let* BinOp := read CurTok in
        let* _ := getNextToken in
        let* RHS := ParsePrimary f in
        match RHS with
        | None => ret None
        | Some RHS =>
            let* NextPrec := GetTokPrecedence in
            let* RHS :=
              (if TokPrec <? NextPrec then ParseBinOpRHS f (TokPrec + 1) RHS
               else ret (Some RHS)) in
            match RHS with
            | None => ret None
            | Some RHS =>
                ParseBinOpRHS f ExprPrec (BinaryExprAST (to_char BinOp) LHS RHS)
            end
        end
  end

with ParseExpression (fuel : nat) : M (option ExprAST) :=
  match fuel with
  | O => fun _ => None
  | S f =>
      let* LHS := ParsePrimary f in
      match LHS with
      | None => ret None
      | Some LHS => ParseBinOpRHS f 0 LHS
      end
  end.

(** [while (getNextToken() == tok_identifier) ArgNames.push_back(IdentifierStr);] *)
Fixpoint read_ArgNames (fuel : nat) (ArgNames : list string) : M (list string) :=
  match fuel with
  | O => fun _ => None
  | S f =>
      let* tok := getNextToken in
      if tok =? tok_identifier then
        let* id := read IdentifierStr in
        read_ArgNames f (ArgNames ++ [id])
      else ret ArgNames
  end.

Definition ParsePrototype (fuel : nat) : M (option PrototypeAST) :=
  let* tok := read CurTok in
  if negb (tok =? tok_identifier) then
    LogErrorP "Expected function name in prototype"
  else
    let* FnName := read IdentifierStr in
    let* _ := getNextToken in
    let* tok := read CurTok in
    if negb (tok =? chr "(") then LogErrorP "Expected '(' in prototype"
    else
      let* ArgNames := read_ArgNames fuel [] in
      let* tok := read CurTok in
      if negb (tok =? chr ")") then LogErrorP "Expected ')' in prototype"
      else
        let* _ := getNextToken in
        ret (Some (mkPrototypeAST FnName ArgNames)).

Definition ParseFunDef (fuel : nat) : M (option FunctionAST) :=
  let* _ := getNextToken in
  let* Proto := ParsePrototype fuel in
  match Proto with
  | None => ret None
  | Some Proto =>
      let* E := ParseExpression fuel in
      match E with
      | Some E => ret (Some (mkFunctionAST Proto E))
      | None => ret None
      end
  end.

Definition ParseImport (fuel : nat) : M (option PrototypeAST) :=
  let* _ := getNextToken in
  ParsePrototype fuel.

Definition ParseTopLevelExpr (fuel : nat) : M (option FunctionAST) :=
  let* E := ParseExpression fuel in
  match E with
  | Some E => ret (Some (mkFunctionAST (mkPrototypeAST EmptyString []) E))
  | None => ret None
  end.

(** [main] up to the call of [MainLoop]: the operators are installed and
    the first token is primed. *)
Definition main_primed (input : string) : option Parser :=
  let st := start input in
  let st := set_BinopPrecedence st (install_binops (BinopPrecedence st)) in
  match getNextToken st with
  | None => None
  | Some (_, st') => Some st'
  end.

(** The AST of the expression at the head of [input], with the token the
    parser stopped at. *)
Definition parse_expression (fuel : nat) (input : string) : option (option ExprAST * Z) :=
  match main_primed input with
  | None => None
  | Some st =>
      match ParseExpression fuel st with
      | None => None
      | Some (e, st') => Some (e, CurTok st')
      end
  end.

(** The same for a whole top-level construct: [HandleDefinition],
    [HandleExtern] and [HandleTopLevelExpression] up to the AST. *)
Definition parse_with {A} (p : nat -> M (option A)) (fuel : nat) (input : string)
  : option (option A) :=
  match main_primed input with
  | None => None
  | Some st =>
      match p fuel st with
      | None => None
      | Some (r, _) => Some r
      end
  end.

End Isere.

(** ** The LLVM objects the code generator builds

    Only what [main.cpp] observes of them.  A [Function*] is the identity
    [FId] of the function; an [Argument*] is its function and position; an
    [Instruction*] is the identity the instruction got when it was made.
    Functions and parameters have the names LLVM gives them, which
    [getFunction] and [Arg.getName()] read back.  The names asked for
    blocks and instructions ([entry], [addtmp], ...) are not kept: LLVM
    makes them unique in the symbol table of the function, the program
    never reads them, and they show in printed IR only. *)

Inductive Value : Type :=
| ConstantFP (Val : double)
| ConstantInt (Val : Z)
| Argument (Parent : nat) (ArgNo : nat)
| InstructionV (Id : nat).

Inductive Opcode : Type := FAdd | FSub | FMul.

Inductive Instruction : Type :=
| BinaryOperator (Opc : Opcode) (L R : Value)
| FCmpULT (L R : Value)
| UIToFP (V : Value)
| CallInst (Callee : nat) (Args : list Value)
| ReturnInst (RetVal : Value).

Record BasicBlock : Type := mkBasicBlock {
  Insts : list (nat * Instruction)
}.

(** [llvm::Function]: every parameter and the result are [double], so the
    type is the number of parameters; [FArgs] are the parameters' names. *)
Record IRFunction : Type := mkIRFunction {
  FId : nat;
  FName : string;
  FArgs : list string;
  Blocks : list BasicBlock
}.

(** [TheModule], [Builder] (its insertion point: a function and the index
    of one of its blocks) and [NamedValues], with the error stream and the
    functions handed to [verifyFunction].  [Undefined] is set once a
    function is destroyed while instructions of other functions still use
    it: the behaviour of the program is undefined from there on, and the
    state says nothing about it any more. *)
Record CodeGen : Type := mkCodeGen {
  TheModule : list IRFunction;
  LastUnique : nat;
  NextId : nat;
  InsertPoint : option (nat * nat);
  NamedValues : gmap string (option Value);
  Errs : list string;
  Verified : list nat;
  Undefined : bool
}.

Definition InitializeModule : CodeGen := mkCodeGen [] 0 0 None ∅ [] [] false.

Definition set_TheModule (st : CodeGen) (m : list IRFunction) : CodeGen :=
  mkCodeGen m (LastUnique st) (NextId st) (InsertPoint st) (NamedValues st)
            (Errs st) (Verified st) (Undefined st).

Definition set_NamedValues (st : CodeGen) (nv : gmap string (option Value)) : CodeGen :=
  mkCodeGen (TheModule st) (LastUnique st) (NextId st) (InsertPoint st) nv
            (Errs st) (Verified st) (Undefined st).

Definition SetInsertPoint (st : CodeGen) (F BB : nat) : CodeGen :=
  mkCodeGen (TheModule st) (LastUnique st) (NextId st) (Some (F, BB))
            (NamedValues st) (Errs st) (Verified st) (Undefined st).

Definition log_error (st : CodeGen) (line : string) : CodeGen :=
  mkCodeGen (TheModule st) (LastUnique st) (NextId st) (InsertPoint st)
            (NamedValues st) (Errs st ++ [line]) (Verified st) (Undefined st).

(** [verifyFunction(F)]: its result is ignored and it prints nothing, so
    all that is kept is that it ran on [F]. *)
Definition verifyFunction (st : CodeGen) (F : nat) : CodeGen :=
  mkCodeGen (TheModule st) (LastUnique st) (NextId st) (InsertPoint st)
            (NamedValues st) (Errs st) (Verified st ++ [F]) (Undefined st).

(** [Module::getFunction]: the function the symbol table has under
    [Name]; a function without a name is not in the table. *)
Definition getFunction (Name : string) (st : CodeGen) : option IRFunction :=
  if String.eqb Name EmptyString then None
  else List.find (fun F => String.eqb (FName F) Name) (TheModule st).

Definition name_taken (taken : list string) (n : string) : bool :=
  existsb (String.eqb n) taken.

(** [ValueSymbolTable::makeUniqueName]: the base name with the next value
    of the table's counter appended (after a dot for a global), until the
    result is free.  One of [length taken + 1] candidates is free. *)
Fixpoint makeUniqueName (fuel : nat) (taken : list string) (base : string)
         (dot : bool) (last : nat) : string * nat :=
  let n := S last in
  let cand := (base +:+ (if dot then "." else "") +:+ pretty n)%string in
  match fuel with
  | O => (cand, n)
  | S f =>
      if name_taken taken cand then makeUniqueName f taken base dot n
      else (cand, n)
  end.

(** [Value::setName] on a fresh value: no name for the empty string, the
    name itself when it is free, a unique variant of it otherwise. *)
Definition setName (taken : list string) (n : string) (dot : bool) (last : nat)
  : string * nat :=
  if String.eqb n EmptyString then (n, last)
  else if name_taken taken n then makeUniqueName (length taken) taken n dot last
  else (n, last).

(** [for (auto &Arg : F->args()) Arg.setName(Args[Idx++]);] in the symbol
    table of the new function. *)
Fixpoint name_args (Args : list string) (named : list string) (last : nat)
  : list string :=
  match Args with
  | [] => named
  | a :: rest =>
      let '(n, last') := setName named a false last in
      name_args rest (named ++ [n]) last'
  end.

(** [Function::Create(FT, ExternalLinkage, Name, TheModule.get())] for a
    function of [n] parameters: a new declaration at the end of the
    module's function list. *)
Definition Function_Create (Name : string) (Args : list string) (st : CodeGen)
  : IRFunction * CodeGen :=
  let '(n, last) := setName (map FName (TheModule st)) Name true (LastUnique st) in
  let F := mkIRFunction (NextId st) n (name_args Args [] 0) [] in
  (F, mkCodeGen (TheModule st ++ [F]) last (S (NextId st)) (InsertPoint st)
                (NamedValues st) (Errs st) (Verified st) (Undefined st)).

Definition update_function (F : nat) (f : IRFunction -> IRFunction)
           (m : list IRFunction) : list IRFunction :=
  map (fun G => if Nat.eqb (FId G) F then f G else G) m.

(** [BasicBlock::Create] of a block for which the name [Name] is asked,
    in [F]: a new, empty block at the end of [F]; the result is its
    index. *)
Definition BasicBlock_Create (Name : string) (F : IRFunction) (st : CodeGen)
  : nat * CodeGen :=
  (length (Blocks F),
   set_TheModule st
     (update_function (FId F)
        (fun G => mkIRFunction (FId G) (FName G) (FArgs G)
                               (Blocks G ++ [mkBasicBlock []]))
        (TheModule st))).

(** The instruction uses the function [F]: it is a call of it. *)
Definition calls (F : nat) (I : Instruction) : bool :=
  match I with
  | CallInst Callee _ => Nat.eqb Callee F
  | _ => false
  end.

(** [F] has users that its destructor does not drop: an instruction of
    another function of the module calls it.  (The destructor drops the
    instructions of the function itself first.) *)
Definition has_users (F : nat) (m : list IRFunction) : bool :=
  existsb (fun G =>
             negb (Nat.eqb (FId G) F) &&
             existsb (fun B => existsb (fun J => calls F (snd J)) (Insts B)) (Blocks G))
          m.

(** [F->eraseFromParent()]: the function is unlinked from the module and
    destroyed.  Destroying a function that still has users leaves their
    operand dangling (an assertion of LLVM's, where assertions are
    compiled in): the behaviour is undefined from there on. *)
Definition eraseFromParent (F : nat) (st : CodeGen) : CodeGen :=
  mkCodeGen (List.filter (fun G => negb (Nat.eqb (FId G) F)) (TheModule st))
            (LastUnique st) (NextId st) (InsertPoint st) (NamedValues st)
            (Errs st) (Verified st)
            (Undefined st || has_users F (TheModule st)).

Definition append_inst (BB : nat) (I : nat * Instruction)
           (G : IRFunction) : IRFunction :=
  mkIRFunction (FId G) (FName G) (FArgs G)
    (alter (fun B => mkBasicBlock (Insts B ++ [I])) BB (Blocks G)).

(** [IRBuilder::Insert]: the instruction goes to the end of the block the
    builder points at (nowhere when it points at none); [Name] is the name
    asked for it. *)
Definition Insert (I : Instruction) (Name : string) (st : CodeGen)
  : Value * CodeGen :=
  let id := NextId st in
  let m :=
    match InsertPoint st with
    | None => TheModule st
    | Some (F, BB) => update_function F (append_inst BB (id, I)) (TheModule st)
    end in
  (InstructionV id,
   mkCodeGen m (LastUnique st) (S id) (InsertPoint st) (NamedValues st)
             (Errs st) (Verified st) (Undefined st)).

(** ** IR lowering *)

Section CodeGen.

(** The builder's folder ([IRBuilder<>]'s [ConstantFolder]): what it
    returns instead of a new instruction, when it folds the operands. *)
Variable FoldBinOp : Opcode -> Value -> Value -> option Value.
Variable FoldCmp : Value -> Value -> option Value.
Variable FoldCast : Value -> option Value.

Definition CreateBinOp (Opc : Opcode) (L R : Value) (Name : string)
           (st : CodeGen) : Value * CodeGen :=
  match FoldBinOp Opc L R with
  | Some V => (V, st)
  | None => Insert (BinaryOperator Opc L R) Name st
  end.

Definition CreateFCmpULT (L R : Value) (Name : string) (st : CodeGen)
  : Value * CodeGen :=
  match FoldCmp L R with
  | Some V => (V, st)
  | None => Insert (FCmpULT L R) Name st
  end.

Definition CreateUIToFP (V : Value) (Name : string) (st : CodeGen)
  : Value * CodeGen :=
  match FoldCast V with
  | Some V' => (V', st)
  | None => Insert (UIToFP V) Name st
  end.

Definition CreateCall (Callee : IRFunction) (Args : list Value) (Name : string)
           (st : CodeGen) : Value * CodeGen :=
  Insert (CallInst (FId Callee) Args) Name st.

Definition CreateRet (V : Value) (st : CodeGen) : Value * CodeGen :=
  Insert (ReturnInst V) EmptyString st.

Definition LogErrorV (Str : string) (st : CodeGen) : option Value * CodeGen :=
  (None, log_error st ("Error: " +:+ Str)).

(** [NamedValues[Name]]: [std::map::operator[]] inserts a null pointer
    under a name that has no entry. *)
Definition NamedValues_index (Name : string) (st : CodeGen)
  : option Value * CodeGen :=
  match NamedValues st !! Name with
  | Some V => (V, st)
  | None => (None, set_NamedValues st (<[Name := None]> (NamedValues st)))
  end.

Definition VariableExprAST_codegen (Name : string) (st : CodeGen)
  : option Value * CodeGen :=
  let '(V, st) := NamedValues_index Name st in
  match V with
  | None => (V, snd (LogErrorV "Unknown Variable name" st))
  | Some _ => (V, st)
  end.

Definition BinaryExprAST_emit (Op : Z) (L R : Value) (st : CodeGen)
  : option Value * CodeGen :=
  if Op =? chr "+" then
    let '(V, st) := CreateBinOp FAdd L R "addtmp" st in (Some V, st)
  else if Op =? chr "-" then
    let '(V, st) := CreateBinOp FSub L R "subtmp" st in (Some V, st)
  else if Op =? chr "*" then
    let '(V, st) := CreateBinOp FMul L R "multmp" st in (Some V, st)
  else if Op =? chr "<" then
    let '(L, st) := CreateFCmpULT L R "cmptmp" st in
    let '(V, st) := CreateUIToFP L "booltmp" st in (Some V, st)
  else LogErrorV "invalid binary operator" st.

(** [ExprAST::codegen], by cases on the dynamic type of the node. *)
Fixpoint codegen (e : ExprAST) (st : CodeGen) : option Value * CodeGen :=
  match e with
  | NumberExprAST Val => (Some (ConstantFP Val), st)
  | VariableExprAST Name => VariableExprAST_codegen Name st
  | BinaryExprAST Op LHS RHS =>
      let '(L, st) := codegen LHS st in
      let '(R, st) := codegen RHS st in
      match L, R with
      | Some L, Some R => BinaryExprAST_emit Op L R st
      | _, _ => (None, st)
      end
  | CallExprAST Callee Args =>
      match getFunction Callee st with
      | None => LogErrorV "Unkown Function referenced" st
      | Some CalleeF =>
          if negb (Nat.eqb (length (FArgs CalleeF)) (length Args)) then
            LogErrorV "Incorrect number of arguments passed into function call" st
          else
            let fix args (Args : list ExprAST) (ArgsV : list Value) (st : CodeGen)
              : option (list Value) * CodeGen :=
              match Args with
              | [] => (Some ArgsV, st)
              | Arg :: rest =>
                  let '(V, st) := codegen Arg st in
                  match V with
                  | None => (None, st)
                  | Some V => args rest (ArgsV ++ [V]) st
                  end
              end in
            let '(ArgsV, st) := args Args [] st in
            match ArgsV with
            | None => (None, st)
            | Some ArgsV =>
                let '(V, st) := CreateCall CalleeF ArgsV "calltmp" st in
                (Some V, st)
            end
      end
  end.

(** The [for] loop of [CallExprAST::codegen]. *)
Fixpoint codegen_args (Args : list ExprAST) (ArgsV : list Value) (st : CodeGen)
  : option (list Value) * CodeGen :=
  match Args with
  | [] => (Some ArgsV, st)
  | Arg :: rest =>
      let '(V, st) := codegen Arg st in
      match V with
      | None => (None, st)
      | Some V => codegen_args rest (ArgsV ++ [V]) st
      end
  end.

Definition PrototypeAST_codegen (P : PrototypeAST) (st : CodeGen)
  : IRFunction * CodeGen :=
  Function_Create (Name P) (ProtoArgs P) st.

(** [for (auto &Arg : TheFunction->args())
       NamedValues[std::string(Arg.getName())] = &Arg;] *)
Fixpoint record_args (F : nat) (names : list string) (ArgNo : nat)
         (nv : gmap string (option Value)) : gmap string (option Value) :=
  match names with
  | [] => nv
  | n :: rest => record_args F rest (S ArgNo) (<[n := Some (Argument F ArgNo)]> nv)
  end.

Definition FunctionAST_codegen (Fn : FunctionAST) (st : CodeGen)
  : option nat * CodeGen :=
  let '(TheFunction, st) :=
    match getFunction (Name (Proto Fn)) st with
    | Some F => (F, st)
    | None => PrototypeAST_codegen (Proto Fn) st
    end in
  if negb (Nat.eqb (length (Blocks TheFunction)) 0) then
    (None, snd (LogErrorV "Function cannot be redefined" st))
  else
    let '(BB, st) := BasicBlock_Create "entry" TheFunction st in
    let st := SetInsertPoint st (FId TheFunction) BB in
    let st := set_NamedValues st (record_args (FId TheFunction) (FArgs TheFunction) 0 ∅) in
    let '(RetVal, st) := codegen (Body Fn) st in
    match RetVal with
    | Some RetVal =>
        let '(_, st) := CreateRet RetVal st in
        let st := verifyFunction st (FId TheFunction) in
        (Some (FId TheFunction), st)
    | None => (None, eraseFromParent (FId TheFunction) st)
    end.

End CodeGen.

(** ** Observations on ASTs and precedence tables *)

(** The operators [main] installs. *)
Definition is_binop (c : Z) : bool :=
  (c =? chr "<") || (c =? chr "+") || (c =? chr "-") || (c =? chr "*").

(** Some [BinaryExprAST] node of the tree has the operator [c]. *)
Fixpoint uses_op (c : Z) (e : ExprAST) : bool :=
  match e with
  | NumberExprAST _ => false
  | VariableExprAST _ => false
  | BinaryExprAST Op LHS RHS => (Op =? c) || uses_op c LHS || uses_op c RHS
  | CallExprAST _ Args => existsb (uses_op c) Args
  end.

(** Every [BinaryExprAST] node of the tree has an operator of [main]. *)
Fixpoint binops_ok (e : ExprAST) : bool :=
  match e with
  | NumberExprAST _ => true
  | VariableExprAST _ => true
  | BinaryExprAST Op LHS RHS => is_binop Op && binops_ok LHS && binops_ok RHS
  | CallExprAST _ Args => forallb binops_ok Args
  end.

(** The table gives a positive precedence to operators of [main] only
    (as it does once [main] has installed them, and ever after). *)
Definition only_main_binops (m : gmap Z Z) : Prop :=
  forall c v, m !! c = Some v -> 0 < v -> is_binop c = true.

(** Some [VariableExprAST] node of the tree refers to [x]. *)
Fixpoint mentions (x : string) (e : ExprAST) : bool :=
  match e with
  | NumberExprAST _ => false
  | VariableExprAST Name => String.eqb Name x
  | BinaryExprAST _ LHS RHS => mentions x LHS || mentions x RHS
  | CallExprAST _ Args => existsb (mentions x) Args
  end.

(** ** Observations on the code generator *)

(** The function [FunctionAST::codegen] works on: the one the module has
    under the name, or else the one [Proto->codegen()] creates. *)
Definition TheFunction_of (P : PrototypeAST) (st : CodeGen) : IRFunction * CodeGen :=
  match getFunction (Name P) st with
  | Some F => (F, st)
  | None => PrototypeAST_codegen P st
  end.

(** The state in which [FunctionAST::codegen] lowers the body: the entry
    block is made, the builder points at it, and [NamedValues] holds the
    parameters of [F] and nothing else. *)
Definition body_entry (F : IRFunction) (st : CodeGen) : CodeGen :=
  let '(BB, st) := BasicBlock_Create "entry" F st in
  let st := SetInsertPoint st (FId F) BB in
  set_NamedValues st (record_args (FId F) (FArgs F) 0 ∅).

(** What a declaration declares. *)
Definition signature (F : IRFunction) : nat * string * list string :=
  (FId F, FName F, FArgs F).

Definition append_insts (BB : nat) (new : list (nat * Instruction))
           (G : IRFunction) : IRFunction :=
  mkIRFunction (FId G) (FName G) (FArgs G)
    (alter (fun B => mkBasicBlock (Insts B ++ new)) BB (Blocks G)).

(** The module after the instructions [new] went to the insertion point. *)
Definition emit (ip : option (nat * nat)) (new : list (nat * Instruction))
           (m : list IRFunction) : list IRFunction :=
  match ip with
  | None => m
  | Some (F, BB) => update_function F (append_insts BB new) m
  end.

(** What lowering an expression may do to the state: append instructions
    at the insertion point, take fresh identities, bind unbound names to
    null, and write errors. *)
Definition lowered (st st' : CodeGen) : Prop :=
  InsertPoint st' = InsertPoint st /\
  LastUnique st' = LastUnique st /\
  Verified st' = Verified st /\
  (NextId st <= NextId st')%nat /\
  (exists new, TheModule st' = emit (InsertPoint st) new (TheModule st)) /\
  (forall x, NamedValues st' !! x = NamedValues st !! x \/
             (NamedValues st !! x = None /\ NamedValues st' !! x = Some None)) /\
  (exists more, Errs st' = Errs st ++ more).

(** Identities in use are below the allocation counter. *)
Definition ids_fresh (st : CodeGen) : Prop :=
  Forall (fun G => (FId G < NextId st)%nat) (TheModule st).

(** The folder that never folds ([llvm::NoFolder]). *)
Definition NoFoldBinOp (Opc : Opcode) (L R : Value) : option Value := None.
Definition NoFoldCmp (L R : Value) : option Value := None.
Definition NoFoldCast (V : Value) : option Value := None.

(** A Hoare triple for parser functions: partial correctness. *)
Definition triple {A} (P : Parser -> Prop) (m : M A) (Q : A -> Parser -> Prop) : Prop :=
  forall st a st', P st -> m st = Some (a, st') -> Q a st'.

(** ** Observations on the lexer *)

(** Every character of [s] satisfies [p]. *)
Fixpoint all_chars (p : Z -> bool) (s : string) : bool :=
  match s with
  | EmptyString => true
  | String a rest => p (chr a) && all_chars p rest
  end.

(** The character [getchar] returns next, and what it leaves. *)
Definition head_char (s : string) : Z := fst (getchar s).
Definition tail_chars (s : string) : string := snd (getchar s).

(** End-of-line characters, and the star of a block comment. *)
Definition not_newline (c : Z) : bool := negb ((c =? 10) || (c =? 13)).

Definition not_star (c : Z) : bool := negb (c =? chr "*").

Definition nl : string := String (ascii_of 10) EmptyString.

(** ** Invariants of the parser: the table and the trees it builds *)

Definition table_ok (st : Parser) : Prop := only_main_binops (BinopPrecedence st).

Definition expr_ok (r : option ExprAST) (st : Parser) : Prop :=
  table_ok st /\ match r with Some e => binops_ok e = true | None => True end.

Definition args_ok (r : option (list ExprAST)) (st : Parser) : Prop :=
  table_ok st /\ match r with Some l => forallb binops_ok l = true | None => True end.

(** A name without a value: it has no entry, or a null one. *)
Definition unbound (x : string) (st : CodeGen) : Prop :=
  NamedValues st !! x = None \/ NamedValues st !! x = Some None.

(** ** Inputs of the closed instances

    A stand-in for [strtod] on the texts the lexer hands it, which are
    made of digits and dots: the decimal numeral at the start of the text
    (digits, then a dot and digits), rounded to the nearest double, ties
    to even; zero when the text starts with no numeral.  The theorems
    hold for every [strtod]; this one is for the closed instances. *)

(** The digits at the start of [s], read on from [acc]: their value,
    their number and the rest of [s]. *)
Fixpoint digit_run (s : string) (acc : Z) (n : nat) : Z * nat * string :=
  match s with
  | EmptyString => (acc, n, s)
  | String a rest =>
      if isdigit (chr a) then digit_run rest (10 * acc + (chr a - 48)) (S n)
      else (acc, n, s)
  end.

(** The numeral at the start of [s] is [m / 10^k]. *)
Definition numeral (s : string) : Z * nat :=
  let '(i, _, rest) := digit_run s 0 0 in
  match rest with
  | String "." fraction => let '(m, k, _) := digit_run fraction i 0 in (m, k)
  | _ => (i, 0%nat)
  end.

(** [m / 10^k] rounded to the nearest double: the quotient is taken with
    64 bits and more, and the remainder tells on which side of the middle
    the exact value lies. *)
Definition nearest_double (m : Z) (k : nat) : double :=
  let d := 10 ^ Z.of_nat k in
  let s := Z.max 0 (64 + Z.log2 d - Z.log2 m) in
  let '(q, r) := Z.div_eucl (Z.shiftl m s) d in
  let l := if r =? 0 then loc_Exact else loc_Inexact (Z.compare (2 * r) d) in
  SF2Prim (binary_round_aux prec emax false q (- s) l).

Definition strtod_digits (s : string) : double :=
  let '(m, k) := numeral s in nearest_double m k.

(** [fn f() 1.0], [fn f() 2.0], [fn id(x) x], [fn g(x) y], [fn f(x) x]. *)
Definition fn_f_1 : FunctionAST :=
  mkFunctionAST (mkPrototypeAST "f" []) (NumberExprAST 1%float).
Definition fn_f_2 : FunctionAST :=
  mkFunctionAST (mkPrototypeAST "f" []) (NumberExprAST 2%float).
Definition fn_id : FunctionAST :=
  mkFunctionAST (mkPrototypeAST "id" ["x"%string]) (VariableExprAST "x").
Definition fn_g_y : FunctionAST :=
  mkFunctionAST (mkPrototypeAST "g" ["x"%string]) (VariableExprAST "y").

(** The module after [import f()], after [import f(a b)], after [import f(a)]. *)
Definition after_import (P : list string) : CodeGen :=
  snd (PrototypeAST_codegen (mkPrototypeAST "f" P) InitializeModule).

(** The state in which the body of a top-level expression is lowered,
    after [import f(a b)]. *)
Definition top_level_body : CodeGen :=
  let '(F, st) := TheFunction_of (mkPrototypeAST EmptyString [])
                                 (after_import ["a"; "b"]%string) in
  body_entry F st.

(** The parser of [main], standing on the first token of [input]. *)
Definition primed (input : string) : Parser :=
  match main_primed strtod_digits input with
  | Some st => st
  | None => start input
  end.

(** The lexer on the first slash of a comment, with the rest of
    ["/ comment\n+ 2"] and of ["* c */ + 2"] unread. *)
Definition on_slash (rest : string) : Parser :=
  mkParser rest (chr "/") EmptyString 1%float tok_number ∅ [].

(** What a parser function returns from [st] ([d] if it ran out of fuel). *)
Definition returned_by {A} (m : M A) (st : Parser) (d : A) : A * Parser :=
  match m st with
  | Some r => r
  | None => (d, st)
  end.

(** ** More observations on the lexer *)

(** The shape of an identifier: a letter, then letters and digits. *)
Definition is_identifier (id : string) : bool :=
  match id with
  | EmptyString => false
  | String a rest => isalpha (chr a) && all_chars isalnum rest
  end.

(** The token of a word: one of the two keywords, or an identifier. *)
Definition word_token (id : string) : Z :=
  if String.eqb id "fn" then tok_fun
  else if String.eqb id "import" then tok_imp
  else tok_identifier.

(** A character that is a token by itself wherever it stands: no
    whitespace, letter, digit, dot or slash. *)
Definition is_punctuation (c : Z) : bool :=
  negb (isspace c || isalpha c || is_num_char c || (c =? chr "/")).

(** The characters the lexer has still to look at: its lookahead, unless
    that is [EOF], and the unread input. *)
Definition pending (st : Parser) : nat :=
  String.length (Stdin st) + (if Z.eqb (LastChar st) EOF then 0%nat else 1%nat).

(** A value [getchar] can return. *)
Definition is_char_or_EOF (c : Z) : Prop := -1 <= c <= 255.

(** The same count for a lookahead and an input. *)
Definition pending_of (c : Z) (inp : string) : nat :=
  String.length inp + (if c =? EOF then 0%nat else 1%nat).

(** The kinds of token, and what comes with each. *)
Definition token_kind (t : Z) (st' : Parser) : Prop :=
  t = tok_eof \/
  (t = tok_fun /\ IdentifierStr st' = "fn"%string) \/
  (t = tok_imp /\ IdentifierStr st' = "import"%string) \/
  (t = tok_identifier /\ is_identifier (IdentifierStr st') = true /\
   IdentifierStr st' <> "fn"%string /\ IdentifierStr st' <> "import"%string) \/
  t = tok_number \/
  (0 <= t <= 255 /\ (t = chr "/" \/ is_punctuation t = true)).

(** ** Observations on the parser *)

(** What the parser has still to look at: the characters not yet turned
    into a token (twice, so that the token in [CurTok] counts between). *)
Definition unread (st : Parser) : nat :=
  (2 * pending st + (if Z.eqb (CurTok st) tok_eof then 0 else 1))%nat.

(** Nothing was given back: no more is left to read than before, and
    when as much is left the token in hand is the same. *)
Definition no_give_back (st st' : Parser) : Prop :=
  (unread st' <= unread st)%nat /\ (unread st' = unread st -> CurTok st' = CurTok st).

(** A parser function came back without giving anything back, and with
    less to read when its result is not null. *)
Definition consumed {A} (st : Parser) (r : option A) (st' : Parser) : Prop :=
  no_give_back st st' /\ (r <> None -> (unread st' < unread st)%nat).

(** The one line the lexer writes, and the messages of the expression
    parser and of [ParsePrototype]. *)
Definition lexer_error : string := "Error: Unterminated multi-line comment".

Definition expression_errors : list string :=
  [ "Unknown token when expecting an expression";
    "Expected ')'";
    "Expected ',' or ')' in argument list" ]%string.

Definition prototype_errors : list string :=
  [ "Expected function name in prototype";
    "Expected '(' in prototype";
    "Expected ')' in prototype" ]%string.

(** Nothing but lines of the lexer went to the error stream. *)
Definition silent (st st' : Parser) : Prop :=
  exists more, Forall (eq lexer_error) more /\ Stderr st' = Stderr st ++ more.

(** A parser function says why it failed: its null result comes with one
    [LogError] line, the last one written; a tree comes with none. *)
Definition reports {A} (errors : list string) (st : Parser) (r : option A)
           (st' : Parser) : Prop :=
  match r with
  | Some _ => silent st st'
  | None => exists st0 msg, silent st st0 /\ In msg errors /\
                            Stderr st' = Stderr st0 ++ ["Error: " +:+ msg]%string
  end.

(** [m'] returns what [m] returns, wherever [m] returns. *)
Definition refines {A} (m m' : M A) : Prop :=
  forall st r, m st = Some r -> m' st = Some r.

(** ** What lowering needs and says *)

(** [x] is bound to a value (an entry that is not null). *)
Definition has_value (x : string) (st : CodeGen) : bool :=
  match NamedValues st !! x with
  | Some (Some _) => true
  | _ => false
  end.

(** The module has a function of [n] parameters under [Callee]. *)
Definition callable (Callee : string) (n : nat) (st : CodeGen) : bool :=
  match getFunction Callee st with
  | Some F => Nat.eqb (length (FArgs F)) n
  | None => false
  end.

(** What [codegen] asks of a tree: every variable has a value, every call
    names a function of the module with as many parameters as arguments,
    every operator is one of the [switch] of [BinaryExprAST::codegen]. *)
Fixpoint in_scope (st : CodeGen) (e : ExprAST) : bool :=
  match e with
  | NumberExprAST _ => true
  | VariableExprAST Name => has_value Name st
  | BinaryExprAST Op LHS RHS => in_scope st LHS && in_scope st RHS && is_binop Op
  | CallExprAST Callee Args =>
      callable Callee (length Args) st && forallb (in_scope st) Args
  end.

(** The error stream got no line, or at least one. *)
Definition no_error (st st' : CodeGen) : Prop := Errs st' = Errs st.

Definition some_error (st st' : CodeGen) : Prop :=
  exists line more, Errs st' = Errs st ++ line :: more.

(** A null result comes with an error, a value with none. *)
Definition null_with_error {A} (r : option A) (st st' : CodeGen) : Prop :=
  match r with
  | Some _ => no_error st st'
  | None => some_error st st'
  end.

(** ** Observations on the module *)

Definition is_ret (J : nat * Instruction) : bool :=
  match snd J with
  | ReturnInst _ => true
  | _ => false
  end.

(** The last instruction of the block is its only [ret]. *)
Definition closed_block (B : BasicBlock) : bool :=
  match rev (Insts B) with
  | [] => false
  | last :: before => is_ret last && forallb (fun J => negb (is_ret J)) before
  end.

(** A declaration, or a function of one closed block. *)
Definition well_formed (F : IRFunction) : bool :=
  match Blocks F with
  | [] => true
  | [B] => closed_block B
  | _ => false
  end.

(** The functions of the module have identities of their own, below the
    allocation counter, and are well formed. *)
Definition module_ok (st : CodeGen) : Prop :=
  NoDup (map FId (TheModule st)) /\ ids_fresh st /\
  Forall (fun F => well_formed F = true) (TheModule st).

(** The functions of the module, each with the number of its
    parameters. *)
Definition arities (m : list IRFunction) : list (nat * nat) :=
  map (fun G => (FId G, length (FArgs G))) m.

(** The instruction calls no function, or one of [sigs] with as many
    arguments as it has parameters. *)
Definition callee_in (sigs : list (nat * nat)) (I : Instruction) : bool :=
  match I with
  | CallInst Callee Args =>
      existsb (fun s => Nat.eqb (fst s) Callee && Nat.eqb (snd s) (length Args)) sigs
  | _ => true
  end.

(** The calls in the body of [G] are such calls of functions in [sigs]. *)
Definition fn_resolved (sigs : list (nat * nat)) (G : IRFunction) : Prop :=
  Forall (fun B => Forall (fun J => callee_in sigs (snd J) = true) (Insts B))
         (Blocks G).

(** No call of the module is left without its callee: every call is a
    call of a function the module holds, with as many arguments as that
    function has parameters. *)
Definition calls_resolved (m : list IRFunction) : Prop :=
  Forall (fn_resolved (arities m)) m.

(** The module is sound: [module_ok], and no call without its callee. *)
Definition module_sound (st : CodeGen) : Prop :=
  module_ok st /\ calls_resolved (TheModule st).

(** Every function that had a body is still there, as it was. *)
Definition bodies_kept (st st' : CodeGen) : Prop :=
  forall F, In F (TheModule st) -> Blocks F <> [] -> In F (TheModule st').

(** Lowering went on in the block of the builder, without a [ret], and
    with calls of functions of the module only. *)
Definition body_grows (st st' : CodeGen) : Prop :=
  InsertPoint st' = InsertPoint st /\ (NextId st <= NextId st')%nat /\
  exists new, TheModule st' = emit (InsertPoint st) new (TheModule st) /\
              forallb (fun J => negb (is_ret J)) new = true /\
              Forall (fun J => callee_in (arities (TheModule st)) (snd J) = true) new.

(** The entry block [BasicBlock::Create] adds. *)
Definition add_entry (G : IRFunction) : IRFunction :=
  mkIRFunction (FId G) (FName G) (FArgs G) (Blocks G ++ [mkBasicBlock []]).

(** ** The driver

    What the driver writes to the error stream: the text of a [fprintf],
    a function handed to [Function::print] (as the module has it then) and
    the module handed to [Module::print].  The lines of [LogError] stay in
    [Stderr] and [Errs]; all three go to the standard error of the
    process, and each list keeps the order of its writer. *)

Inductive Event : Type :=
| Text (s : string)
| PrintFunction (F : option IRFunction)
| PrintModule (m : list IRFunction).

Record Driver : Type := mkDriver {
  Front : Parser;
  Back : CodeGen;
  Console : list Event
}.

Definition fprintf (d : Driver) (s : string) : Driver :=
  mkDriver (Front d) (Back d) (Console d ++ [Text s]).

(** [FnIR->print(errs())]. *)
Definition print_function (d : Driver) (FnIR : nat) : Driver :=
  mkDriver (Front d) (Back d)
    (Console d ++
       [PrintFunction (List.find (fun G => Nat.eqb (FId G) FnIR) (TheModule (Back d)))]).

Section Driver.

Variable strtod : string -> double.
Variable FoldBinOp : Opcode -> Value -> Value -> option Value.
Variable FoldCmp : Value -> Value -> option Value.
Variable FoldCast : Value -> option Value.

(** [getNextToken()] of the error recovery. *)
Definition skip_token (d : Driver) : option Driver :=
  match getNextToken strtod (Front d) with
  | None => None
  | Some (_, p) => Some (mkDriver p (Back d) (Console d))
  end.

Definition HandleDefinition (fuel : nat) (d : Driver) : option Driver :=
  match ParseFunDef strtod fuel (Front d) with
  | None => None
  | Some (Some FnAST, p) =>
      let '(FnIR, g) := FunctionAST_codegen FoldBinOp FoldCmp FoldCast FnAST (Back d) in
      let d := mkDriver p g (Console d) in
      match FnIR with
      | Some FnIR =>
          let d := fprintf d "Read function definition:" in
          let d := print_function d FnIR in
          Some (fprintf d nl)
      | None => Some d
      end
  | Some (None, p) => skip_token (mkDriver p (Back d) (Console d))
  end.

(** [Proto->codegen()] returns the function [Function::Create] made,
    which is never null. *)
Definition HandleExtern (fuel : nat) (d : Driver) : option Driver :=
  match ParseImport strtod fuel (Front d) with
  | None => None
  | Some (Some ProtoAST, p) =>
      let '(FnIR, g) := PrototypeAST_codegen ProtoAST (Back d) in
      let d := mkDriver p g (Console d) in
      let d := fprintf d "Read extern: " in
      let d := print_function d (FId FnIR) in
      Some (fprintf d nl)
  | Some (None, p) => skip_token (mkDriver p (Back d) (Console d))
  end.

Definition HandleTopLevelExpression (fuel : nat) (d : Driver) : option Driver :=
  match ParseTopLevelExpr strtod fuel (Front d) with
  | None => None
  | Some (Some FnAST, p) =>
      let '(FnIR, g) := FunctionAST_codegen FoldBinOp FoldCmp FoldCast FnAST (Back d) in
      let d := mkDriver p g (Console d) in
      match FnIR with
      | Some FnIR =>
          let d := fprintf d "Read top-level expression:" in
          let d := print_function d FnIR in
          let d := fprintf d nl in
          Some (mkDriver (Front d) (eraseFromParent FnIR (Back d)) (Console d))
      | None => Some d
      end
  | Some (None, p) => skip_token (mkDriver p (Back d) (Console d))
  end.

(** [MainLoop]: the prompt, then the [switch] on [CurTok].  The run is
    followed as long as the behaviour of the program is defined: where a
    handler has destroyed a function that is still in use ([Undefined]),
    the result is the state reached there. *)
Fixpoint MainLoop (fuel : nat) (d : Driver) : option Driver :=
  match fuel with
  | O => None
  | S f =>
      let d := fprintf d "is-> " in
      let tok := CurTok (Front d) in
      if tok =? tok_eof then Some d
      else
        match (if tok =? chr ";" then skip_token d
               else if tok =? tok_fun then HandleDefinition f d
               else if tok =? tok_imp then HandleExtern f d
               else HandleTopLevelExpression f d) with
        | None => None
        | Some d => if Undefined (Back d) then Some d else MainLoop f d
        end
  end.

(** [main]: the operators, the banner, the first token, the module, the
    loop, and the module printed.  [TheModule] and [Builder] are null
    until [InitializeModule], and nothing looks at them before.  A run
    that became undefined ends where it did, without the last print. *)
Definition main (fuel : nat) (input : string) : option Driver :=
  let st := start input in
  let st := set_BinopPrecedence st (install_binops (BinopPrecedence st)) in
  let d := mkDriver st InitializeModule [] in
  let d := fprintf d "Isere Version alpha 0.1" in
  let d := fprintf d "is->" in
  match skip_token d with
  | None => None
  | Some d =>
      let d := mkDriver (Front d) InitializeModule (Console d) in
      match MainLoop fuel d with
      | None => None
      | Some d =>
          if Undefined (Back d) then Some d
          else Some (mkDriver (Front d) (Back d)
                              (Console d ++ [PrintModule (TheModule (Back d))]))
      end
  end.

End Driver.

(** ** Observations on the precedence table and on names *)

(** The precedences [main] installs, and [-1] for every other token. *)
Definition main_precedence (c : Z) : Z :=
  if c =? chr "<" then 10
  else if c =? chr "+" then 20
  else if c =? chr "-" then 20
  else if c =? chr "*" then 40
  else -1.

(** The table holds the four precedences of [main], and nothing
    positive besides (the zeros that looking a character up leaves). *)
Definition main_table (m : gmap Z Z) : Prop :=
  forall c,
    match m !! c with
    | Some v => if is_binop c then v = main_precedence c else v <= 0
    | None => is_binop c = false
    end.

(** The name [makeUniqueName] tries for the counter value [n]. *)
Definition candidate (base : string) (dot : bool) (n : nat) : string :=
  (base +:+ (if dot then "." else "") +:+ pretty n)%string.

(** ** Expressions as they are written

    The text of an expression, to compare the parser with: numerals and
    names as written, the operands of a binary operator in parentheses,
    the arguments of a call separated by commas, and no blanks. *)

Inductive Source : Type :=
| SNum (text : string)
| SVar (Name : string)
| SBin (Op : ascii) (LHS RHS : Source)
| SCall (Callee : string) (Args : list Source).

(** The text of [e], followed by [k]. *)
Fixpoint print_to (e : Source) (k : string) : string :=
  match e with
  | SNum text => (text +:+ k)%string
  | SVar Name => (Name +:+ k)%string
  | SBin Op LHS RHS =>
      String "(" (print_to LHS
        (String ")" (String Op (String "(" (print_to RHS (String ")" k))))))
  | SCall Callee Args =>
      (Callee +:+
       String "("
         ((fix args (Args : list Source) : string :=
             match Args with
             | [] => String ")" k
             | Arg :: rest =>
                 print_to Arg
                   (match rest with
                    | [] => String ")" k
                    | _ :: _ => String "," (args rest)
                    end)
             end) Args))%string
  end.

(** The arguments of a call, up to and with the closing parenthesis. *)
Fixpoint print_args_to (Args : list Source) (k : string) : string :=
  match Args with
  | [] => String ")" k
  | Arg :: rest =>
      print_to Arg
        (match rest with
         | [] => String ")" k
         | _ :: _ => String "," (print_args_to rest k)
         end)
  end.

Definition print (e : Source) : string := print_to e EmptyString.

(** A name: an identifier that is no keyword. *)
Definition is_name (id : string) : bool :=
  is_identifier id && negb (String.eqb id "fn") && negb (String.eqb id "import").

(** A numeral: digits and dots, at least one. *)
Definition is_numeral (text : string) : bool :=
  negb (String.eqb text EmptyString) && all_chars is_num_char text.

(** Numerals are numerals, names are names, operators are those of
    [main]. *)
Fixpoint well_written (e : Source) : bool :=
  match e with
  | SNum text => is_numeral text
  | SVar Name => is_name Name
  | SBin Op LHS RHS => is_binop (chr Op) && well_written LHS && well_written RHS
  | SCall Callee Args => is_name Callee && forallb well_written Args
  end.

(** A prototype as written: the name, and the parameter names in
    parentheses with a blank between them. *)
Fixpoint print_params_to (ArgNames : list string) (k : string) : string :=
  match ArgNames with
  | [] => String ")" k
  | a :: rest =>
      (a +:+ match rest with
             | [] => String ")" k
             | _ :: _ => String " " (print_params_to rest k)
             end)%string
  end.

Definition print_prototype_to (P : PrototypeAST) (k : string) : string :=
  (Name P +:+ String "(" (print_params_to (ProtoArgs P) k))%string.

(** [fn name(a b) body] and [import name(a b)]. *)
Definition print_definition (P : PrototypeAST) (e : Source) : string :=
  ("fn " +:+ print_prototype_to P (String " " (print e)))%string.

Definition print_import (P : PrototypeAST) : string :=
  ("import " +:+ print_prototype_to P EmptyString)%string.

Definition well_written_prototype (P : PrototypeAST) : bool :=
  is_name (Name P) && forallb is_name (ProtoArgs P).

(** What no expression goes on with: the end of the input, a closing
    parenthesis, a comma, a semicolon. *)
Definition ends_expression (c : Z) : bool :=
  (c =? EOF) || (c =? chr ")") || (c =? chr ",") || (c =? chr ";").

(** The lexer has the text [t] before it, after blanks. *)
Definition stands_at (st : Parser) (t : string) : Prop :=
  (LastChar st = EOF /\ t = EmptyString) \/
  exists a ws, LastChar st = chr a /\ String a (Stdin st) = (ws +:+ t)%string /\
               all_chars isspace ws = true.

Section Written.

Variable strtod : string -> double.

(** The tree of an expression as written. *)
Fixpoint ast (e : Source) : ExprAST :=
  match e with
  | SNum text => NumberExprAST (strtod text)
  | SVar Name => VariableExprAST Name
  | SBin Op LHS RHS => BinaryExprAST (chr Op) (ast LHS) (ast RHS)
  | SCall Callee Args => CallExprAST Callee (map ast Args)
  end.

(** The parser has the text [t] before it: [CurTok] is the first token
    of [t], and the lexer is where it was after that token. *)
Definition looking_at (st : Parser) (t : string) : Prop :=
  exists st0 st1,
    stands_at st0 t /\ getTok strtod st0 = Some (CurTok st, st1) /\
    Stdin st = Stdin st1 /\ LastChar st = LastChar st1 /\
    IdentifierStr st = IdentifierStr st1 /\ NumVal st = NumVal st1.

(** The parser of [main], standing on the first token of [input] (the
    input itself if the lexer ran out of fuel). *)
Definition primed_with (input : string) : Parser :=
  let st := start input in
  let st := set_BinopPrecedence st (install_binops (BinopPrecedence st)) in
  match getNextToken strtod st with
  | Some (_, st') => st'
  | None => st
  end.

End Written.

(** What a handler leaves of the driver [d] ([d] itself if it ran out
    of fuel), and what [main] leaves of [input], with the folder that
    never folds and [strtod_digits]. *)
Definition handled (h : Driver -> option Driver) (d : Driver) : Driver :=
  match h d with
  | Some d' => d'
  | None => d
  end.

Definition ran (fuel : nat) (input : string) : Driver :=
  match main strtod_digits NoFoldBinOp NoFoldCmp NoFoldCast fuel input with
  | Some d => d
  | None => mkDriver (start input) InitializeModule []
  end.

(** The driver standing on the first token of [input], with the module
    [g]. *)
Definition driver_on (input : string) (g : CodeGen) : Driver :=
  mkDriver (primed input) g [].

(** * Properties *)

(** Induction on ASTs, with the arguments of a call. *)
Lemma ExprAST_ind' (P : ExprAST -> Prop) :
  (forall Val, P (NumberExprAST Val)) ->
  (forall Name, P (VariableExprAST Name)) ->
  (forall Op LHS RHS, P LHS -> P RHS -> P (BinaryExprAST Op LHS RHS)) ->
  (forall Callee Args, Forall P Args -> P (CallExprAST Callee Args)) ->
  forall e, P e.
Proof.
  intros HN HV HB HC.
  fix IH 1. intros [Val|Name|Op LHS RHS|Callee Args].
  - apply HN.
  - apply HV.
  - apply HB; apply IH.
  - apply HC. induction Args as [|a Args IHArgs]; constructor; [apply IH | exact IHArgs].
Qed.

(** ** The C library model *)

Lemma ascii_of_chr (a : ascii) : ascii_of (chr a) = a.
Proof.
  unfold ascii_of, chr. rewrite N2Z.id. apply ascii_N_embedding.
Qed.

Lemma chr_range (a : ascii) : 0 <= chr a < 256.
Proof.
  unfold chr. pose proof (N_ascii_bounded a). lia.
Qed.

Lemma chr_not_EOF (a : ascii) : (chr a =? EOF) = false.
Proof.
  pose proof (chr_range a). unfold EOF. lia.
Qed.

Lemma push_back_chr (s : string) (a : ascii) :
  push_back s (chr a) = (s +:+ String a EmptyString)%string.
Proof.
  unfold push_back. now rewrite ascii_of_chr.
Qed.

Lemma string_app_assoc (s t u : string) :
  ((s +:+ t) +:+ u = s +:+ (t +:+ u))%string.
Proof.
  induction s as [|a s IH]; simpl; [reflexivity | now rewrite IH].
Qed.

Lemma string_app_length (s t : string) :
  String.length (s +:+ t) = (String.length s + String.length t)%nat.
Proof.
  induction s as [|a s IH]; simpl; [reflexivity | now rewrite IH].
Qed.

(** ** The loops of the lexer never give characters back *)

Lemma getchar_length inp c inp' :
  getchar inp = (c, inp') -> (String.length inp' <= String.length inp)%nat.
Proof.
  destruct inp; simpl; intros [= <- <-]; simpl; lia.
Qed.

Lemma skip_whitespace_length inp : forall c c' inp',
  skip_whitespace inp c = (c', inp') ->
  (String.length inp' <= String.length inp)%nat.
Proof.
  induction inp as [|a inp IH]; intros c c' inp'; simpl.
  - destruct (isspace c); intros [= <- <-]; simpl; lia.
  - destruct (isspace c).
    + intros H. apply IH in H. lia.
    + intros [= <- <-]. simpl; lia.
Qed.

Lemma skip_line_length inp : forall c inp',
  skip_line inp = (c, inp') -> (String.length inp' <= String.length inp)%nat.
Proof.
  induction inp as [|a inp IH]; intros c inp'; simpl.
  - intros [= <- <-]; simpl; lia.
  - destruct ((chr a =? 10) || (chr a =? 13)).
    + intros [= <- <-]. lia.
    + intros H. apply IH in H. lia.
Qed.

Lemma skip_block_length : forall n inp inp',
  (String.length inp <= n)%nat ->
  skip_block inp = Some inp' -> (String.length inp' <= String.length inp)%nat.
Proof.
  induction n as [|n IH]; intros inp inp' Hn; destruct inp as [|a inp]; simpl in *;
    try discriminate; try lia.
  destruct (chr a =? chr "*").
  - destruct inp as [|b inp]; [discriminate|].
    destruct (chr b =? chr "/").
    + intros [= <-]. simpl. lia.
    + intros H. apply IH in H; simpl in *; lia.
  - intros H. apply IH in H; lia.
Qed.

Lemma skip_whitespace_prefix ws : forall a rest,
  all_chars isspace ws = true ->
  isspace (chr a) = false ->
  forall c, isspace c = true ->
  skip_whitespace (ws +:+ String a rest) c = (chr a, rest).
Proof.
  induction ws as [|w ws IH]; intros a rest Hws Ha c Hc; simpl in *.
  - rewrite Hc. destruct rest; simpl; now rewrite Ha.
  - rewrite Hc. apply andb_true_iff in Hws as [Hw Hws]. now apply IH.
Qed.

Lemma read_number_run run : forall rest acc,
  all_chars is_num_char run = true ->
  is_num_char (head_char rest) = false ->
  read_number (run +:+ rest) acc = ((acc +:+ run)%string, head_char rest, tail_chars rest).
Proof.
  induction run as [|d run IH]; intros rest acc Hrun Hrest; simpl in *.
  - replace (acc +:+ "")%string with acc
      by (clear; induction acc; simpl; congruence).
    destruct rest as [|b rest]; [reflexivity|].
    unfold head_char in Hrest; simpl in *. now rewrite Hrest.
  - apply andb_true_iff in Hrun as [Hd Hrun]. rewrite Hd.
    rewrite IH by assumption. rewrite push_back_chr. rewrite string_app_assoc.
    reflexivity.
Qed.

Section LexerProperties.

Variable strtod : string -> double.

Lemma getTok_rec_eq fuel st :
  getTok_rec strtod fuel st =
  let again st' := match fuel with O => None | S f => getTok_rec strtod f st' end in
  let '(c, inp) := skip_whitespace (Stdin st) (LastChar st) in
  if isalpha c then
    let '(id, c', inp') := read_identifier inp (push_back EmptyString c) in
    let st' := set_IdentifierStr (set_lex st inp' c') id in
    if String.eqb id "fn" then Some (tok_fun, st')
    else if String.eqb id "import" then Some (tok_imp, st')
    else Some (tok_identifier, st')
  else if is_num_char c then
    let '(NumStr, c', inp') := read_number inp (push_back EmptyString c) in
    Some (tok_number, set_NumVal (set_lex st inp' c') (strtod NumStr))
  else if c =? chr "/" then
    let '(c1, inp1) := getchar inp in
    if c1 =? chr "/" then
      let '(c2, inp2) := skip_line inp1 in
      if negb (c2 =? EOF) then again (set_lex st inp2 c2)
      else Some (getTok_rest st inp2 c2)
    else if c1 =? chr "*" then
      match skip_block inp1 with
      | None =>
          Some (tok_eof,
                fprintf_stderr (set_lex st EmptyString EOF)
                               "Error: Unterminated multi-line comment")
      | Some inp2 =>
          let '(c3, inp3) := getchar inp2 in
          again (set_lex st inp3 c3)
      end
    else Some (chr "/", set_lex st inp1 c1)
  else Some (getTok_rest st inp c).
Proof.
  destruct fuel; reflexivity.
Qed.

(** The lexer is total: with the length of the unread input as fuel it
    returns a token, and more fuel changes nothing. *)
Lemma getTok_rec_enough : forall fuel st,
  (String.length (Stdin st) <= fuel)%nat ->
  exists r, getTok_rec strtod fuel st = Some r
            /\ forall fuel', (String.length (Stdin st) <= fuel')%nat ->
                             getTok_rec strtod fuel' st = Some r.
Proof.
  induction fuel as [fuel IH] using lt_wf_ind. intros st Hfuel.
  assert (Hstep : forall fuel', (String.length (Stdin st) <= fuel')%nat ->
            forall st', (String.length (Stdin st') < String.length (Stdin st))%nat ->
            exists r, (match fuel' with O => None | S f => getTok_rec strtod f st' end) = Some r
              /\ forall fuel'', (String.length (Stdin st) <= fuel'')%nat ->
                   (match fuel'' with O => None | S f => getTok_rec strtod f st' end) = Some r).
  { intros fuel' Hf' st' Hlt.
    destruct (IH (String.length (Stdin st'))) with (st := st') as (r & Hr & Hall);
      [lia | lia |].
    exists r. split.
    - destruct fuel'; [lia|]. apply Hall. lia.
    - intros [|f''] Hf''; [lia|]. apply Hall. lia. }
  assert (Hconst : forall r : Z * Parser,
            exists r0, Some r = Some r0 /\
              forall fuel', (String.length (Stdin st) <= fuel')%nat -> Some r = Some r0)
    by (intros r; exists r; auto).
  setoid_rewrite getTok_rec_eq. cbv zeta.
  destruct (skip_whitespace (Stdin st) (LastChar st)) as [c inp] eqn:Hws.
  apply skip_whitespace_length in Hws.
  destruct (isalpha c).
  { destruct (read_identifier inp (push_back "" c)) as [[id c'] inp'].
    destruct (String.eqb id "fn"); [apply Hconst|].
    destruct (String.eqb id "import"); apply Hconst. }
  destruct (is_num_char c).
  { destruct (read_number inp (push_back "" c)) as [[num c'] inp']. apply Hconst. }
  destruct (c =? chr "/"); [|apply Hconst].
  destruct (getchar inp) as [c1 inp1] eqn:Hg.
  assert (Hlen1 : c1 <> EOF -> (String.length inp1 < String.length inp)%nat).
  { destruct inp; simpl in Hg; injection Hg as <- <-; [congruence | simpl; lia]. }
  destruct (c1 =? chr "/") eqn:Hc1.
  { apply Z.eqb_eq in Hc1. subst c1.
    destruct (skip_line inp1) as [c2 inp2] eqn:Hsl. apply skip_line_length in Hsl.
    destruct (negb (c2 =? EOF)); [|apply Hconst].
    apply Hstep with (fuel' := fuel); [assumption|]. simpl.
    specialize (Hlen1 ltac:(discriminate)). lia. }
  destruct (c1 =? chr "*") eqn:Hc2; [|apply Hconst].
  apply Z.eqb_eq in Hc2. subst c1.
  destruct (skip_block inp1) as [inp2|] eqn:Hsb; [|apply Hconst].
  apply skip_block_length with (n := String.length inp1) in Hsb; [|lia].
  destruct (getchar inp2) as [c3 inp3] eqn:Hg3. apply getchar_length in Hg3.
  apply Hstep with (fuel' := fuel); [assumption|]. simpl.
  specialize (Hlen1 ltac:(discriminate)). lia.
Qed.

Lemma getTok_total (st : Parser) : exists t st', getTok strtod st = Some (t, st').
Proof.
  destruct (getTok_rec_enough (String.length (Stdin st)) st) as ([t st'] & H & _);
    [lia|].
  exists t, st'. exact H.
Qed.

(** The lexer returns a token from every state and on every input. *)
Theorem getTok_terminates (st : Parser) :
  exists t st', getTok strtod st = Some (t, st').
Proof.
  exact (getTok_total st).
Qed.

Lemma getNextToken_total (st : Parser) :
  exists t st', getNextToken strtod st = Some (t, set_CurTok st' t)
                /\ getTok strtod st = Some (t, st').
Proof.
  destruct (getTok_total st) as (t & st' & H).
  exists t, st'. split; [|exact H].
  unfold getNextToken, bind. now rewrite H.
Qed.

(** Fuel beyond the length of the input is never used. *)
Lemma getTok_rec_getTok fuel st :
  (String.length (Stdin st) <= fuel)%nat ->
  getTok_rec strtod fuel st = getTok strtod st.
Proof.
  intros Hfuel. unfold getTok.
  destruct (getTok_rec_enough fuel st Hfuel) as (r & Hr & Hall).
  rewrite Hr. symmetry. apply Hall. lia.
Qed.

(** *** Numbers *)

Lemma is_num_char_not_space c : is_num_char c = true -> isspace c = false.
Proof.
  unfold is_num_char, isspace, isdigit, chr; simpl; intros H; lia.
Qed.

Lemma is_num_char_not_alpha c : is_num_char c = true -> isalpha c = false.
Proof.
  unfold is_num_char, isalpha, isdigit, chr; simpl; intros H; lia.
Qed.

Lemma skip_whitespace_stop inp c :
  isspace c = false -> skip_whitespace inp c = (c, inp).
Proof.
  intros H. destruct inp; simpl; now rewrite H.
Qed.

(** The lexer standing before a number: what it has still to read is
    whitespace, then a run of digits and dots, then something else. *)
Lemma skip_whitespace_before_number st a ws d run rest :
  LastChar st = chr a ->
  String a (Stdin st) = (ws +:+ String d run +:+ rest)%string ->
  all_chars isspace ws = true ->
  is_num_char (chr d) = true ->
  skip_whitespace (Stdin st) (LastChar st) = (chr d, (run +:+ rest)%string).
Proof.
  intros HL Hin Hws Hd. rewrite HL.
  destruct ws as [|w ws]; simpl in Hin; injection Hin as -> ->.
  - apply skip_whitespace_stop. now apply is_num_char_not_space.
  - simpl in Hws. apply andb_true_iff in Hws as [Hw Hws].
    apply skip_whitespace_prefix; auto using is_num_char_not_space.
Qed.

(** C7.  Whenever the lexer stands before a maximal run of digits and
    dots (after any whitespace), [getTok] returns [tok_number] and leaves in
    [NumVal] the [strtod] of exactly that run; the character after the run
    becomes the lookahead.  The conversion is the C library's, applied to
    the text of the run and nothing else. *)
Theorem getTok_number st a ws run rest :
  LastChar st = chr a ->
  String a (Stdin st) = (ws +:+ run +:+ rest)%string ->
  all_chars isspace ws = true ->
  run <> EmptyString ->
  all_chars is_num_char run = true ->
  is_num_char (head_char rest) = false ->
  exists st',
    getTok strtod st = Some (tok_number, st') /\
    NumVal st' = strtod run /\
    LastChar st' = head_char rest /\
    Stdin st' = tail_chars rest /\
    IdentifierStr st' = IdentifierStr st /\
    Stderr st' = Stderr st.
Proof.
  intros HL Hin Hws Hne Hrun Hrest.
  destruct run as [|d run]; [congruence|]. simpl in Hrun.
  apply andb_true_iff in Hrun as [Hd Hrun].
  eexists. split.
  - unfold getTok. rewrite getTok_rec_eq. cbv zeta.
    rewrite (skip_whitespace_before_number st a ws d run rest) by assumption.
    rewrite (is_num_char_not_alpha _ Hd), Hd.
    rewrite read_number_run by assumption.
    rewrite push_back_chr. reflexivity.
  - simpl. repeat split; reflexivity.
Qed.

(** *** Comments *)

Lemma skip_line_text text : forall e rest,
  all_chars not_newline text = true ->
  not_newline (chr e) = false ->
  skip_line (text +:+ String e rest) = (chr e, rest).
Proof.
  induction text as [|t text IH]; intros e rest Htext He; simpl in *.
  - unfold not_newline in He. apply negb_false_iff in He. now rewrite He.
  - apply andb_true_iff in Htext as [Ht Htext].
    unfold not_newline in Ht. apply negb_true_iff in Ht. rewrite Ht.
    now apply IH.
Qed.

Lemma skip_block_text text : forall rest,
  all_chars not_star text = true ->
  skip_block (text +:+ String "*" (String "/" rest)) = Some rest.
Proof.
  induction text as [|t text IH]; intros rest Htext; simpl in *.
  - reflexivity.
  - apply andb_true_iff in Htext as [Ht Htext].
    unfold not_star in Ht. apply negb_true_iff in Ht. rewrite Ht.
    now apply IH.
Qed.

(** A line comment is transparent: standing on the first slash of
    [// text] that ends at a newline, [getTok] returns what it returns
    when it stands on that newline. *)
Lemma getTok_line_comment st text e rest :
  LastChar st = chr "/" ->
  Stdin st = ("/" +:+ text +:+ String e rest)%string ->
  all_chars not_newline text = true ->
  not_newline (chr e) = false ->
  getTok strtod st = getTok strtod (set_lex st rest (chr e)).
Proof.
  intros HL Hin Htext He.
  unfold getTok at 1. rewrite getTok_rec_eq. cbv zeta.
  rewrite HL, Hin. rewrite skip_whitespace_stop by reflexivity.
  change (isalpha (chr "/")) with false. change (is_num_char (chr "/")) with false.
  change (chr "/" =? chr "/") with true. cbn iota.
  simpl getchar. cbn iota. change (chr "/" =? chr "/") with true. cbn iota.
  rewrite skip_line_text by assumption. rewrite chr_not_EOF. cbn [negb].
  simpl String.length. apply getTok_rec_getTok.
  simpl. rewrite string_app_length. simpl. lia.
Qed.

(** A block comment whose text holds no star is transparent: standing on
    the slash of [/* text */], [getTok] returns what it returns from the
    character after the closing slash. *)
Lemma getTok_block_comment st text rest :
  LastChar st = chr "/" ->
  Stdin st = ("*" +:+ text +:+ "*/" +:+ rest)%string ->
  all_chars not_star text = true ->
  getTok strtod st =
  getTok strtod (set_lex st (tail_chars rest) (head_char rest)).
Proof.
  intros HL Hin Htext.
  unfold getTok at 1. rewrite getTok_rec_eq. cbv zeta.
  rewrite HL, Hin. rewrite skip_whitespace_stop by reflexivity.
  change (isalpha (chr "/")) with false. change (is_num_char (chr "/")) with false.
  change (chr "/" =? chr "/") with true. cbn iota.
  simpl getchar. cbn iota.
  change (chr "*" =? chr "/") with false. change (chr "*" =? chr "*") with true.
  cbn iota.
  rewrite skip_block_text by assumption.
  unfold head_char, tail_chars. destruct (getchar rest) as [c3 inp3] eqn:Hg.
  apply getchar_length in Hg. simpl fst; simpl snd.
  simpl String.length. apply getTok_rec_getTok.
  simpl. rewrite !string_app_length. simpl. lia.
Qed.

End LexerProperties.

(** ** The parser *)

Section ParserProperties.

Variable strtod : string -> double.

(** *** What the lexer leaves alone *)

Lemma getTok_rec_frame : forall fuel st t st',
  getTok_rec strtod fuel st = Some (t, st') ->
  BinopPrecedence st' = BinopPrecedence st /\ CurTok st' = CurTok st.
Proof.
  induction fuel as [fuel IH] using lt_wf_ind. intros st t st'.
  assert (Hagain : forall st1,
            BinopPrecedence st1 = BinopPrecedence st /\ CurTok st1 = CurTok st ->
            match fuel with O => None | S f => getTok_rec strtod f st1 end = Some (t, st') ->
            BinopPrecedence st' = BinopPrecedence st /\ CurTok st' = CurTok st).
  { intros st1 [H1 H2] H. destruct fuel as [|f]; [discriminate|].
    apply IH in H; [|lia]. destruct H as [-> ->]. now split. }
  rewrite getTok_rec_eq. cbv zeta.
  destruct (skip_whitespace (Stdin st) (LastChar st)) as [c inp].
  destruct (isalpha c).
  { destruct (read_identifier inp (push_back "" c)) as [[id c'] inp'].
    destruct (String.eqb id "fn"); [intros [= <- <-]; now split|].
    destruct (String.eqb id "import"); intros [= <- <-]; now split. }
  destruct (is_num_char c).
  { destruct (read_number inp (push_back "" c)) as [[num c'] inp'].
    intros [= <- <-]; now split. }
  unfold getTok_rest.
  destruct (c =? chr "/").
  - destruct (getchar inp) as [c1 inp1].
    destruct (c1 =? chr "/").
    + destruct (skip_line inp1) as [c2 inp2].
      destruct (negb (c2 =? EOF)); [apply Hagain; now split|].
      destruct (c2 =? EOF); [intros [= <- <-]; now split|].
      destruct (getchar inp2). intros [= <- <-]; now split.
    + destruct (c1 =? chr "*"); [|intros [= <- <-]; now split].
      destruct (skip_block inp1) as [inp2|]; [|intros [= <- <-]; now split].
      destruct (getchar inp2). apply Hagain; now split.
  - destruct (c =? EOF); [intros [= <- <-]; now split|].
    destruct (getchar inp). intros [= <- <-]; now split.
Qed.

Lemma getNextToken_frame st t st' :
  getNextToken strtod st = Some (t, st') ->
  BinopPrecedence st' = BinopPrecedence st /\ CurTok st' = t.
Proof.
  unfold getNextToken, bind, getTok.
  destruct (getTok_rec strtod _ st) as [[t0 st0]|] eqn:E; [|discriminate].
  intros [= <- <-]. apply getTok_rec_frame in E as [E _]. now split.
Qed.

(** *** Precedences *)

Lemma install_binops_only_main : only_main_binops (install_binops ∅).
Proof.
  intros c v. unfold install_binops.
  rewrite !lookup_insert. repeat case_decide; subst; try reflexivity.
  rewrite lookup_empty. discriminate.
Qed.

Lemma map_index_only_main m k v m' :
  only_main_binops m -> map_index m k = (v, m') ->
  only_main_binops m' /\ (0 < v -> is_binop k = true).
Proof.
  intros Hm. unfold map_index. destruct (m !! k) as [v0|] eqn:E.
  - intros [= <- <-]. split; [exact Hm|]. intros Hv. exact (Hm k v0 E Hv).
  - intros [= <- <-]. split; [|lia].
    intros c v'. rewrite lookup_insert. case_decide.
    + intros [= <-]. lia.
    + apply Hm.
Qed.

(** [GetTokPrecedence] answers [-1] or the positive precedence of an
    operator of [main], and touches nothing but the table. *)
Lemma GetTokPrecedence_spec st p st' :
  only_main_binops (BinopPrecedence st) ->
  GetTokPrecedence st = Some (p, st') ->
  only_main_binops (BinopPrecedence st') /\
  CurTok st' = CurTok st /\ Stdin st' = Stdin st /\ LastChar st' = LastChar st /\
  (p = -1 \/ (0 < p /\ is_binop (to_char (CurTok st)) = true)).
Proof.
  intros Hm. unfold GetTokPrecedence.
  destruct (negb (isascii (CurTok st))).
  { intros [= <- <-]. repeat split; auto. }
  destruct (map_index (BinopPrecedence st) (to_char (CurTok st))) as [v m'] eqn:E.
  destruct (map_index_only_main _ _ _ _ Hm E) as [Hm' Hv].
  destruct (v <=? 0) eqn:Hle; intros [= <- <-]; simpl; repeat split; auto.
  right. split; [lia|]. apply Hv. lia.
Qed.

Lemma GetTokPrecedence_slash st :
  CurTok st = chr "/" ->
  only_main_binops (BinopPrecedence st) ->
  exists st', GetTokPrecedence st = Some (-1, st') /\
              CurTok st' = CurTok st /\ Stdin st' = Stdin st /\
              LastChar st' = LastChar st /\ Stderr st' = Stderr st /\
              only_main_binops (BinopPrecedence st').
Proof.
  intros Htok Hm. unfold GetTokPrecedence. rewrite Htok.
  change (negb (isascii (chr "/"))) with false. cbn iota.
  destruct (map_index (BinopPrecedence st) (to_char (chr "/"))) as [v m'] eqn:E.
  destruct (map_index_only_main _ _ _ _ Hm E) as [Hm' Hv].
  assert (Hle : (v <=? 0) = true).
  { destruct (v <=? 0) eqn:Hle; [reflexivity|].
    assert (H : is_binop (to_char (chr "/")) = true) by (apply Hv; lia).
    discriminate H. }
  rewrite Hle. eexists. split; [reflexivity|]. simpl. auto.
Qed.

(** *** One step of each parser function *)

Lemma ParsePrimary_S f :
  ParsePrimary strtod (S f) =
  let* tok := read CurTok in
  if tok =? tok_identifier then ParseIdentifierExpr strtod f
  else if tok =? tok_number then ParseNumberExpr strtod
  else if tok =? chr "(" then ParseParenExpr strtod f
  else LogError "Unknown token when expecting an expression".
Proof. reflexivity. Qed.

Lemma ParseParenExpr_S f :
  ParseParenExpr strtod (S f) =
  let* _ := getNextToken strtod in
  let* V := ParseExpression strtod f in
  match V with
  | None => ret None
  | Some V =>
      let* tok := read CurTok in
      if negb (tok =? chr ")") then LogError "Expected ')'"
      else
        let* _ := getNextToken strtod in
        ret (Some V)
  end.
Proof. reflexivity. Qed.

Lemma ParseIdentifierExpr_S f :
  ParseIdentifierExpr strtod (S f) =
  let* IdName := read IdentifierStr in
  let* _ := getNextToken strtod in
  let* tok := read CurTok in
  if negb (tok =? chr "(") then ret (Some (VariableExprAST IdName))
  else
    let* _ := getNextToken strtod in
    let* tok := read CurTok in
    let* Args :=
      (if negb (tok =? chr ")") then ParseArguments strtod f [] else ret (Some [])) in
    match Args with
    | None => ret None
    | Some Args =>
        let* _ := getNextToken strtod in
        ret (Some (CallExprAST IdName Args))
    end.
Proof. reflexivity. Qed.

Lemma ParseArguments_S f Args :
  ParseArguments strtod (S f) Args =
  let* Arg := ParseExpression strtod f in
  match Arg with
  | None => ret None
  | Some Arg =>
      let Args := Args ++ [Arg] in
      let* tok := read CurTok in
      if tok =? chr ")" then ret (Some Args)
      else if negb (tok =? chr ",") then
        LogError "Expected ',' or ')' in argument list"
      else
        let* _ := getNextToken strtod in
        ParseArguments strtod f Args
  end.
Proof. reflexivity. Qed.

Lemma ParseBinOpRHS_S f ExprPrec LHS :
  ParseBinOpRHS strtod (S f) ExprPrec LHS =
  let* TokPrec := GetTokPrecedence in
  if TokPrec <? ExprPrec then ret (Some LHS)
  else
    let* BinOp := read CurTok in
    let* _ := getNextToken strtod in
    let* RHS := ParsePrimary strtod f in
    match RHS with
    | None => ret None
    | Some RHS =>
        let* NextPrec := GetTokPrecedence in
        let* RHS :=
          (if TokPrec <? NextPrec then ParseBinOpRHS strtod f (TokPrec + 1) RHS
           else ret (Some RHS)) in
        match RHS with
        | None => ret None
        | Some RHS =>
            ParseBinOpRHS strtod f ExprPrec (BinaryExprAST (to_char BinOp) LHS RHS)
        end
    end.
Proof. reflexivity. Qed.

Lemma ParseExpression_S f :
  ParseExpression strtod (S f) =
  let* LHS := ParsePrimary strtod f in
  match LHS with
  | None => ret None
  | Some LHS => ParseBinOpRHS strtod f 0 LHS
  end.
Proof. reflexivity. Qed.

(** *** The parser builds operators of [main] only *)

Lemma triple_getNextToken :
  triple table_ok (getNextToken strtod) (fun _ st => table_ok st).
Proof.
  intros st t st' Hok H. apply getNextToken_frame in H as [H _].
  unfold table_ok. now rewrite H.
Qed.

(** Running a parser function that returned: the binds are opened one
    after the other, each giving the intermediate result and state. *)
Ltac open_binds H :=
  unfold bind, read, ret in H; cbv beta iota zeta in H.

Ltac bind_as H a st E :=
  lazymatch type of H with
  | match ?x with Some _ => _ | None => None end = Some _ =>
      destruct x as [[a st]|] eqn:E; [|discriminate H]
  end.

Ltac branch H :=
  lazymatch type of H with
  | (if ?b then _ else _) _ = Some _ =>
      let E := fresh "Hb" in destruct b eqn:E
  end.

Ltac null_or H V :=
  lazymatch type of H with
  | (match ?x with Some _ => _ | None => _ end) _ = Some _ =>
      destruct x as [V|]
  end.

Ltac returned H :=
  lazymatch type of H with
  | Some _ = Some _ => injection H as <- <-
  | LogError _ _ = Some _ => injection H as <- <-
  end.

Lemma ParseNumberExpr_ok : triple table_ok (ParseNumberExpr strtod) expr_ok.
Proof.
  intros st r st' Hok H. unfold ParseNumberExpr in H. open_binds H.
  bind_as H t st1 E. returned H. split; [|reflexivity].
  eapply triple_getNextToken; eauto.
Qed.

Lemma parser_ok : forall fuel,
  triple table_ok (ParsePrimary strtod fuel) expr_ok /\
  triple table_ok (ParseParenExpr strtod fuel) expr_ok /\
  triple table_ok (ParseIdentifierExpr strtod fuel) expr_ok /\
  (forall Args, forallb binops_ok Args = true ->
                triple table_ok (ParseArguments strtod fuel Args) args_ok) /\
  (forall ExprPrec LHS, 0 <= ExprPrec -> binops_ok LHS = true ->
                triple table_ok (ParseBinOpRHS strtod fuel ExprPrec LHS) expr_ok) /\
  triple table_ok (ParseExpression strtod fuel) expr_ok.
Proof.
  induction fuel as [|f (IHprim & IHparen & IHid & IHargs & IHrhs & IHexpr)].
  { split; [|split; [|split; [|split; [|split]]]]; unfold triple; intros; discriminate. }
  assert (Hnext : forall st t st', table_ok st ->
            getNextToken strtod st = Some (t, st') -> table_ok st')
    by (intros; eapply triple_getNextToken; eauto).
  split; [|split; [|split; [|split; [|split]]]].
  - (* ParsePrimary *)
    intros st r st' Hok H. rewrite ParsePrimary_S in H. open_binds H.
    branch H; [exact (IHid _ _ _ Hok H)|].
    branch H; [exact (ParseNumberExpr_ok _ _ _ Hok H)|].
    branch H; [exact (IHparen _ _ _ Hok H)|].
    returned H. now split.
  - (* ParseParenExpr *)
    intros st r st' Hok H. rewrite ParseParenExpr_S in H. open_binds H.
    bind_as H t st1 E1. apply Hnext in E1; [|assumption].
    bind_as H V st2 E2. destruct (IHexpr _ _ _ E1 E2) as [Hok2 He].
    null_or H V'; [|returned H; now split].
    branch H; [returned H; now split|].
    bind_as H t3 st3 E3. returned H. split; [eauto|exact He].
  - (* ParseIdentifierExpr *)
    intros st r st' Hok H. rewrite ParseIdentifierExpr_S in H. open_binds H.
    bind_as H t st1 E1. apply Hnext in E1; [|assumption].
    branch H; [returned H; now split|].
    bind_as H t2 st2 E2. apply Hnext in E2; [|assumption].
    bind_as H Args st3 E3.
    assert (Hargs : args_ok Args st3).
    { destruct (negb (CurTok st2 =? chr ")")).
      - exact (IHargs [] eq_refl _ _ _ E2 E3).
      - injection E3 as <- <-. now split. }
    destruct Hargs as [Hok3 Hl].
    null_or H Args'; [|returned H; now split].
    bind_as H t4 st4 E4. returned H. split; [eauto|exact Hl].
  - (* ParseArguments *)
    intros Args HArgs st r st' Hok H. rewrite ParseArguments_S in H. open_binds H.
    bind_as H Arg st1 E1. destruct (IHexpr _ _ _ Hok E1) as [Hok1 He].
    null_or H Arg'; [|returned H; now split].
    assert (HArgs' : forallb binops_ok (Args ++ [Arg']) = true).
    { rewrite forallb_app, HArgs. simpl. now rewrite He. }
    branch H; [returned H; now split|].
    branch H; [returned H; now split|].
    bind_as H t2 st2 E2. apply Hnext in E2; [|assumption].
    exact (IHargs _ HArgs' _ _ _ E2 H).
  - (* ParseBinOpRHS *)
    intros ExprPrec LHS Hprec HLHS st r st' Hok H.
    rewrite ParseBinOpRHS_S in H. open_binds H.
    bind_as H TokPrec st1 E1.
    destruct (GetTokPrecedence_spec _ _ _ Hok E1) as (Hok1 & Htok & _ & _ & Hp).
    branch H; [returned H; now split|].
    assert (Hop : is_binop (to_char (CurTok st1)) = true).
    { rewrite Htok. destruct Hp as [->|[_ Hp]]; [lia|exact Hp]. }
    bind_as H t2 st2 E2. apply Hnext in E2; [|assumption].
    bind_as H RHS st3 E3. destruct (IHprim _ _ _ E2 E3) as [Hok3 He].
    null_or H RHS'; [|returned H; now split].
    bind_as H NextPrec st4 E4.
    destruct (GetTokPrecedence_spec _ _ _ Hok3 E4) as (Hok4 & _).
    bind_as H RHS2 st5 E5.
    assert (Hrhs : expr_ok RHS2 st5).
    { destruct (TokPrec <? NextPrec).
      - refine (IHrhs (TokPrec + 1) _ _ He _ _ _ Hok4 E5). lia.
      - injection E5 as <- <-. now split. }
    destruct Hrhs as [Hok5 He'].
    null_or H RHS2'; [|returned H; now split].
    refine (IHrhs ExprPrec _ Hprec _ _ _ _ Hok5 H).
    simpl. now rewrite Hop, HLHS, He'.
  - (* ParseExpression *)
    intros st r st' Hok H. rewrite ParseExpression_S in H. open_binds H.
    bind_as H LHS st1 E1. destruct (IHprim _ _ _ Hok E1) as [Hok1 He].
    null_or H LHS'; [|returned H; now split].
    refine (IHrhs 0 _ _ He _ _ _ Hok1 H). lia.
Qed.

Lemma binops_ok_no_other_op c e :
  is_binop c = false -> binops_ok e = true -> uses_op c e = false.
Proof.
  intros Hc. induction e as [Val|Name|Op LHS RHS IHL IHR|Callee Args IH] using ExprAST_ind';
    simpl; intros H; try reflexivity.
  - apply andb_true_iff in H as [H HR]. apply andb_true_iff in H as [Hop HL].
    rewrite IHL, IHR by assumption.
    destruct (Op =? c) eqn:E; [|reflexivity].
    apply Z.eqb_eq in E. subst Op. congruence.
  - induction IH as [|a Args Ha _ IHArgs]; simpl in *; [reflexivity|].
    apply andb_true_iff in H as [H1 H2]. now rewrite Ha, IHArgs.
Qed.

Lemma read_ArgNames_ok : forall fuel ArgNames,
  triple table_ok (read_ArgNames strtod fuel ArgNames) (fun _ st => table_ok st).
Proof.
  induction fuel as [|f IH]; intros ArgNames st r st' Hok H; [discriminate|].
  simpl in H. open_binds H. bind_as H t st1 E1.
  apply triple_getNextToken in E1; [|assumption].
  branch H; [exact (IH _ _ _ _ E1 H)|].
  returned H. exact E1.
Qed.

Lemma ParsePrototype_ok fuel :
  triple table_ok (ParsePrototype strtod fuel) (fun _ st => table_ok st).
Proof.
  intros st r st' Hok H. unfold ParsePrototype, LogErrorP in H. open_binds H.
  branch H; [returned H; exact Hok|].
  bind_as H t st1 E1. apply triple_getNextToken in E1; [|assumption].
  branch H; [returned H; exact E1|].
  bind_as H ArgNames st2 E2. apply read_ArgNames_ok in E2; [|assumption].
  branch H; [returned H; exact E2|].
  bind_as H t3 st3 E3. apply triple_getNextToken in E3; [|assumption].
  returned H. exact E3.
Qed.

(** C6.  Once [main] has installed its operators, ['/'] has no precedence:
    [GetTokPrecedence] answers [-1] on it, [ParseBinOpRHS] (called, as
    everywhere in the program, with a minimum precedence that is not
    negative) returns its left operand as it got it and reads no token,
    and no AST the parser returns for an expression, a definition or a
    top-level expression has a [BinaryExprAST] with the operator ['/']. *)
Theorem division_is_never_parsed fuel st :
  only_main_binops (BinopPrecedence st) ->
  (forall e st',
      ParseExpression strtod fuel st = Some (Some e, st') ->
      uses_op (chr "/") e = false) /\
  (forall Fn st',
      ParseFunDef strtod fuel st = Some (Some Fn, st') \/
      ParseTopLevelExpr strtod fuel st = Some (Some Fn, st') ->
      uses_op (chr "/") (Body Fn) = false) /\
  (CurTok st = chr "/" ->
   (exists st0, GetTokPrecedence st = Some (-1, st0)) /\
   (forall ExprPrec LHS, 0 <= ExprPrec ->
      exists st',
        ParseBinOpRHS strtod (S fuel) ExprPrec LHS st = Some (Some LHS, st') /\
        CurTok st' = chr "/" /\ Stdin st' = Stdin st /\
        LastChar st' = LastChar st /\ Stderr st' = Stderr st)).
Proof.
  intros Hok.
  assert (Hexpr : forall st1 e st', table_ok st1 ->
            ParseExpression strtod fuel st1 = Some (Some e, st') ->
            uses_op (chr "/") e = false).
  { intros st1 e st' Hok1 H.
    destruct (parser_ok fuel) as (_ & _ & _ & _ & _ & IH).
    destruct (IH _ _ _ Hok1 H) as [_ He].
    now apply binops_ok_no_other_op. }
  split; [|split].
  - intros e st'. now apply Hexpr.
  - intros Fn st' [H|H].
    + unfold ParseFunDef in H. open_binds H.
      bind_as H t st1 E1. apply triple_getNextToken in E1; [|exact Hok].
      bind_as H P st2 E2. apply ParsePrototype_ok in E2; [|exact E1].
      null_or H P'; [|discriminate H].
      bind_as H E st3 E3. destruct E as [E|]; [|discriminate H].
      returned H. simpl. exact (Hexpr _ _ _ E2 E3).
    + unfold ParseTopLevelExpr in H. open_binds H.
      bind_as H E st1 E1. destruct E as [E|]; [|discriminate H].
      returned H. simpl. exact (Hexpr _ _ _ Hok E1).
  - intros Htok.
    destruct (GetTokPrecedence_slash st Htok Hok) as (st0 & H0 & Ht & Hs & Hl & He & _).
    split; [eauto|]. intros ExprPrec LHS Hprec.
    exists st0. rewrite ParseBinOpRHS_S. unfold bind. rewrite H0.
    replace (-1 <? ExprPrec) with true by lia.
    split; [reflexivity|]. rewrite Ht, Htok. auto.
Qed.

(** C10.  [ParseParenExpr] adds nothing to the tree: when the parser
    stands on ['('] and the expression after it parses to [V] up to a
    [')'], the primary expression is [V] itself, the node [ParseExpression]
    returned.  [ExprAST] has no node for parentheses. *)
Theorem ParseParenExpr_is_transparent f st t st1 V st2 :
  CurTok st = chr "(" ->
  getNextToken strtod st = Some (t, st1) ->
  ParseExpression strtod f st1 = Some (Some V, st2) ->
  CurTok st2 = chr ")" ->
  exists t' st3,
    getNextToken strtod st2 = Some (t', st3) /\
    ParseParenExpr strtod (S f) st = Some (Some V, st3) /\
    ParsePrimary strtod (S (S f)) st = Some (Some V, st3) /\
    forall e : ExprAST,
      (exists Val, e = NumberExprAST Val) \/ (exists Name, e = VariableExprAST Name) \/
      (exists Op LHS RHS, e = BinaryExprAST Op LHS RHS) \/
      (exists Callee Args, e = CallExprAST Callee Args).
Proof.
  intros Htok Hnext HV Hclose.
  destruct (getNextToken_total strtod st2) as (t' & st3 & H3 & _).
  assert (Hparen : ParseParenExpr strtod (S f) st = Some (Some V, set_CurTok st3 t')).
  { rewrite ParseParenExpr_S. unfold bind, read, ret.
    rewrite Hnext, HV, Hclose. change (negb (chr ")" =? chr ")")) with false.
    cbv beta iota. now rewrite H3. }
  exists t', (set_CurTok st3 t'). split; [exact H3|]. split; [exact Hparen|]. split.
  - rewrite ParsePrimary_S. unfold bind, read. rewrite Htok.
    change (chr "(" =? tok_identifier) with false.
    change (chr "(" =? tok_number) with false.
    change (chr "(" =? chr "(") with true. cbn iota. exact Hparen.
  - intros [Val|Name|Op LHS RHS|Callee Args]; eauto 10.
Qed.

(** *** Precedence climbing *)

(** The operator at hand binds at least as tightly as the one after the
    next primary: the two operands seen so far are merged first. *)
Lemma ParseBinOpRHS_merges_left f ExprPrec LHS st TokPrec st1 t st2 RHS st3 NextPrec st4 :
  GetTokPrecedence st = Some (TokPrec, st1) ->
  ExprPrec <= TokPrec ->
  getNextToken strtod st1 = Some (t, st2) ->
  ParsePrimary strtod f st2 = Some (Some RHS, st3) ->
  GetTokPrecedence st3 = Some (NextPrec, st4) ->
  NextPrec <= TokPrec ->
  ParseBinOpRHS strtod (S f) ExprPrec LHS st =
  ParseBinOpRHS strtod f ExprPrec (BinaryExprAST (to_char (CurTok st1)) LHS RHS) st4.
Proof.
  intros H1 Hle H2 H3 H4 Hnext.
  rewrite ParseBinOpRHS_S. unfold bind, read, ret. rewrite H1.
  replace (TokPrec <? ExprPrec) with false by lia.
  rewrite H2, H3, H4.
  replace (TokPrec <? NextPrec) with false by lia. reflexivity.
Qed.

(** The operator after the next primary binds tighter: it takes that
    primary as its left operand, and what it builds becomes the right
    operand of the operator at hand. *)
Lemma ParseBinOpRHS_climbs f ExprPrec LHS st TokPrec st1 t st2 RHS st3 NextPrec st4 RHS' st5 :
  GetTokPrecedence st = Some (TokPrec, st1) ->
  ExprPrec <= TokPrec ->
  getNextToken strtod st1 = Some (t, st2) ->
  ParsePrimary strtod f st2 = Some (Some RHS, st3) ->
  GetTokPrecedence st3 = Some (NextPrec, st4) ->
  TokPrec < NextPrec ->
  ParseBinOpRHS strtod f (TokPrec + 1) RHS st4 = Some (Some RHS', st5) ->
  ParseBinOpRHS strtod (S f) ExprPrec LHS st =
  ParseBinOpRHS strtod f ExprPrec (BinaryExprAST (to_char (CurTok st1)) LHS RHS') st5.
Proof.
  intros H1 Hle H2 H3 H4 Hnext H5.
  rewrite ParseBinOpRHS_S. unfold bind, read, ret. rewrite H1.
  replace (TokPrec <? ExprPrec) with false by lia.
  rewrite H2, H3, H4.
  replace (TokPrec <? NextPrec) with true by lia. now rewrite H5.
Qed.

(** ["1-2-3"] is [(1-2)-3] and ["1+2*3"] is [1+(2*3)]. *)
Lemma ParseExpression_associates :
  parse_expression strtod 8 "1-2-3" =
    Some (Some (BinaryExprAST (chr "-")
                  (BinaryExprAST (chr "-") (NumberExprAST (strtod "1"))
                                           (NumberExprAST (strtod "2")))
                  (NumberExprAST (strtod "3"))), tok_eof) /\
  parse_expression strtod 8 "1+2*3" =
    Some (Some (BinaryExprAST (chr "+")
                  (NumberExprAST (strtod "1"))
                  (BinaryExprAST (chr "*") (NumberExprAST (strtod "2"))
                                           (NumberExprAST (strtod "3")))), tok_eof).
Proof.
  split; vm_compute; reflexivity.
Qed.

(** C1.  In the parser-only program the branch of [ParseBinOpRHS] for a
    tighter pending operator is empty, so every chain associates to the
    left whatever the precedences: ["1+2*3"] is parsed as [(1+2)*3], which
    is not the tree [1+(2*3)] that precedence climbing gives (and that
    Isere's [ParseBinOpRHS] returns, [ParseExpression_associates]). *)
Theorem Hug_ParseBinOpRHS_ignores_precedence :
  Hug.parse_expression strtod 8 "1-2-3" =
    Some (Some (BinaryExprAST (chr "-")
                  (BinaryExprAST (chr "-") (NumberExprAST (strtod "1"))
                                           (NumberExprAST (strtod "2")))
                  (NumberExprAST (strtod "3"))), tok_eof) /\
  Hug.parse_expression strtod 8 "1+2*3" =
    Some (Some (BinaryExprAST (chr "*")
                  (BinaryExprAST (chr "+") (NumberExprAST (strtod "1"))
                                           (NumberExprAST (strtod "2")))
                  (NumberExprAST (strtod "3"))), tok_eof) /\
  Hug.parse_expression strtod 8 "1+2*3" <> parse_expression strtod 8 "1+2*3".
Proof.
  split; [vm_compute; reflexivity|].
  split; [vm_compute; reflexivity|].
  vm_compute. discriminate.
Qed.

(** The constructs of the specification's examples, from their text. *)
Lemma parse_spec_examples :
  parse_with strtod (ParseFunDef strtod) 8 "fn f() 1.0" =
    Some (Some (mkFunctionAST (mkPrototypeAST "f" []) (NumberExprAST (strtod "1.0")))) /\
  parse_with strtod (ParseImport strtod) 8 "import f(a b)" =
    Some (Some (mkPrototypeAST "f" ["a"; "b"]%string)) /\
  parse_with strtod (ParseTopLevelExpr strtod) 8 "f(1.0, 2.0)" =
    Some (Some (mkFunctionAST (mkPrototypeAST EmptyString [])
                  (CallExprAST "f" [NumberExprAST (strtod "1.0");
                                    NumberExprAST (strtod "2.0")]))) /\
  parse_with strtod (ParseFunDef strtod) 8 "fn id(x) x" =
    Some (Some (mkFunctionAST (mkPrototypeAST "id" ["x"%string]) (VariableExprAST "x"))) /\
  parse_expression strtod 8 "(1+2)*3" =
    Some (Some (BinaryExprAST (chr "*")
                  (BinaryExprAST (chr "+") (NumberExprAST (strtod "1"))
                                           (NumberExprAST (strtod "2")))
                  (NumberExprAST (strtod "3"))), tok_eof) /\
  parse_expression strtod 8 "1/2" = Some (Some (NumberExprAST (strtod "1")), chr "/").
Proof.
  repeat split; vm_compute; reflexivity.
Qed.

(** *** Comments, on the inputs of the specification *)

Lemma tokens_skip_comments :
  tokens strtod 9 (start ("1 // comment" +:+ nl +:+ "+ 2")) = tokens strtod 9 (start "1 + 2") /\
  tokens strtod 9 (start "1 /* c */ + 2") = tokens strtod 9 (start "1 + 2") /\
  tokens strtod 9 (start "1 + 2") =
    [(tok_number, EmptyString, strtod "1"); (chr "+", EmptyString, 0%float);
     (tok_number, EmptyString, strtod "2"); (tok_eof, EmptyString, 0%float)].
Proof.
  repeat split; vm_compute; reflexivity.
Qed.

(** A star before the closing pair hides it: after a star [getTok] reads
    one more character and, when it is no slash, goes on behind it, so the
    star of a closing pair can be the character skipped. *)
Lemma tokens_block_comment_star :
  tokens strtod 9 (start "1 /* c **/ + 2") =
    [(tok_number, EmptyString, strtod "1"); (tok_eof, EmptyString, 0%float)].
Proof.
  vm_compute; reflexivity.
Qed.

(** C2.  In the parser-only program [getTok] returns ['/'] as soon as the
    character after a slash is no second slash, so the code for block
    comments below it is never reached: the comment of ["1 /* c */ + 2"]
    is lexed as the tokens [/ * c * /], and the token sequence is not that
    of ["1 + 2"] (as it is in Isere, [tokens_skip_comments]).  Line
    comments are skipped in both programs. *)
Theorem Hug_getTok_block_comment_is_not_skipped :
  Hug.tokens strtod 9 (start "1 /* c */ + 2") =
    [(tok_number, EmptyString, strtod "1");
     (chr "/", EmptyString, 0%float); (chr "*", EmptyString, 0%float);
     (tok_identifier, "c"%string, 0%float);
     (chr "*", EmptyString, 0%float); (chr "/", EmptyString, 0%float);
     (chr "+", EmptyString, 0%float);
     (tok_number, EmptyString, strtod "2"); (tok_eof, EmptyString, 0%float)] /\
  Hug.tokens strtod 9 (start "1 /* c */ + 2") <> Hug.tokens strtod 9 (start "1 + 2") /\
  Hug.tokens strtod 9 (start ("1 // comment" +:+ nl +:+ "+ 2")) =
    Hug.tokens strtod 9 (start "1 + 2").
Proof.
  split; [vm_compute; reflexivity|].
  split; [vm_compute; discriminate|].
  vm_compute; reflexivity.
Qed.

End ParserProperties.

(** ** IR lowering *)

Lemma append_insts_nil BB G : append_insts BB [] G = G.
Proof.
  destruct G as [id n a bs]. unfold append_insts. simpl. f_equal.
  apply list_alter_id. intros [insts]. simpl. now rewrite app_nil_r.
Qed.

Lemma append_insts_app BB new1 new2 G :
  append_insts BB new2 (append_insts BB new1 G) = append_insts BB (new1 ++ new2) G.
Proof.
  unfold append_insts. simpl. f_equal.
  rewrite list_alter_alter_eq. apply list_alter_ext; [|reflexivity].
  intros [insts] _. simpl. now rewrite app_assoc.
Qed.

Lemma update_function_id F f m :
  (forall G, f G = G) -> update_function F f m = m.
Proof.
  intros Hf. unfold update_function. induction m as [|G m IH]; simpl; [reflexivity|].
  rewrite IH. destruct (Nat.eqb (FId G) F); now rewrite ?Hf.
Qed.

Lemma update_function_compose F f g m :
  (forall G, FId (g G) = FId G) ->
  update_function F f (update_function F g m) = update_function F (fun G => f (g G)) m.
Proof.
  intros Hg. unfold update_function. rewrite map_map. apply map_ext. intros G.
  destruct (Nat.eqb (FId G) F) eqn:E.
  - now rewrite Hg, E.
  - now rewrite E.
Qed.

Lemma update_function_ext F f g m :
  (forall G, f G = g G) -> update_function F f m = update_function F g m.
Proof.
  intros H. unfold update_function. apply map_ext. intros G.
  destruct (Nat.eqb (FId G) F); now rewrite ?H.
Qed.

Lemma update_function_signature F f m :
  (forall G, signature (f G) = signature G) ->
  map signature (update_function F f m) = map signature m.
Proof.
  intros Hf. unfold update_function. rewrite map_map. apply map_ext. intros G.
  destruct (Nat.eqb (FId G) F); now rewrite ?Hf.
Qed.

Lemma update_function_erase F f m :
  (forall G, FId (f G) = FId G) ->
  List.filter (fun G => negb (Nat.eqb (FId G) F)) (update_function F f m) =
  List.filter (fun G => negb (Nat.eqb (FId G) F)) m.
Proof.
  intros Hf. unfold update_function. induction m as [|G m IH]; [reflexivity|].
  simpl. destruct (Nat.eqb (FId G) F) eqn:E.
  - rewrite Hf, E. simpl. exact IH.
  - rewrite E. simpl. now rewrite IH.
Qed.

Lemma update_function_In F f m G :
  In G m -> FId G = F -> In (f G) (update_function F f m).
Proof.
  intros HG HF. unfold update_function.
  apply in_map_iff. exists G. split; [|exact HG].
  rewrite HF, Nat.eqb_refl. reflexivity.
Qed.

Lemma emit_nil ip m : emit ip [] m = m.
Proof.
  destruct ip as [[F BB]|]; [|reflexivity]. simpl.
  apply update_function_id. apply append_insts_nil.
Qed.

Lemma emit_app ip new1 new2 m :
  emit ip new2 (emit ip new1 m) = emit ip (new1 ++ new2) m.
Proof.
  destruct ip as [[F BB]|]; [|reflexivity]. simpl.
  rewrite update_function_compose by reflexivity.
  apply update_function_ext. intros G. apply append_insts_app.
Qed.

Lemma lowered_refl st : lowered st st.
Proof.
  unfold lowered. repeat split; auto.
  - exists []. now rewrite emit_nil.
  - exists []. now rewrite app_nil_r.
Qed.

Lemma lowered_trans st1 st2 st3 : lowered st1 st2 -> lowered st2 st3 -> lowered st1 st3.
Proof.
  intros (Hi & Hu & Hv & Hn & [new1 Hm] & Hnv & [more1 He])
         (Hi' & Hu' & Hv' & Hn' & [new2 Hm'] & Hnv' & [more2 He']).
  unfold lowered. repeat split; try congruence; try lia.
  - exists (new1 ++ new2). rewrite Hm', Hi, Hm. apply emit_app.
  - intros x. destruct (Hnv x) as [H|[H1 H2]], (Hnv' x) as [H'|[H1' H2']];
      try (left; congruence); try (right; split; congruence).
  - exists (more1 ++ more2). rewrite He', He. now rewrite app_assoc.
Qed.

Lemma lowered_Insert I Name st : lowered st (snd (Insert I Name st)).
Proof.
  unfold lowered, Insert. simpl. repeat split; auto.
  - exists [(NextId st, I)]. destruct (InsertPoint st) as [[F BB]|]; reflexivity.
  - exists []. now rewrite app_nil_r.
Qed.

Lemma lowered_log_error st line : lowered st (log_error st line).
Proof.
  unfold lowered, log_error. simpl. repeat split; auto.
  - exists []. now rewrite emit_nil.
  - now exists [line].
Qed.

Lemma lowered_NamedValues_index Name st :
  lowered st (snd (NamedValues_index Name st)).
Proof.
  unfold NamedValues_index. destruct (NamedValues st !! Name) eqn:E; simpl.
  - apply lowered_refl.
  - unfold lowered. simpl. repeat split; auto.
    + exists []. now rewrite emit_nil.
    + intros x. destruct (decide (Name = x)) as [<-|Hne].
      * right. split; [exact E|]. apply lookup_insert_eq.
      * left. now apply lookup_insert_ne.
    + exists []. now rewrite app_nil_r.
Qed.

Section CodeGenProperties.

Variable FoldBinOp : Opcode -> Value -> Value -> option Value.
Variable FoldCmp : Value -> Value -> option Value.
Variable FoldCast : Value -> option Value.

Lemma FunctionAST_codegen_eq Fn st :
  FunctionAST_codegen FoldBinOp FoldCmp FoldCast Fn st =
  let '(F, st0) := TheFunction_of (Proto Fn) st in
  if negb (Nat.eqb (length (Blocks F)) 0) then
    (None, log_error st0 "Error: Function cannot be redefined")
  else
    match codegen FoldBinOp FoldCmp FoldCast (Body Fn) (body_entry F st0) with
    | (Some RetVal, st2) =>
        (Some (FId F), verifyFunction (snd (CreateRet RetVal st2)) (FId F))
    | (None, st2) => (None, eraseFromParent (FId F) st2)
    end.
Proof.
  unfold FunctionAST_codegen, TheFunction_of, body_entry.
  destruct (match getFunction (Name (Proto Fn)) st with
            | Some F => (F, st)
            | None => PrototypeAST_codegen (Proto Fn) st
            end) as [F st0].
  destruct (negb _); [reflexivity|].
  destruct (BasicBlock_Create "entry" F st0) as [BB st1].
  destruct (codegen _ _ _ (Body Fn) _) as [[RetVal|] st2]; [|reflexivity].
  destruct (CreateRet RetVal st2). reflexivity.
Qed.

#[local] Abbreviation codegen := (codegen FoldBinOp FoldCmp FoldCast).
#[local] Abbreviation codegen_args := (codegen_args FoldBinOp FoldCmp FoldCast).
#[local] Abbreviation FunctionAST_codegen :=
  (FunctionAST_codegen FoldBinOp FoldCmp FoldCast).

(** The loop inside [CallExprAST::codegen] is [codegen_args]. *)
Lemma codegen_call Callee Args st :
  codegen (CallExprAST Callee Args) st =
  match getFunction Callee st with
  | None => LogErrorV "Unkown Function referenced" st
  | Some CalleeF =>
      if negb (Nat.eqb (length (FArgs CalleeF)) (length Args)) then
        LogErrorV "Incorrect number of arguments passed into function call" st
      else
        let '(ArgsV, st) := codegen_args Args [] st in
        match ArgsV with
        | None => (None, st)
        | Some ArgsV =>
            let '(V, st) := CreateCall CalleeF ArgsV "calltmp" st in
            (Some V, st)
        end
  end.
Proof.
  simpl. destruct (getFunction Callee st) as [F|]; [|reflexivity].
  destruct (negb _); [reflexivity|].
  match goal with
  | |- (let '(_, _) := ?loop Args [] st in _) = _ =>
      assert (Hloop : forall l acc s, loop l acc s = codegen_args l acc s)
  end.
  { induction l as [|a l IH]; intros acc s; simpl; [reflexivity|].
    destruct (codegen a s) as [[V|] s']; [apply IH | reflexivity]. }
  now rewrite Hloop.
Qed.

Lemma lowered_create_binop Opc L R Name st :
  lowered st (snd (CreateBinOp FoldBinOp Opc L R Name st)).
Proof.
  unfold CreateBinOp. destruct (FoldBinOp Opc L R);
    [apply lowered_refl | apply lowered_Insert].
Qed.

Lemma lowered_emit Op L R st : lowered st (snd (BinaryExprAST_emit FoldBinOp FoldCmp FoldCast Op L R st)).
Proof.
  unfold BinaryExprAST_emit.
  destruct (Op =? chr "+").
  { pose proof (lowered_create_binop FAdd L R "addtmp" st) as H.
    destruct (CreateBinOp _ _ _ _ _ _); exact H. }
  destruct (Op =? chr "-").
  { pose proof (lowered_create_binop FSub L R "subtmp" st) as H.
    destruct (CreateBinOp _ _ _ _ _ _); exact H. }
  destruct (Op =? chr "*").
  { pose proof (lowered_create_binop FMul L R "multmp" st) as H.
    destruct (CreateBinOp _ _ _ _ _ _); exact H. }
  destruct (Op =? chr "<"); [|apply lowered_log_error].
  assert (H1 : lowered st (snd (CreateFCmpULT FoldCmp L R "cmptmp" st))).
  { unfold CreateFCmpULT. destruct (FoldCmp L R);
      [apply lowered_refl | apply lowered_Insert]. }
  destruct (CreateFCmpULT FoldCmp L R "cmptmp" st) as [L' st1]. simpl in H1.
  assert (H2 : lowered st1 (snd (CreateUIToFP FoldCast L' "booltmp" st1))).
  { unfold CreateUIToFP. destruct (FoldCast L');
      [apply lowered_refl | apply lowered_Insert]. }
  destruct (CreateUIToFP FoldCast L' "booltmp" st1) as [V st2]. simpl in *.
  eapply lowered_trans; eauto.
Qed.

Lemma lowered_variable Name st :
  lowered st (snd (VariableExprAST_codegen Name st)).
Proof.
  unfold VariableExprAST_codegen.
  pose proof (lowered_NamedValues_index Name st) as H.
  destruct (NamedValues_index Name st) as [[V|] st1]; simpl in *; [exact H|].
  eapply lowered_trans; [exact H | apply lowered_log_error].
Qed.

(** Lowering an expression stays within [lowered]. *)
Lemma codegen_lowered e : forall st, lowered st (snd (codegen e st)).
Proof.
  induction e as [Val|Name|Op LHS RHS IHL IHR|Callee Args IH] using ExprAST_ind';
    intros st.
  - apply lowered_refl.
  - apply lowered_variable.
  - simpl. pose proof (IHL st) as H1.
    destruct (codegen LHS st) as [L st1]. simpl in H1.
    pose proof (IHR st1) as H2.
    destruct (codegen RHS st1) as [R st2]. simpl in H2.
    pose proof (lowered_trans _ _ _ H1 H2) as H12.
    destruct L as [L|]; [|exact H12]. destruct R as [R|]; [|exact H12].
    eapply lowered_trans; [exact H12 | apply lowered_emit].
  - rewrite codegen_call.
    destruct (getFunction Callee st) as [F|]; [|apply lowered_log_error].
    destruct (negb _); [apply lowered_log_error|].
    assert (Hargs : forall acc s, lowered s (snd (codegen_args Args acc s))).
    { clear -IH. induction IH as [|a l Ha _ IHl]; intros acc s; simpl;
        [apply lowered_refl|].
      pose proof (Ha s) as H1. destruct (codegen a s) as [[V|] s1]; simpl in *;
        [|exact H1].
      eapply lowered_trans; [exact H1 | apply IHl]. }
    pose proof (Hargs [] st) as H1.
    destruct (codegen_args Args [] st) as [[ArgsV|] st1]; simpl in *; [|exact H1].
    eapply lowered_trans; [exact H1 | apply (lowered_Insert _ "calltmp")].
Qed.

(** *** Variables *)

(** What lowering a reference to a name without an entry does. *)
Lemma VariableExprAST_codegen_no_entry Name st :
  NamedValues st !! Name = None ->
  codegen (VariableExprAST Name) st =
    (None,
     log_error (set_NamedValues st (<[Name := None]> (NamedValues st)))
               "Error: Unknown Variable name").
Proof.
  intros Hnone. simpl. unfold VariableExprAST_codegen, NamedValues_index.
  rewrite Hnone. reflexivity.
Qed.

(** C9.  Lowering a reference to a name that has no entry in
    [NamedValues] writes the unknown-variable error and returns null, and
    it leaves a null entry for the name behind: the key set of the
    environment grows by that name.  Nothing else changes. *)
Theorem VariableExprAST_codegen_unbound Name st :
  NamedValues st !! Name = None ->
  exists st',
    codegen (VariableExprAST Name) st = (None, st') /\
    Errs st' = Errs st ++ ["Error: Unknown Variable name"%string] /\
    NamedValues st' = <[Name := None]> (NamedValues st) /\
    (Name ∉ (dom (NamedValues st) : gset string)) /\
    (dom (NamedValues st') : gset string) = ({[Name]} ∪ dom (NamedValues st)) /\
    size (NamedValues st') = S (size (NamedValues st)) /\
    TheModule st' = TheModule st /\ InsertPoint st' = InsertPoint st /\
    NextId st' = NextId st /\ Verified st' = Verified st.
Proof.
  intros Hnone. eexists. split.
  - now apply VariableExprAST_codegen_no_entry.
  - simpl. repeat split.
    + now apply not_elem_of_dom.
    + apply dom_insert_L.
    + now apply map_size_insert_None.
Qed.

(** A name bound to a value is read and nothing changes. *)
Lemma VariableExprAST_codegen_bound Name V st :
  NamedValues st !! Name = Some (Some V) ->
  codegen (VariableExprAST Name) st = (Some V, st).
Proof.
  intros H. simpl. unfold VariableExprAST_codegen, NamedValues_index. now rewrite H.
Qed.

(** *** Calls *)

Lemma codegen_args_abort Arg rest ArgsV st st1 :
  codegen Arg st = (None, st1) ->
  codegen_args (Arg :: rest) ArgsV st = (None, st1).
Proof.
  intros H. simpl. now rewrite H.
Qed.

Lemma codegen_args_next Arg rest ArgsV st V st1 :
  codegen Arg st = (Some V, st1) ->
  codegen_args (Arg :: rest) ArgsV st = codegen_args rest (ArgsV ++ [V]) st1.
Proof.
  intros H. simpl. now rewrite H.
Qed.

Lemma codegen_args_length Args : forall ArgsV st ArgsV' st',
  codegen_args Args ArgsV st = (Some ArgsV', st') ->
  length ArgsV' = (length ArgsV + length Args)%nat.
Proof.
  induction Args as [|a Args IH]; intros ArgsV st ArgsV' st'; simpl.
  - intros [= <- <-]. lia.
  - destruct (codegen a st) as [[V|] st1]; [|discriminate].
    intros H. apply IH in H. rewrite H, length_app. simpl. lia.
Qed.

(** [Insert] puts the instruction at the end of the block the builder
    points at. *)
Lemma Insert_at_end I Name st F BB G B :
  InsertPoint st = Some (F, BB) ->
  In G (TheModule st) -> FId G = F -> Blocks G !! BB = Some B ->
  exists G',
    In G' (TheModule (snd (Insert I Name st))) /\ signature G' = signature G /\
    Blocks G' !! BB = Some (mkBasicBlock (Insts B ++ [(NextId st, I)])).
Proof.
  intros Hip HG HF HB. eexists. split; [|split].
  - unfold Insert. simpl. rewrite Hip. exact (update_function_In _ _ _ G HG HF).
  - reflexivity.
  - simpl. rewrite list_lookup_alter_eq, HB. reflexivity.
Qed.

(** C4.  The four ways a call is lowered.  No function under the
    callee's name: null, and the line of the unknown-function error is
    written, nothing else changes.  A function whose number of parameters
    is not the number of arguments: null, and the line of the arity error.
    Otherwise the arguments are lowered in order by [codegen_args] (which
    stops at the first that fails, [codegen_args_abort], and goes on to the
    next otherwise, [codegen_args_next]): if one fails the call is null in
    the state that argument left, and nothing is emitted for the call;
    else one call instruction of the callee with the lowered arguments
    gets the next identity, is appended to the block the builder points
    at, and is the result. *)
Theorem CallExprAST_codegen_cases Callee Args st :
  (getFunction Callee st = None ->
   codegen (CallExprAST Callee Args) st =
     (None,
      mkCodeGen (TheModule st) (LastUnique st) (NextId st) (InsertPoint st)
                (NamedValues st)
                (Errs st ++ ["Error: Unkown Function referenced"%string])
                (Verified st) (Undefined st))) /\
  (forall F, getFunction Callee st = Some F ->
     length (FArgs F) <> length Args ->
     codegen (CallExprAST Callee Args) st =
       (None,
        mkCodeGen (TheModule st) (LastUnique st) (NextId st) (InsertPoint st)
                  (NamedValues st)
                  (Errs st ++
                     ["Error: Incorrect number of arguments passed into function call"%string])
                  (Verified st) (Undefined st))) /\
  (forall F, getFunction Callee st = Some F ->
     length (FArgs F) = length Args ->
     (forall st1, codegen_args Args [] st = (None, st1) ->
        codegen (CallExprAST Callee Args) st = (None, st1)) /\
     (forall ArgsV st1, codegen_args Args [] st = (Some ArgsV, st1) ->
        length ArgsV = length Args /\
        codegen (CallExprAST Callee Args) st =
          (Some (InstructionV (NextId st1)),
           mkCodeGen
             (match InsertPoint st1 with
              | None => TheModule st1
              | Some (TheFunction, BB) =>
                  map (fun G =>
                         if Nat.eqb (FId G) TheFunction then
                           mkIRFunction (FId G) (FName G) (FArgs G)
                             (alter (fun B =>
                                       mkBasicBlock
                                         (Insts B ++
                                            [(NextId st1, CallInst (FId F) ArgsV)]))
                                    BB (Blocks G))
                         else G)
                      (TheModule st1)
              end)
             (LastUnique st1) (S (NextId st1)) (InsertPoint st1) (NamedValues st1)
             (Errs st1) (Verified st1) (Undefined st1)))).
Proof.
  split; [|split].
  - intros H. rewrite codegen_call, H. reflexivity.
  - intros F H Hlen. rewrite codegen_call, H.
    apply Nat.eqb_neq in Hlen. rewrite Hlen. reflexivity.
  - intros F H Hlen. split.
    + intros st1 Hargs. rewrite codegen_call, H, Hlen, Nat.eqb_refl. simpl.
      now rewrite Hargs.
    + intros ArgsV st1 Hargs. split.
      * apply codegen_args_length in Hargs. simpl in Hargs. exact Hargs.
      * rewrite codegen_call, H, Hlen, Nat.eqb_refl. simpl.
        rewrite Hargs. unfold CreateCall, Insert. simpl.
        destruct (InsertPoint st1) as [[TheFunction BB]|]; reflexivity.
Qed.

(** *** Function definitions *)

Lemma getFunction_In Name st F :
  getFunction Name st = Some F -> In F (TheModule st) /\ FName F = Name.
Proof.
  unfold getFunction. destruct (String.eqb Name ""); [discriminate|].
  intros H. apply find_some in H as [H1 H2]. apply String.eqb_eq in H2. now split.
Qed.

Lemma body_entry_spec F st :
  InsertPoint (body_entry F st) = Some (FId F, length (Blocks F)) /\
  NamedValues (body_entry F st) = record_args (FId F) (FArgs F) 0 ∅ /\
  TheModule (body_entry F st) =
    update_function (FId F)
      (fun G => mkIRFunction (FId G) (FName G) (FArgs G)
                             (Blocks G ++ [mkBasicBlock []]))
      (TheModule st) /\
  Errs (body_entry F st) = Errs st /\ Verified (body_entry F st) = Verified st /\
  NextId (body_entry F st) = NextId st.
Proof.
  unfold body_entry, BasicBlock_Create. simpl. repeat split.
Qed.

Lemma eraseFromParent_gone F st G :
  In G (TheModule (eraseFromParent F st)) -> FId G <> F.
Proof.
  unfold eraseFromParent. simpl. intros H. apply filter_In in H as [_ H].
  apply negb_true_iff, Nat.eqb_neq in H. exact H.
Qed.

Lemma filter_fresh_id (m : list IRFunction) n :
  Forall (fun G => (FId G < n)%nat) m ->
  List.filter (fun G => negb (Nat.eqb (FId G) n)) m = m.
Proof.
  induction 1 as [|G m HG _ IH]; simpl; [reflexivity|].
  replace (Nat.eqb (FId G) n) with false by (symmetry; apply Nat.eqb_neq; lia).
  simpl. now rewrite IH.
Qed.

(** The module of [TheFunction_of]: the one it was given, with the new
    declaration at its end when the name was not there. *)
Lemma TheFunction_of_spec P st F st0 :
  TheFunction_of P st = (F, st0) ->
  In F (TheModule st0) /\ Errs st0 = Errs st /\ Verified st0 = Verified st /\
  ((getFunction (Name P) st = Some F /\ st0 = st) \/
   (getFunction (Name P) st = None /\ FId F = NextId st /\ Blocks F = [] /\
    TheModule st0 = TheModule st ++ [F])).
Proof.
  unfold TheFunction_of. destruct (getFunction (Name P) st) as [F'|] eqn:E.
  - intros [= <- <-]. apply getFunction_In in E as HF. destruct HF as [HF _].
    repeat split; auto.
  - unfold PrototypeAST_codegen, Function_Create.
    destruct (setName _ _ _ _) as [n last]. intros [= <- <-]. simpl.
    split; [apply in_or_app; right; now left|].
    split; [reflexivity|]. split; [reflexivity|].
    right. repeat split.
Qed.

(** The other functions of the module, after a failed body: they are
    those of the module [FunctionAST::codegen] was called with. *)
Lemma erase_after_body F st0 st2 :
  lowered (body_entry F st0) st2 ->
  TheModule (eraseFromParent (FId F) st2) =
  List.filter (fun G => negb (Nat.eqb (FId G) (FId F))) (TheModule st0).
Proof.
  intros (_ & _ & _ & _ & [new Hm] & _).
  destruct (body_entry_spec F st0) as (Hip & _ & Hmod & _).
  unfold eraseFromParent. simpl. rewrite Hm, Hip, Hmod. simpl.
  rewrite !update_function_erase by reflexivity. reflexivity.
Qed.

(** The function with its body, after a successful one: the entry block
    holds what the body emitted, then the return. *)
Lemma ret_after_body F st0 st2 RetVal :
  Blocks F = [] -> In F (TheModule st0) ->
  lowered (body_entry F st0) st2 ->
  exists body,
    In (mkIRFunction (FId F) (FName F) (FArgs F) [mkBasicBlock body]) (TheModule st2) /\
    In (mkIRFunction (FId F) (FName F) (FArgs F)
          [mkBasicBlock (body ++ [(NextId st2, ReturnInst RetVal)])])
       (TheModule (snd (CreateRet RetVal st2))).
Proof.
  intros Hempty HF (Hip2 & _ & _ & _ & [new Hm] & _).
  destruct (body_entry_spec F st0) as (Hip & _ & Hmod & _).
  exists new. split.
  { rewrite Hm, Hip, Hmod, Hempty. simpl.
    rewrite update_function_compose by reflexivity.
    pose proof (update_function_In (FId F)
      (fun G => append_insts 0 new
                  (mkIRFunction (FId G) (FName G) (FArgs G)
                                (Blocks G ++ [mkBasicBlock []])))
      (TheModule st0) F HF eq_refl) as H.
    unfold append_insts in H. simpl in H. rewrite Hempty in H. exact H. }
  unfold CreateRet, Insert. simpl.
  rewrite Hip2, Hip, Hm, Hip, Hmod, Hempty. simpl.
  rewrite !update_function_compose by reflexivity.
  pose proof (update_function_In (FId F)
    (fun G => append_inst 0 (NextId st2, ReturnInst RetVal)
                (append_insts 0 new
                   (mkIRFunction (FId G) (FName G) (FArgs G)
                                 (Blocks G ++ [mkBasicBlock []]))))
    (TheModule st0) F HF eq_refl) as H.
  unfold append_inst, append_insts in H. simpl in H. rewrite Hempty in H.
  exact H.
Qed.

(** *** A definition after an import *)

Lemma name_taken_false taken n : ~ In n taken -> name_taken taken n = false.
Proof.
  intros H. unfold name_taken. destruct (existsb (String.eqb n) taken) eqn:E; [|reflexivity].
  apply existsb_exists in E as (x & Hx & Heq). apply String.eqb_eq in Heq. now subst x.
Qed.

Lemma setName_free taken n dot last :
  ~ In n taken -> setName taken n dot last = (n, last).
Proof.
  intros H. unfold setName. destruct (String.eqb n ""); [reflexivity|].
  now rewrite name_taken_false.
Qed.




Lemma record_args_notin F names : forall i nv x,
  ~ In x names -> record_args F names i nv !! x = nv !! x.
Proof.
  induction names as [|n names IH]; intros i nv x Hx; simpl; [reflexivity|].
  rewrite IH by (intros H; apply Hx; now right).
  apply lookup_insert_ne. intros ->. apply Hx. now left.
Qed.

Lemma lowered_unbound x st st' : lowered st st' -> unbound x st -> unbound x st'.
Proof.
  intros (_ & _ & _ & _ & _ & Hnv & _) Hx. unfold unbound in *.
  destruct (Hnv x) as [H|[_ H]]; [rewrite H; exact Hx | now right].
Qed.

(** An expression that refers to a name without a value lowers to null. *)
Lemma codegen_mentions_unbound x e : forall st,
  mentions x e = true -> unbound x st -> fst (codegen e st) = None.
Proof.
  induction e as [Val|Name|Op LHS RHS IHL IHR|Callee Args IH] using ExprAST_ind';
    intros st Hm Hx; simpl in Hm.
  - discriminate.
  - apply String.eqb_eq in Hm. subst Name. simpl.
    unfold VariableExprAST_codegen, NamedValues_index.
    destruct Hx as [-> | ->]; reflexivity.
  - simpl. pose proof (codegen_lowered LHS st) as Hlow.
    specialize (IHL st). destruct (codegen LHS st) as [L st1]. simpl in *.
    specialize (IHR st1). destruct (codegen RHS st1) as [R st2]. simpl in *.
    apply orb_true_iff in Hm as [Hm|Hm].
    + rewrite (IHL Hm Hx). reflexivity.
    + rewrite (IHR Hm (lowered_unbound _ _ _ Hlow Hx)). now destruct L.
  - rewrite codegen_call.
    destruct (getFunction Callee st) as [F|]; [|reflexivity].
    destruct (negb _); [reflexivity|].
    assert (Hargs : forall acc s, unbound x s -> fst (codegen_args Args acc s) = None).
    { clear -IH Hm. induction IH as [|a l Ha _ IHl]; intros acc s Hs; simpl in *;
        [discriminate|].
      pose proof (codegen_lowered a s) as Hlow. specialize (Ha s).
      destruct (codegen a s) as [[V|] s1]; simpl in *; [|reflexivity].
      apply orb_true_iff in Hm as [Hm|Hm]; [now specialize (Ha Hm Hs)|].
      apply IHl; [exact Hm|]. exact (lowered_unbound _ _ _ Hlow Hs). }
    specialize (Hargs [] st Hx).
    destruct (codegen_args Args [] st) as [[ArgsV|] st1]; simpl in *;
      [discriminate | reflexivity].
Qed.


End CodeGenProperties.

(** ** The lexer, token by token *)

Section LexerTokens.

Variable strtod : string -> double.

Lemma set_lex_same st : set_lex st (Stdin st) (LastChar st) = st.
Proof. now destruct st. Qed.

Lemma skip_whitespace_to st a ws d rest :
  LastChar st = chr a ->
  String a (Stdin st) = (ws +:+ String d rest)%string ->
  all_chars isspace ws = true ->
  isspace (chr d) = false ->
  skip_whitespace (Stdin st) (LastChar st) = (chr d, rest).
Proof.
  intros HL Hin Hws Hd. rewrite HL.
  destruct ws as [|w ws]; simpl in Hin; injection Hin as -> ->.
  - now apply skip_whitespace_stop.
  - simpl in Hws. apply andb_true_iff in Hws as [Hw Hws].
    now apply skip_whitespace_prefix.
Qed.

Lemma skip_whitespace_blank ws : forall c,
  isspace c = true -> all_chars isspace ws = true ->
  skip_whitespace ws c = (EOF, EmptyString).
Proof.
  induction ws as [|w ws IH]; intros c Hc Hws; simpl in *; rewrite Hc;
    [reflexivity|].
  apply andb_true_iff in Hws as [Hw Hws]. now apply IH.
Qed.

Lemma read_identifier_run run : forall rest acc,
  all_chars isalnum run = true ->
  isalnum (head_char rest) = false ->
  read_identifier (run +:+ rest) acc =
    ((acc +:+ run)%string, head_char rest, tail_chars rest).
Proof.
  induction run as [|d run IH]; intros rest acc Hrun Hrest; simpl in *.
  - replace (acc +:+ "")%string with acc
      by (clear; induction acc; simpl; congruence).
    destruct rest as [|b rest]; [reflexivity|].
    unfold head_char in Hrest; simpl in *. now rewrite Hrest.
  - apply andb_true_iff in Hrun as [Hd Hrun]. rewrite Hd.
    rewrite IH by assumption. rewrite push_back_chr, string_app_assoc.
    reflexivity.
Qed.

Lemma isalpha_not_space c : isalpha c = true -> isspace c = false.
Proof. unfold isalpha, isspace. intros H. lia. Qed.

Lemma lex_word st a ws id rest :
  LastChar st = chr a ->
  String a (Stdin st) = (ws +:+ id +:+ rest)%string ->
  all_chars isspace ws = true ->
  is_identifier id = true ->
  isalnum (head_char rest) = false ->
  getTok strtod st =
    Some (word_token id,
          set_IdentifierStr (set_lex st (tail_chars rest) (head_char rest)) id).
Proof.
  intros HL Hin Hws Hid Hrest.
  destruct id as [|d id]; [discriminate|]. simpl in Hid.
  apply andb_true_iff in Hid as [Hd Hid].
  unfold getTok. rewrite getTok_rec_eq. cbv zeta.
  rewrite (skip_whitespace_to st a ws d (id +:+ rest)) by
    (auto using isalpha_not_space).
  rewrite Hd. rewrite read_identifier_run by assumption.
  rewrite push_back_chr. simpl String.append. unfold word_token.
  destruct (String.eqb (String d id) "fn"); [reflexivity|].
  destruct (String.eqb (String d id) "import"); reflexivity.
Qed.

(** Words.  Standing before a letter followed by letters and digits up to
    a character that is neither, [getTok] takes the whole word: it is the
    keyword token for [fn] and [import], and [tok_identifier] with the
    word in [IdentifierStr] otherwise. *)
Theorem getTok_word st a ws id rest :
  LastChar st = chr a ->
  String a (Stdin st) = (ws +:+ id +:+ rest)%string ->
  all_chars isspace ws = true ->
  is_identifier id = true ->
  isalnum (head_char rest) = false ->
  exists st',
    getTok strtod st = Some (word_token id, st') /\
    IdentifierStr st' = id /\
    LastChar st' = head_char rest /\
    Stdin st' = tail_chars rest /\
    NumVal st' = NumVal st /\ Stderr st' = Stderr st.
Proof.
  intros HL Hin Hws Hid Hrest.
  eexists. split; [exact (lex_word st a ws id rest HL Hin Hws Hid Hrest)|].
  simpl. repeat split; reflexivity.
Qed.

Lemma lex_char st a ws c rest :
  LastChar st = chr a ->
  String a (Stdin st) = (ws +:+ String c rest)%string ->
  all_chars isspace ws = true ->
  is_punctuation (chr c) = true ->
  getTok strtod st =
    Some (chr c, set_lex st (tail_chars rest) (head_char rest)).
Proof.
  intros HL Hin Hws Hc.
  unfold is_punctuation in Hc. apply negb_true_iff in Hc.
  destruct (isspace (chr c)) eqn:Hsp; [discriminate|]. simpl in Hc.
  destruct (isalpha (chr c)) eqn:Hal; [discriminate|]. simpl in Hc.
  destruct (is_num_char (chr c)) eqn:Hnum; [discriminate|]. simpl in Hc.
  unfold getTok. rewrite getTok_rec_eq. cbv zeta.
  rewrite (skip_whitespace_to st a ws c rest) by assumption.
  rewrite Hal, Hnum, Hc. unfold getTok_rest. rewrite chr_not_EOF.
  unfold head_char, tail_chars. destruct (getchar rest). reflexivity.
Qed.

(** Single characters.  Standing before a character that is no
    whitespace, letter, digit, dot or slash, [getTok] returns that
    character as the token and reads one character ahead.  So does a
    slash that neither a slash nor a star follows. *)
Theorem getTok_single_character st a ws c rest :
  LastChar st = chr a ->
  String a (Stdin st) = (ws +:+ String c rest)%string ->
  all_chars isspace ws = true ->
  is_punctuation (chr c) = true \/
  (c = "/"%char /\ head_char rest <> chr "/" /\ head_char rest <> chr "*") ->
  getTok strtod st =
    Some (chr c, set_lex st (tail_chars rest) (head_char rest)).
Proof.
  intros HL Hin Hws Hc.
  assert (Hsp : isspace (chr c) = false).
  { destruct Hc as [Hc|(-> & _)]; [|reflexivity].
    unfold is_punctuation in Hc. apply negb_true_iff in Hc.
    destruct (isspace (chr c)); [discriminate|reflexivity]. }
  unfold getTok. rewrite getTok_rec_eq. cbv zeta.
  rewrite (skip_whitespace_to st a ws c rest) by assumption.
  destruct Hc as [Hc|(-> & H1 & H2)].
  - unfold is_punctuation in Hc. apply negb_true_iff in Hc.
    rewrite Hsp in Hc. simpl in Hc.
    destruct (isalpha (chr c)); [discriminate|]. simpl in Hc.
    destruct (is_num_char (chr c)); [discriminate|]. simpl in Hc.
    rewrite Hc. unfold getTok_rest. rewrite chr_not_EOF.
    unfold head_char, tail_chars. destruct (getchar rest). reflexivity.
  - change (isalpha (chr "/")) with false. change (is_num_char (chr "/")) with false.
    change (chr "/" =? chr "/") with true. cbv iota.
    unfold head_char, tail_chars in *. destruct (getchar rest) as [c1 inp1].
    simpl in *. apply Z.eqb_neq in H1, H2. now rewrite H1, H2.
Qed.

Lemma lex_blank st a :
  LastChar st = chr a ->
  all_chars isspace (String a (Stdin st)) = true ->
  getTok strtod st = Some (tok_eof, set_lex st EmptyString EOF).
Proof.
  intros HL Hws. simpl in Hws. apply andb_true_iff in Hws as [Ha Hws].
  unfold getTok. rewrite getTok_rec_eq. cbv zeta.
  rewrite HL, skip_whitespace_blank by assumption.
  reflexivity.
Qed.

Lemma lex_number st a ws run rest :
  LastChar st = chr a ->
  String a (Stdin st) = (ws +:+ run +:+ rest)%string ->
  all_chars isspace ws = true ->
  run <> EmptyString ->
  all_chars is_num_char run = true ->
  is_num_char (head_char rest) = false ->
  getTok strtod st =
    Some (tok_number,
          set_NumVal (set_lex st (tail_chars rest) (head_char rest)) (strtod run)).
Proof.
  intros HL Hin Hws Hne Hrun Hrest.
  destruct run as [|d run]; [congruence|]. simpl in Hrun.
  apply andb_true_iff in Hrun as [Hd Hrun].
  unfold getTok. rewrite getTok_rec_eq. cbv zeta.
  rewrite (skip_whitespace_before_number st a ws d run rest) by assumption.
  rewrite (is_num_char_not_alpha _ Hd), Hd.
  rewrite read_number_run by assumption.
  rewrite push_back_chr. reflexivity.
Qed.

(** Blank input.  When all that is left is whitespace, [getTok] returns
    [tok_eof], writes nothing, and has read the input to its end. *)
Theorem getTok_blank st a :
  LastChar st = chr a ->
  all_chars isspace (String a (Stdin st)) = true ->
  getTok strtod st = Some (tok_eof, set_lex st EmptyString EOF).
Proof.
  apply lex_blank.
Qed.

Lemma getTok_rec_eof_state : forall fuel st st',
  getTok_rec strtod fuel st = Some (tok_eof, st') -> LastChar st' = EOF.
Proof.
  induction fuel as [fuel IH] using lt_wf_ind. intros st st'.
  assert (Hagain : forall st1,
            match fuel with O => None | S f => getTok_rec strtod f st1 end
              = Some (tok_eof, st') -> LastChar st' = EOF).
  { intros st1 H. destruct fuel as [|f]; [discriminate|].
    apply IH in H; [exact H | lia]. }
  rewrite getTok_rec_eq. cbv zeta.
  destruct (skip_whitespace (Stdin st) (LastChar st)) as [c inp].
  destruct (isalpha c).
  { destruct (read_identifier inp (push_back "" c)) as [[id c'] inp'].
    destruct (String.eqb id "fn"); [discriminate|].
    destruct (String.eqb id "import"); discriminate. }
  destruct (is_num_char c).
  { destruct (read_number inp (push_back "" c)) as [[num c'] inp']. discriminate. }
  unfold getTok_rest.
  destruct (c =? chr "/") eqn:Hslash.
  - destruct (getchar inp) as [c1 inp1].
    destruct (c1 =? chr "/").
    + destruct (skip_line inp1) as [c2 inp2].
      destruct (negb (c2 =? EOF)); [apply Hagain|].
      destruct (c2 =? EOF) eqn:E2.
      * intros [= <-]. simpl. lia.
      * destruct (getchar inp2). intros [= H _]. unfold tok_eof, EOF in *. lia.
    + destruct (c1 =? chr "*"); [|discriminate].
      destruct (skip_block inp1) as [inp2|]; [|intros [= <-]; reflexivity].
      destruct (getchar inp2). apply Hagain.
  - destruct (c =? EOF) eqn:E.
    + intros [= <-]. simpl. lia.
    + destruct (getchar inp). intros [= H _]. unfold tok_eof, EOF in *. lia.
Qed.

Lemma getTok_at_EOF st :
  LastChar st = EOF -> getTok strtod st = Some (tok_eof, st).
Proof.
  intros HL. unfold getTok. rewrite getTok_rec_eq. cbv zeta.
  rewrite HL. rewrite skip_whitespace_stop by reflexivity.
  change (isalpha EOF) with false. change (is_num_char EOF) with false.
  change (EOF =? chr "/") with false. cbv iota.
  unfold getTok_rest. change (EOF =? EOF) with true. cbv iota.
  rewrite <- HL. now rewrite set_lex_same.
Qed.

(** End of input is final: in the state in which [getTok] returned
    [tok_eof], it returns [tok_eof] again and changes nothing, however
    often it is called. *)
Theorem getTok_eof_is_final st st' :
  getTok strtod st = Some (tok_eof, st') ->
  getTok strtod st' = Some (tok_eof, st').
Proof.
  intros H. apply getTok_at_EOF. exact (getTok_rec_eof_state _ _ _ H).
Qed.

(** *** Progress *)

Lemma getchar_pending inp c inp' :
  getchar inp = (c, inp') -> pending_of c inp' = String.length inp.
Proof.
  unfold pending_of. destruct inp as [|a inp]; simpl; intros [= <- <-].
  - reflexivity.
  - rewrite chr_not_EOF. simpl. lia.
Qed.

Lemma skip_whitespace_pending inp : forall c c' inp',
  skip_whitespace inp c = (c', inp') ->
  (pending_of c' inp' <= pending_of c inp)%nat /\ isspace c' = false.
Proof.
  unfold pending_of.
  induction inp as [|a inp IH]; intros c c' inp'; simpl.
  - destruct (isspace c) eqn:E; intros [= <- <-]; simpl; [split; [lia|reflexivity]|].
    split; [lia | exact E].
  - destruct (isspace c) eqn:E.
    + intros H. apply IH in H as [H1 H2]. rewrite chr_not_EOF in H1.
      split; [simpl; lia | exact H2].
    + intros [= <- <-]. split; [simpl; lia | exact E].
Qed.

Lemma read_identifier_pending inp : forall id id' c' inp',
  read_identifier inp id = (id', c', inp') ->
  (pending_of c' inp' <= String.length inp)%nat.
Proof.
  unfold pending_of.
  induction inp as [|a inp IH]; intros id id' c' inp'; simpl.
  - intros [= <- <- <-]. simpl. lia.
  - destruct (isalnum (chr a)).
    + intros H. apply IH in H. lia.
    + intros [= <- <- <-]. rewrite chr_not_EOF. lia.
Qed.

Lemma read_number_pending inp : forall num num' c' inp',
  read_number inp num = (num', c', inp') ->
  (pending_of c' inp' <= String.length inp)%nat.
Proof.
  unfold pending_of.
  induction inp as [|a inp IH]; intros num num' c' inp'; simpl.
  - intros [= <- <- <-]. simpl. lia.
  - destruct (is_num_char (chr a)).
    + intros H. apply IH in H. lia.
    + intros [= <- <- <-]. rewrite chr_not_EOF. lia.
Qed.

Lemma skip_line_pending inp : forall c inp',
  skip_line inp = (c, inp') -> (pending_of c inp' <= String.length inp)%nat.
Proof.
  unfold pending_of.
  induction inp as [|a inp IH]; intros c inp'; simpl.
  - intros [= <- <-]. simpl. lia.
  - destruct ((chr a =? 10) || (chr a =? 13)).
    + intros [= <- <-]. rewrite chr_not_EOF. lia.
    + intros H. apply IH in H. lia.
Qed.

(** [getTok] never gives a character back, and every token that is not
    [tok_eof] costs at least one. *)
Lemma getTok_rec_pending : forall fuel st t st',
  getTok_rec strtod fuel st = Some (t, st') ->
  (pending st' <= pending st)%nat /\ (t <> tok_eof -> (pending st' < pending st)%nat).
Proof.
  induction fuel as [fuel IH] using lt_wf_ind. intros st t st'.
  assert (Hagain : forall st1, (pending st1 < pending st)%nat ->
            match fuel with O => None | S f => getTok_rec strtod f st1 end
              = Some (t, st') ->
            (pending st' <= pending st)%nat /\
            (t <> tok_eof -> (pending st' < pending st)%nat)).
  { intros st1 Hlt H. destruct fuel as [|f]; [discriminate|].
    apply IH in H as [H1 H2]; [|lia]. split; lia. }
  rewrite getTok_rec_eq. cbv zeta.
  destruct (skip_whitespace (Stdin st) (LastChar st)) as [c inp] eqn:Hws.
  apply skip_whitespace_pending in Hws as [Hws Hsp].
  change (pending_of (LastChar st) (Stdin st)) with (pending st) in Hws.
  unfold pending_of in Hws.
  destruct (isalpha c) eqn:Halpha.
  { assert (Hc : (c =? EOF) = false) by (unfold isalpha, EOF in *; lia).
    rewrite Hc in Hws.
    destruct (read_identifier inp (push_back "" c)) as [[id c'] inp'] eqn:Hid.
    apply read_identifier_pending in Hid. unfold pending_of in Hid.
    assert (Hp : (pending (set_IdentifierStr (set_lex st inp' c') id) < pending st)%nat)
      by (unfold pending in *; simpl in *; lia).
    destruct (String.eqb id "fn"); [intros [= <- <-]; split; lia|].
    destruct (String.eqb id "import"); intros [= <- <-]; split; lia. }
  destruct (is_num_char c) eqn:Hnum.
  { assert (Hc : (c =? EOF) = false) by (unfold is_num_char, isdigit, chr, EOF in *; simpl in *; lia).
    rewrite Hc in Hws.
    destruct (read_number inp (push_back "" c)) as [[num c'] inp'] eqn:Hn.
    apply read_number_pending in Hn. unfold pending_of in Hn.
    intros [= <- <-]. unfold pending in *; simpl in *. split; lia. }
  unfold getTok_rest.
  destruct (c =? chr "/") eqn:Hslash.
  - assert (Hc : (c =? EOF) = false) by (unfold chr, EOF in *; simpl in *; lia).
    rewrite Hc in Hws.
    destruct (getchar inp) as [c1 inp1] eqn:Hg.
    pose proof (getchar_pending _ _ _ Hg) as Hg1. unfold pending_of in Hg1.
    destruct (c1 =? chr "/") eqn:Hc1.
    + assert (Hc1' : (c1 =? EOF) = false) by (unfold chr, EOF in *; simpl in *; lia).
      rewrite Hc1' in Hg1.
      destruct (skip_line inp1) as [c2 inp2] eqn:Hsl.
      apply skip_line_pending in Hsl. unfold pending_of in Hsl.
      destruct (c2 =? EOF) eqn:E2; simpl.
      * intros [= <- <-]. unfold pending in *; simpl in *. rewrite E2. split; lia.
      * apply Hagain. unfold pending in *; simpl in *. rewrite E2. lia.
    + destruct (c1 =? chr "*") eqn:Hc2.
      * assert (Hc1' : (c1 =? EOF) = false) by (unfold chr, EOF in *; simpl in *; lia).
        rewrite Hc1' in Hg1.
        destruct (skip_block inp1) as [inp2|] eqn:Hsb.
        -- apply skip_block_length with (n := String.length inp1) in Hsb; [|lia].
           destruct (getchar inp2) as [c3 inp3] eqn:Hg3.
           apply getchar_pending in Hg3. unfold pending_of in Hg3.
           apply Hagain. unfold pending in *; simpl in *. lia.
        -- intros [= <- <-]. unfold pending in *; simpl in *. split; lia.
      * intros [= <- <-]. unfold pending in *; simpl in *. split; lia.
  - destruct (c =? EOF) eqn:E.
    + intros [= <- <-]. unfold pending in *; simpl in *. rewrite E. split; [lia|congruence].
    + destruct (getchar inp) as [c1 inp1] eqn:Hg.
      apply getchar_pending in Hg. unfold pending_of in Hg.
      intros [= <- <-]. unfold pending in *; simpl in *. split; lia.
Qed.

(** Progress.  [getTok] only moves forward: the characters left to look
    at never become more, and become fewer with every token that is not
    [tok_eof]. *)
Theorem getTok_consumes st t st' :
  getTok strtod st = Some (t, st') ->
  (pending st' <= pending st)%nat /\
  (t <> tok_eof -> (pending st' < pending st)%nat).
Proof.
  apply getTok_rec_pending.
Qed.

(** *** What a token can be *)

Lemma chr_ascii_of c : 0 <= c < 256 -> chr (ascii_of c) = c.
Proof.
  intros H. unfold chr, ascii_of.
  rewrite N_ascii_embedding by lia. lia.
Qed.

Lemma chr_is_char a : is_char_or_EOF (chr a).
Proof. pose proof (chr_range a). unfold is_char_or_EOF. lia. Qed.

Lemma all_chars_app p s t :
  all_chars p (s +:+ t) = all_chars p s && all_chars p t.
Proof.
  induction s as [|a s IH]; simpl; [reflexivity|].
  now rewrite IH, andb_assoc.
Qed.

Lemma read_identifier_shape inp : forall id id' c' inp',
  read_identifier inp id = (id', c', inp') ->
  is_identifier id = true ->
  is_identifier id' = true /\ is_char_or_EOF c'.
Proof.
  induction inp as [|a inp IH]; intros id id' c' inp'; simpl.
  - intros [= <- <- <-] H. split; [exact H | unfold is_char_or_EOF, EOF; lia].
  - destruct (isalnum (chr a)) eqn:E.
    + intros H Hid. apply IH in H; [exact H|].
      rewrite push_back_chr. destruct id as [|d id]; [discriminate|].
      simpl in *. apply andb_true_iff in Hid as [Hd Hid].
      rewrite Hd, all_chars_app, Hid. simpl. now rewrite E.
    + intros [= <- <- <-] H. split; [exact H | apply chr_is_char].
Qed.

Lemma read_number_char inp : forall num num' c' inp',
  read_number inp num = (num', c', inp') -> is_char_or_EOF c'.
Proof.
  induction inp as [|a inp IH]; intros num num' c' inp'; simpl.
  - intros [= <- <- <-]. unfold is_char_or_EOF, EOF; lia.
  - destruct (is_num_char (chr a)); [apply IH|].
    intros [= <- <- <-]. apply chr_is_char.
Qed.

Lemma skip_whitespace_char inp : forall c c' inp',
  is_char_or_EOF c -> skip_whitespace inp c = (c', inp') -> is_char_or_EOF c'.
Proof.
  induction inp as [|a inp IH]; intros c c' inp' Hc; simpl.
  - destruct (isspace c); intros [= <- <-]; [unfold is_char_or_EOF, EOF; lia | exact Hc].
  - destruct (isspace c); [apply IH, chr_is_char|]. now intros [= <- <-].
Qed.

Lemma skip_line_char inp : forall c inp',
  skip_line inp = (c, inp') -> is_char_or_EOF c.
Proof.
  induction inp as [|a inp IH]; intros c inp'; simpl.
  - intros [= <- <-]. unfold is_char_or_EOF, EOF; lia.
  - destruct ((chr a =? 10) || (chr a =? 13)); [|apply IH].
    intros [= <- <-]. apply chr_is_char.
Qed.

Lemma getchar_char inp c inp' : getchar inp = (c, inp') -> is_char_or_EOF c.
Proof.
  destruct inp; simpl; intros [= <- <-];
    [unfold is_char_or_EOF, EOF; lia | apply chr_is_char].
Qed.

Lemma getTok_rec_kinds : forall fuel st t st',
  is_char_or_EOF (LastChar st) ->
  getTok_rec strtod fuel st = Some (t, st') ->
  token_kind t st' /\ is_char_or_EOF (LastChar st').
Proof.
  induction fuel as [fuel IH] using lt_wf_ind. intros st t st' HL.
  assert (Hagain : forall st1, is_char_or_EOF (LastChar st1) ->
            match fuel with O => None | S f => getTok_rec strtod f st1 end
              = Some (t, st') ->
            token_kind t st' /\ is_char_or_EOF (LastChar st')).
  { intros st1 H1 H. destruct fuel as [|f]; [discriminate|].
    apply IH in H; [exact H | lia | exact H1]. }
  assert (HEOF : is_char_or_EOF EOF) by (unfold is_char_or_EOF, EOF; lia).
  rewrite getTok_rec_eq. cbv zeta.
  destruct (skip_whitespace (Stdin st) (LastChar st)) as [c inp] eqn:Hws.
  pose proof (skip_whitespace_char _ _ _ _ HL Hws) as Hc.
  apply skip_whitespace_pending in Hws as [_ Hsp].
  destruct (isalpha c) eqn:Halpha.
  { destruct (read_identifier inp (push_back "" c)) as [[id c'] inp'] eqn:Hid.
    apply read_identifier_shape in Hid as [Hid Hc'].
    2:{ unfold push_back. simpl. rewrite chr_ascii_of by (unfold isalpha in Halpha; lia).
        now rewrite Halpha. }
    unfold token_kind.
    destruct (String.eqb id "fn") eqn:E1.
    { apply String.eqb_eq in E1. intros [= <- <-]. simpl.
      split; [right; left; auto | exact Hc']. }
    destruct (String.eqb id "import") eqn:E2.
    { apply String.eqb_eq in E2. intros [= <- <-]. simpl.
      split; [right; right; left; auto | exact Hc']. }
    apply String.eqb_neq in E1, E2. intros [= <- <-]. simpl.
    split; [|exact Hc']. right. right. right. left. auto. }
  destruct (is_num_char c) eqn:Hnum.
  { destruct (read_number inp (push_back "" c)) as [[num c'] inp'] eqn:Hn.
    apply read_number_char in Hn. intros [= <- <-]. simpl.
    split; [|exact Hn]. unfold token_kind. auto 6. }
  unfold getTok_rest.
  destruct (c =? chr "/") eqn:Hslash.
  - destruct (getchar inp) as [c1 inp1] eqn:Hg. apply getchar_char in Hg.
    destruct (c1 =? chr "/").
    + destruct (skip_line inp1) as [c2 inp2] eqn:Hsl. apply skip_line_char in Hsl.
      destruct (c2 =? EOF) eqn:E2; simpl.
      * intros [= <- <-]. simpl. split; [left; reflexivity | exact Hsl].
      * apply Hagain. exact Hsl.
    + destruct (c1 =? chr "*").
      * destruct (skip_block inp1) as [inp2|].
        -- destruct (getchar inp2) as [c3 inp3] eqn:Hg3. apply getchar_char in Hg3.
           apply Hagain. exact Hg3.
        -- intros [= <- <-]. simpl. split; [left; reflexivity | exact HEOF].
      * intros [= <- <-]. simpl. split; [|exact Hg].
        unfold token_kind. do 5 right. split; [vm_compute; split; discriminate | now left].
  - destruct (c =? EOF) eqn:E.
    + intros [= <- <-]. simpl. split; [left; reflexivity | exact Hc].
    + destruct (getchar inp) as [c1 inp1] eqn:Hg. apply getchar_char in Hg.
      intros [= <- <-]. simpl. split; [|exact Hg].
      unfold token_kind. do 5 right.
      split; [unfold is_char_or_EOF, EOF in *; lia|].
      right. unfold is_punctuation. now rewrite Hsp, Halpha, Hnum, Hslash.
Qed.

(** Token kinds.  From a state whose lookahead is a character or [EOF]
    (as it is from the start on), [getTok] returns one of the five named
    tokens or a character in [0,255] that is a slash or no whitespace,
    letter, digit or dot.  With a keyword token [IdentifierStr] is the
    keyword; with [tok_identifier] it is a letter followed by letters and
    digits, and no keyword.  The new lookahead is a character or [EOF]. *)
Theorem getTok_token_kinds st t st' :
  is_char_or_EOF (LastChar st) ->
  getTok strtod st = Some (t, st') ->
  token_kind t st' /\ is_char_or_EOF (LastChar st').
Proof.
  apply getTok_rec_kinds.
Qed.

(** *** Block comments that do not end *)

Lemma skip_block_open text : forall tail,
  all_chars not_star text = true ->
  tail = EmptyString \/ tail = "*"%string ->
  skip_block (text +:+ tail) = None.
Proof.
  induction text as [|t text IH]; intros tail Htext Htail; simpl in *.
  - destruct Htail as [-> | ->]; reflexivity.
  - apply andb_true_iff in Htext as [Ht Htext].
    unfold not_star in Ht. apply negb_true_iff in Ht. rewrite Ht.
    now apply IH.
Qed.

Lemma skip_block_double_star text : forall rest,
  all_chars not_star text = true ->
  skip_block (text +:+ String "*" (String "*" (String "/" rest))) = skip_block rest.
Proof.
  induction text as [|t text IH]; intros rest Htext; simpl in *.
  - reflexivity.
  - apply andb_true_iff in Htext as [Ht Htext].
    unfold not_star in Ht. apply negb_true_iff in Ht. rewrite Ht.
    now apply IH.
Qed.

Lemma getTok_in_block_comment st inp :
  LastChar st = chr "/" ->
  Stdin st = String "*" inp ->
  getTok strtod st =
  match skip_block inp with
  | None => Some (tok_eof,
                  fprintf_stderr (set_lex st EmptyString EOF)
                                 "Error: Unterminated multi-line comment")
  | Some inp2 => getTok strtod (set_lex st (tail_chars inp2) (head_char inp2))
  end.
Proof.
  intros HL Hin. unfold getTok at 1. rewrite getTok_rec_eq. cbv zeta.
  rewrite HL, Hin. rewrite skip_whitespace_stop by reflexivity.
  change (isalpha (chr "/")) with false. change (is_num_char (chr "/")) with false.
  change (chr "/" =? chr "/") with true. cbv iota.
  simpl getchar. cbv iota.
  change (chr "*" =? chr "/") with false. change (chr "*" =? chr "*") with true.
  cbv iota.
  destruct (skip_block inp) as [inp2|] eqn:Hsb; [|reflexivity].
  apply skip_block_length with (n := String.length inp) in Hsb; [|lia].
  unfold head_char, tail_chars. destruct (getchar inp2) as [c3 inp3] eqn:Hg.
  apply getchar_length in Hg. simpl fst; simpl snd.
  simpl String.length. apply getTok_rec_getTok. simpl. lia.
Qed.

(** A block comment that is not closed: when the text after the opening
    pair has no star, or one only as its last character, [getTok] writes
    the error, returns [tok_eof] and has read all the input. *)
Theorem getTok_unterminated_comment st text tail :
  LastChar st = chr "/" ->
  Stdin st = ("*" +:+ text +:+ tail)%string ->
  all_chars not_star text = true ->
  tail = EmptyString \/ tail = "*"%string ->
  getTok strtod st =
    Some (tok_eof,
          fprintf_stderr (set_lex st EmptyString EOF)
                         "Error: Unterminated multi-line comment").
Proof.
  intros HL Hin Htext Htail.
  rewrite (getTok_in_block_comment st (text +:+ tail) HL Hin).
  now rewrite skip_block_open.
Qed.

(** A star before the closing pair hides it: [**/] does not close a
    block comment.  After a star the loop reads one more character and
    goes on behind it when it is no slash, so the comment runs on as if
    it had been opened just before what follows the [**/]. *)
Theorem getTok_double_star_comment st text rest :
  LastChar st = chr "/" ->
  Stdin st = ("*" +:+ text +:+ "**/" +:+ rest)%string ->
  all_chars not_star text = true ->
  getTok strtod st = getTok strtod (set_lex st ("*" +:+ rest) (chr "/")).
Proof.
  intros HL Hin Htext.
  rewrite (getTok_in_block_comment st _ HL Hin).
  rewrite (getTok_in_block_comment (set_lex st ("*" +:+ rest) (chr "/")) rest)
    by reflexivity.
  simpl String.append. rewrite skip_block_double_star by assumption.
  reflexivity.
Qed.

End LexerTokens.

(** ** The parser returns, and says why it fails *)

(** *** Orders on parser states *)

Lemma refines_refl {A} (m : M A) : refines m m.
Proof. intros st r H. exact H. Qed.

Lemma refines_bind {A B} (m m' : M A) (k k' : A -> M B) :
  refines m m' -> (forall a, refines (k a) (k' a)) ->
  refines (bind m k) (bind m' k').
Proof.
  intros Hm Hk st r. unfold bind.
  destruct (m st) as [[a st1]|] eqn:E; [|discriminate].
  rewrite (Hm _ _ E). apply Hk.
Qed.

Lemma no_give_back_refl st : no_give_back st st.
Proof. split; [lia | reflexivity]. Qed.

Lemma no_give_back_trans st1 st2 st3 :
  no_give_back st1 st2 -> no_give_back st2 st3 -> no_give_back st1 st3.
Proof.
  intros [H1 E1] [H2 E2]. split; [lia|].
  intros H. rewrite E2, E1; [reflexivity | lia | lia].
Qed.

Lemma no_give_back_lt st st' : (unread st' < unread st)%nat -> no_give_back st st'.
Proof. intros H. split; lia. Qed.

Lemma consumed_lt {A} st (r : option A) st' :
  (unread st' < unread st)%nat -> consumed st r st'.
Proof. intros H. split; [now apply no_give_back_lt | auto]. Qed.

Lemma consumed_null {A} st st' : no_give_back st st' -> consumed st (@None A) st'.
Proof. intros H. split; [exact H | congruence]. Qed.

Lemma no_give_back_stderr st line : no_give_back st (fprintf_stderr st line).
Proof. split; [|reflexivity]. change (unread (fprintf_stderr st line)) with (unread st). lia. Qed.

Lemma silent_refl st : silent st st.
Proof. exists []. split; [constructor | now rewrite app_nil_r]. Qed.

Lemma silent_trans st1 st2 st3 : silent st1 st2 -> silent st2 st3 -> silent st1 st3.
Proof.
  intros (m1 & F1 & E1) (m2 & F2 & E2). exists (m1 ++ m2). split.
  - apply Forall_app. now split.
  - now rewrite E2, E1, app_assoc.
Qed.

Lemma silent_same st st' : Stderr st' = Stderr st -> silent st st'.
Proof. intros H. exists []. split; [constructor | now rewrite app_nil_r]. Qed.

Lemma reports_after {A} errors st st1 (r : option A) st' :
  silent st st1 -> reports errors st1 r st' -> reports errors st r st'.
Proof.
  intros H1. destruct r as [a|]; simpl.
  - now apply silent_trans.
  - intros (st0 & msg & H0 & Hin & E). exists st0, msg.
    split; [now apply (silent_trans _ st1) | now split].
Qed.

Lemma reports_null {A B} errors st st' :
  reports errors st (@None A) st' -> reports errors st (@None B) st'.
Proof. intros H. exact H. Qed.

Lemma reports_error {A} errors st st1 msg :
  silent st st1 -> In msg errors ->
  reports errors st (@None A) (fprintf_stderr st1 ("Error: " +:+ msg)).
Proof. intros H Hin. exists st1, msg. now split. Qed.

Lemma reports_more {A} errors errors' st (r : option A) st' :
  (forall msg, In msg errors -> In msg errors') ->
  reports errors st r st' -> reports errors' st r st'.
Proof.
  intros Hsub. destruct r as [a|]; simpl; [auto|].
  intros (st0 & msg & H0 & Hin & E). exists st0, msg. auto.
Qed.

Lemma GetTokPrecedence_unread st :
  exists p st', GetTokPrecedence st = Some (p, st') /\
    unread st' = unread st /\ CurTok st' = CurTok st /\
    (0 <= p -> CurTok st <> tok_eof).
Proof.
  unfold GetTokPrecedence.
  destruct (negb (isascii (CurTok st))) eqn:E.
  { eexists _, _. split; [reflexivity|]. repeat split. lia. }
  destruct (map_index (BinopPrecedence st) (to_char (CurTok st))) as [v m'].
  destruct (v <=? 0); eexists _, _; (split; [reflexivity|]); repeat split;
    try lia.
  intros _ Heof. rewrite Heof in E. discriminate E.
Qed.

Lemma GetTokPrecedence_silent st p st' :
  GetTokPrecedence st = Some (p, st') -> silent st st'.
Proof.
  unfold GetTokPrecedence.
  destruct (negb (isascii (CurTok st))); [intros [= <- <-]; apply silent_refl|].
  destruct (map_index (BinopPrecedence st) (to_char (CurTok st))) as [v m'].
  destruct (v <=? 0); intros [= <- <-]; now apply silent_same.
Qed.

Section LexerSteps.

Variable strtod : string -> double.

Lemma getNextToken_unread st :
  exists t st', getNextToken strtod st = Some (t, st') /\ CurTok st' = t /\
    no_give_back st st' /\
    (CurTok st <> tok_eof \/ t <> tok_eof -> (unread st' < unread st)%nat).
Proof.
  destruct (getNextToken_total strtod st) as (t & st0 & H & Hg).
  unfold getTok in Hg. apply getTok_rec_pending in Hg as [Hle Hlt].
  exists t, (set_CurTok st0 t). split; [exact H|]. split; [reflexivity|].
  unfold no_give_back, unread. change (pending (set_CurTok st0 t)) with (pending st0).
  change (CurTok (set_CurTok st0 t)) with t.
  destruct (t =? tok_eof) eqn:Et; destruct (CurTok st =? tok_eof) eqn:Ec;
    (split; [split|intros Hne]); lia.
Qed.

Lemma getTok_rec_silent : forall fuel st t st',
  getTok_rec strtod fuel st = Some (t, st') -> silent st st'.
Proof.
  induction fuel as [fuel IH] using lt_wf_ind. intros st t st'.
  assert (Hagain : forall st1, Stderr st1 = Stderr st ->
            match fuel with O => None | S f => getTok_rec strtod f st1 end = Some (t, st') ->
            silent st st').
  { intros st1 H1 H. destruct fuel as [|f]; [discriminate|].
    apply IH in H; [|lia]. apply (silent_trans _ st1); [now apply silent_same | exact H]. }
  rewrite getTok_rec_eq. cbv zeta.
  destruct (skip_whitespace (Stdin st) (LastChar st)) as [c inp].
  destruct (isalpha c).
  { destruct (read_identifier inp (push_back "" c)) as [[id c'] inp'].
    destruct (String.eqb id "fn"); [intros [= <- <-]; now apply silent_same|].
    destruct (String.eqb id "import"); intros [= <- <-]; now apply silent_same. }
  destruct (is_num_char c).
  { destruct (read_number inp (push_back "" c)) as [[num c'] inp'].
    intros [= <- <-]; now apply silent_same. }
  unfold getTok_rest.
  destruct (c =? chr "/").
  - destruct (getchar inp) as [c1 inp1].
    destruct (c1 =? chr "/").
    + destruct (skip_line inp1) as [c2 inp2].
      destruct (negb (c2 =? EOF)); [now apply Hagain|].
      destruct (c2 =? EOF); [intros [= <- <-]; now apply silent_same|].
      destruct (getchar inp2). intros [= <- <-]; now apply silent_same.
    + destruct (c1 =? chr "*"); [|intros [= <- <-]; now apply silent_same].
      destruct (skip_block inp1) as [inp2|].
      * destruct (getchar inp2). now apply Hagain.
      * intros [= <- <-]. exists [lexer_error]. split; [now constructor | reflexivity].
  - destruct (c =? EOF); [intros [= <- <-]; now apply silent_same|].
    destruct (getchar inp). intros [= <- <-]; now apply silent_same.
Qed.

Lemma getNextToken_silent st t st' :
  getNextToken strtod st = Some (t, st') -> silent st st'.
Proof.
  unfold getNextToken, bind, getTok.
  destruct (getTok_rec strtod _ st) as [[t0 st0]|] eqn:E; [|discriminate].
  intros [= <- <-]. apply getTok_rec_silent in E.
  apply (silent_trans _ st0); [exact E | now apply silent_same].
Qed.

End LexerSteps.

(** Proof steps for parser functions: raising the fuel, running a
    function forward, and opening a run that returned. *)

Ltac more_fuel :=
  repeat first
    [ assumption
    | apply refines_refl
    | apply refines_bind; [|intros ?]
    | match goal with
      | |- refines (if ?b then _ else _) _ => destruct b
      | |- refines (match ?x with Some _ => _ | None => _ end) _ => destruct x
      end
    | solve [auto] ].

Ltac run := unfold bind, read, ret; cbv beta.

Ltac less :=
  repeat match goal with
         | H : no_give_back _ _ |- _ => destruct H as [H _]
         end; lia.

Ltac open_binds H :=
  unfold bind, read, ret in H; cbv beta iota zeta in H.

Ltac bind_as H a st E :=
  lazymatch type of H with
  | match ?x with Some _ => _ | None => None end = Some _ =>
      destruct x as [[a st]|] eqn:E; [|discriminate H]
  end.

Ltac branch H :=
  lazymatch type of H with
  | (if ?b then _ else _) _ = Some _ =>
      let E := fresh "Hb" in destruct b eqn:E
  end.

Ltac null_or H V :=
  lazymatch type of H with
  | (match ?x with Some _ => _ | None => _ end) _ = Some _ =>
      destruct x as [V|]
  end.

Ltac returned H :=
  lazymatch type of H with
  | Some _ = Some _ => injection H as <- <-
  | LogError _ _ = Some _ => injection H as <- <-
  end.

Ltac quiet :=
  repeat match goal with
         | H : getNextToken _ _ = Some _ |- _ => apply getNextToken_silent in H
         | H : GetTokPrecedence _ = Some _ |- _ => apply GetTokPrecedence_silent in H
         end.

Ltac chain :=
  first [ assumption | apply silent_refl
        | eapply silent_trans; [eassumption|chain] ].

Section ParserRuns.

Variable strtod : string -> double.

Lemma parser_fuel_S : forall fuel,
  refines (ParsePrimary strtod fuel) (ParsePrimary strtod (S fuel)) /\
  refines (ParseParenExpr strtod fuel) (ParseParenExpr strtod (S fuel)) /\
  refines (ParseIdentifierExpr strtod fuel) (ParseIdentifierExpr strtod (S fuel)) /\
  (forall Args, refines (ParseArguments strtod fuel Args)
                        (ParseArguments strtod (S fuel) Args)) /\
  (forall ExprPrec LHS, refines (ParseBinOpRHS strtod fuel ExprPrec LHS)
                                (ParseBinOpRHS strtod (S fuel) ExprPrec LHS)) /\
  refines (ParseExpression strtod fuel) (ParseExpression strtod (S fuel)).
Proof.
  induction fuel as [|f (IHprim & IHparen & IHid & IHargs & IHrhs & IHexpr)].
  { split; [|split; [|split; [|split; [|split]]]]; intros; intros st r H; discriminate. }
  split; [|split; [|split; [|split; [|split]]]]; intros.
  - rewrite (ParsePrimary_S strtod (S f)), (ParsePrimary_S strtod f). more_fuel.
  - rewrite (ParseParenExpr_S strtod (S f)), (ParseParenExpr_S strtod f). more_fuel.
  - rewrite (ParseIdentifierExpr_S strtod (S f)), (ParseIdentifierExpr_S strtod f). more_fuel.
  - rewrite (ParseArguments_S strtod (S f)), (ParseArguments_S strtod f). more_fuel.
  - rewrite (ParseBinOpRHS_S strtod (S f)), (ParseBinOpRHS_S strtod f). more_fuel.
  - rewrite (ParseExpression_S strtod (S f)), (ParseExpression_S strtod f). more_fuel.
Qed.

Lemma ParsePrimary_fuel f f' st r :
  (f <= f')%nat -> ParsePrimary strtod f st = Some r -> ParsePrimary strtod f' st = Some r.
Proof.
  intros Hle. induction Hle as [|k Hle IH]; [auto|].
  intros H. now apply parser_fuel_S, IH.
Qed.

Lemma ParseParenExpr_fuel f f' st r :
  (f <= f')%nat -> ParseParenExpr strtod f st = Some r -> ParseParenExpr strtod f' st = Some r.
Proof.
  intros Hle. induction Hle as [|k Hle IH]; [auto|].
  intros H. now apply parser_fuel_S, IH.
Qed.

Lemma ParseIdentifierExpr_fuel f f' st r :
  (f <= f')%nat -> ParseIdentifierExpr strtod f st = Some r ->
  ParseIdentifierExpr strtod f' st = Some r.
Proof.
  intros Hle. induction Hle as [|k Hle IH]; [auto|].
  intros H. now apply parser_fuel_S, IH.
Qed.

Lemma ParseArguments_fuel f f' Args st r :
  (f <= f')%nat -> ParseArguments strtod f Args st = Some r ->
  ParseArguments strtod f' Args st = Some r.
Proof.
  intros Hle. induction Hle as [|k Hle IH]; [auto|].
  intros H. now apply parser_fuel_S, IH.
Qed.

Lemma ParseBinOpRHS_fuel f f' p LHS st r :
  (f <= f')%nat -> ParseBinOpRHS strtod f p LHS st = Some r ->
  ParseBinOpRHS strtod f' p LHS st = Some r.
Proof.
  intros Hle. induction Hle as [|k Hle IH]; [auto|].
  intros H. now apply parser_fuel_S, IH.
Qed.

Lemma ParseExpression_fuel f f' st r :
  (f <= f')%nat -> ParseExpression strtod f st = Some r ->
  ParseExpression strtod f' st = Some r.
Proof.
  intros Hle. induction Hle as [|k Hle IH]; [auto|].
  intros H. now apply parser_fuel_S, IH.
Qed.

(** *** Every parser function returns *)

Lemma parser_halts : forall n st, unread st = n ->
  (CurTok st = chr "(" ->
   exists f r st', ParseParenExpr strtod f st = Some (r, st') /\ consumed st r st') /\
  (CurTok st = tok_identifier ->
   exists f r st', ParseIdentifierExpr strtod f st = Some (r, st') /\ consumed st r st') /\
  (exists f r st', ParsePrimary strtod f st = Some (r, st') /\ consumed st r st') /\
  (forall p LHS, 0 <= p ->
   exists f r st', ParseBinOpRHS strtod f p LHS st = Some (r, st') /\
                   no_give_back st st') /\
  (exists f r st', ParseExpression strtod f st = Some (r, st') /\ consumed st r st') /\
  (forall Args,
   exists f r st', ParseArguments strtod f Args st = Some (r, st') /\
                   no_give_back st st').
Proof.
  induction n as [n IH] using lt_wf_ind. intros st Hn. subst n.
  assert (IHexpr : forall st1, (unread st1 < unread st)%nat ->
            exists f r st', ParseExpression strtod f st1 = Some (r, st') /\
                            consumed st1 r st').
  { intros st1 H. apply (IH _ H st1 eq_refl). }
  assert (IHprim : forall st1, (unread st1 < unread st)%nat ->
            exists f r st', ParsePrimary strtod f st1 = Some (r, st') /\
                            consumed st1 r st').
  { intros st1 H. apply (IH _ H st1 eq_refl). }
  assert (IHrhs : forall st1 p LHS, (unread st1 < unread st)%nat -> 0 <= p ->
            exists f r st', ParseBinOpRHS strtod f p LHS st1 = Some (r, st') /\
                            no_give_back st1 st').
  { intros st1 p LHS H. apply (IH _ H st1 eq_refl). }
  assert (IHargs : forall st1 Args, (unread st1 < unread st)%nat ->
            exists f r st', ParseArguments strtod f Args st1 = Some (r, st') /\
                            no_give_back st1 st').
  { intros st1 Args H. apply (IH _ H st1 eq_refl). }
  clear IH.
  (* ParseParenExpr *)
  assert (Hparen : CurTok st = chr "(" ->
    exists f r st', ParseParenExpr strtod f st = Some (r, st') /\ consumed st r st').
  { intros Htok.
    destruct (getNextToken_unread strtod st) as (t1 & st1 & H1 & _ & _ & Hlt1).
    assert (Hs1 : (unread st1 < unread st)%nat).
    { apply Hlt1. left. rewrite Htok. discriminate. }
    destruct (IHexpr st1 Hs1) as (f2 & V & st2 & H2 & Hle2 & _).
    destruct V as [V|].
    2:{ exists (S f2), None, st2. split.
        - rewrite ParseParenExpr_S. run. now rewrite H1, H2.
        - apply consumed_lt. less. }
    destruct (negb (CurTok st2 =? chr ")")) eqn:Hb.
    { exists (S f2), None, (fprintf_stderr st2 ("Error: " +:+ "Expected ')'")). split.
      - rewrite ParseParenExpr_S. run. rewrite H1, H2. cbv beta iota.
        now rewrite Hb.
      - apply consumed_lt.
        change (unread (fprintf_stderr st2 _)) with (unread st2). less. }
    destruct (getNextToken_unread strtod st2) as (t3 & st3 & H3 & _ & Hle3 & _).
    exists (S f2), (Some V), st3. split.
    - rewrite ParseParenExpr_S. run. rewrite H1, H2. cbv beta iota.
      rewrite Hb. now rewrite H3.
    - apply consumed_lt. less. }
  (* ParseIdentifierExpr *)
  assert (Hident : CurTok st = tok_identifier ->
    exists f r st', ParseIdentifierExpr strtod f st = Some (r, st') /\ consumed st r st').
  { intros Htok.
    destruct (getNextToken_unread strtod st) as (t1 & st1 & H1 & _ & _ & Hlt1).
    assert (Hs1 : (unread st1 < unread st)%nat).
    { apply Hlt1. left. rewrite Htok. discriminate. }
    destruct (negb (CurTok st1 =? chr "(")) eqn:Hb.
    { exists 1%nat, (Some (VariableExprAST (IdentifierStr st))), st1. split.
      - rewrite ParseIdentifierExpr_S. run. rewrite H1. now rewrite Hb.
      - now apply consumed_lt. }
    destruct (getNextToken_unread strtod st1) as (t2 & st2 & H2 & _ & Hle2 & _).
    destruct (negb (CurTok st2 =? chr ")")) eqn:Hb2.
    - destruct (IHargs st2 [] ltac:(less)) as (f3 & Args & st3 & H3 & Hle3).
      destruct Args as [Args|].
      + destruct (getNextToken_unread strtod st3) as (t4 & st4 & H4 & _ & Hle4 & _).
        exists (S f3), (Some (CallExprAST (IdentifierStr st) Args)), st4. split.
        * rewrite ParseIdentifierExpr_S. run. rewrite H1, Hb, H2, Hb2, H3.
          cbv beta iota. now rewrite H4.
        * apply consumed_lt. less.
      + exists (S f3), None, st3. split.
        * rewrite ParseIdentifierExpr_S. run. now rewrite H1, Hb, H2, Hb2, H3.
        * apply consumed_lt. less.
    - destruct (getNextToken_unread strtod st2) as (t4 & st4 & H4 & _ & Hle4 & _).
      exists 1%nat, (Some (CallExprAST (IdentifierStr st) [])), st4. split.
      + rewrite ParseIdentifierExpr_S. run. rewrite H1, Hb, H2, Hb2.
        cbv beta iota. now rewrite H4.
      + apply consumed_lt. less. }
  (* ParsePrimary *)
  assert (Hprim :
    exists f r st', ParsePrimary strtod f st = Some (r, st') /\ consumed st r st').
  { destruct (CurTok st =? tok_identifier) eqn:E1.
    { apply Z.eqb_eq in E1. destruct (Hident E1) as (f & r & st' & H & Hc).
      exists (S f), r, st'. split; [|exact Hc].
      rewrite ParsePrimary_S. run. rewrite E1. exact H. }
    destruct (CurTok st =? tok_number) eqn:E2.
    { destruct (getNextToken_unread strtod st) as (t1 & st1 & H1 & _ & _ & Hlt1).
      exists 1%nat, (Some (NumberExprAST (NumVal st))), st1. split.
      - rewrite ParsePrimary_S. run. rewrite E1, E2. unfold ParseNumberExpr. run.
        now rewrite H1.
      - apply consumed_lt. apply Hlt1. left.
        apply Z.eqb_eq in E2. rewrite E2. discriminate. }
    destruct (CurTok st =? chr "(") eqn:E3.
    { apply Z.eqb_eq in E3. destruct (Hparen E3) as (f & r & st' & H & Hc).
      exists (S f), r, st'. split; [|exact Hc].
      rewrite ParsePrimary_S. run. rewrite E3. exact H. }
    exists 1%nat, None,
      (fprintf_stderr st ("Error: " +:+ "Unknown token when expecting an expression")).
    split.
    - rewrite ParsePrimary_S. run. now rewrite E1, E2, E3.
    - apply consumed_null, no_give_back_stderr. }
  (* ParseBinOpRHS *)
  assert (Hrhs : forall p LHS, 0 <= p ->
    exists f r st', ParseBinOpRHS strtod f p LHS st = Some (r, st') /\
                    no_give_back st st').
  { intros p LHS Hp.
    destruct (GetTokPrecedence_unread st) as (TokPrec & st1 & H1 & Hu1 & Hc1 & Hpos).
    destruct (TokPrec <? p) eqn:Hb.
    { exists 1%nat, (Some LHS), st1. split; [|split; [lia | auto]].
      rewrite ParseBinOpRHS_S. run. rewrite H1. now rewrite Hb. }
    destruct (getNextToken_unread strtod st1) as (t2 & st2 & H2 & _ & _ & Hlt2).
    assert (Hs2 : (unread st2 < unread st)%nat).
    { rewrite <- Hu1. apply Hlt2. left. rewrite Hc1. apply Hpos. lia. }
    destruct (IHprim st2 Hs2) as (f3 & RHS & st3 & H3 & Hle3 & _).
    destruct RHS as [RHS|].
    2:{ exists (S f3), None, st3. split; [|apply no_give_back_lt; less].
        rewrite ParseBinOpRHS_S. run. rewrite H1, Hb, H2. now rewrite H3. }
    destruct (GetTokPrecedence_unread st3) as (NextPrec & st4 & H4 & Hu4 & _ & _).
    assert (Hinner : exists f5 RHS' st5,
              (if TokPrec <? NextPrec
               then ParseBinOpRHS strtod f5 (TokPrec + 1) RHS
               else ret (Some RHS)) st4 = Some (RHS', st5) /\
              no_give_back st4 st5).
    { destruct (TokPrec <? NextPrec).
      - apply IHrhs; [less | lia].
      - exists 0%nat, (Some RHS), st4. split; [reflexivity | apply no_give_back_refl]. }
    destruct Hinner as (f5 & RHS' & st5 & H5 & Hle5).
    destruct RHS' as [RHS'|].
    2:{ exists (S (f3 + f5)), None, st5. split; [|apply no_give_back_lt; less].
        rewrite ParseBinOpRHS_S. run. rewrite H1, Hb, H2.
        rewrite (ParsePrimary_fuel f3 (f3 + f5) _ _ ltac:(lia) H3). cbv beta iota.
        rewrite H4.
        destruct (TokPrec <? NextPrec).
        - now rewrite (ParseBinOpRHS_fuel f5 (f3 + f5) _ _ _ _ ltac:(lia) H5).
        - discriminate H5. }
    destruct (IHrhs st5 p (BinaryExprAST (to_char (CurTok st1)) LHS RHS')
                ltac:(less) Hp) as (f6 & r & st6 & H6 & Hle6).
    exists (S (f3 + f5 + f6)), r, st6. split; [|apply no_give_back_lt; less].
    rewrite ParseBinOpRHS_S. run. rewrite H1, Hb, H2.
    rewrite (ParsePrimary_fuel f3 (f3 + f5 + f6) _ _ ltac:(lia) H3). cbv beta iota.
    rewrite H4.
    destruct (TokPrec <? NextPrec).
    - rewrite (ParseBinOpRHS_fuel f5 (f3 + f5 + f6) _ _ _ _ ltac:(lia) H5).
      apply (ParseBinOpRHS_fuel f6); [lia | exact H6].
    - unfold ret in H5. injection H5 as <- <-.
      apply (ParseBinOpRHS_fuel f6); [lia | exact H6]. }
  (* ParseExpression *)
  assert (Hexpr :
    exists f r st', ParseExpression strtod f st = Some (r, st') /\ consumed st r st').
  { destruct Hprim as (f1 & LHS & st1 & H1 & Hle1 & Hlt1).
    destruct LHS as [LHS|].
    2:{ exists (S f1), None, st1. split.
        - rewrite ParseExpression_S. run. now rewrite H1.
        - now apply consumed_null. }
    assert (Hs1 : (unread st1 < unread st)%nat) by (apply Hlt1; congruence).
    destruct (IHrhs st1 0 LHS Hs1 ltac:(lia)) as (f2 & r & st2 & H2 & Hle2).
    exists (S (f1 + f2)), r, st2. split.
    - rewrite ParseExpression_S. run.
      rewrite (ParsePrimary_fuel f1 (f1 + f2) _ _ ltac:(lia) H1).
      apply (ParseBinOpRHS_fuel f2); [lia | exact H2].
    - apply consumed_lt. less. }
  (* ParseArguments *)
  assert (Hargs : forall Args,
    exists f r st', ParseArguments strtod f Args st = Some (r, st') /\
                    no_give_back st st').
  { intros Args. destruct Hexpr as (f1 & Arg & st1 & H1 & Hle1 & Hlt1).
    destruct Arg as [Arg|].
    2:{ exists (S f1), None, st1. split; [|exact Hle1].
        rewrite ParseArguments_S. run. now rewrite H1. }
    assert (Hs1 : (unread st1 < unread st)%nat) by (apply Hlt1; congruence).
    destruct (CurTok st1 =? chr ")") eqn:Hb.
    { exists (S f1), (Some (Args ++ [Arg])), st1. split; [|exact Hle1].
      rewrite ParseArguments_S. run. rewrite H1. cbv beta iota zeta. now rewrite Hb. }
    destruct (negb (CurTok st1 =? chr ",")) eqn:Hb2.
    { exists (S f1), None,
        (fprintf_stderr st1 ("Error: " +:+ "Expected ',' or ')' in argument list")).
      split.
      - rewrite ParseArguments_S. run. rewrite H1. cbv beta iota zeta.
        now rewrite Hb, Hb2.
      - apply no_give_back_lt.
        change (unread (fprintf_stderr st1 _)) with (unread st1). lia. }
    destruct (getNextToken_unread strtod st1) as (t2 & st2 & H2 & _ & Hle2 & _).
    destruct (IHargs st2 (Args ++ [Arg]) ltac:(less)) as (f3 & r & st3 & H3 & Hle3).
    exists (S (f1 + f3)), r, st3. split; [|apply no_give_back_lt; less].
    rewrite ParseArguments_S. run.
    rewrite (ParseExpression_fuel f1 (f1 + f3) _ _ ltac:(lia) H1). cbv beta iota zeta.
    rewrite Hb, Hb2, H2.
    apply (ParseArguments_fuel f3); [lia | exact H3]. }
  auto 10.
Qed.

(** *** Every failure is reported *)

#[local] Abbreviation says := (reports expression_errors).

Lemma parser_reports : forall fuel,
  (forall st r st', ParsePrimary strtod fuel st = Some (r, st') -> says st r st') /\
  (forall st r st', ParseParenExpr strtod fuel st = Some (r, st') -> says st r st') /\
  (forall st r st', ParseIdentifierExpr strtod fuel st = Some (r, st') -> says st r st') /\
  (forall Args st r st',
      ParseArguments strtod fuel Args st = Some (r, st') -> says st r st') /\
  (forall ExprPrec LHS st r st',
      ParseBinOpRHS strtod fuel ExprPrec LHS st = Some (r, st') -> says st r st') /\
  (forall st r st', ParseExpression strtod fuel st = Some (r, st') -> says st r st').
Proof.
  induction fuel as [|f (IHprim & IHparen & IHid & IHargs & IHrhs & IHexpr)].
  { split; [|split; [|split; [|split; [|split]]]]; intros; discriminate. }
  split; [|split; [|split; [|split; [|split]]]].
  - (* ParsePrimary *)
    intros st r st' H. rewrite ParsePrimary_S in H. open_binds H.
    branch H; [exact (IHid _ _ _ H)|].
    branch H.
    { unfold ParseNumberExpr in H. open_binds H. bind_as H t st1 E. returned H.
      quiet. exact E. }
    branch H; [exact (IHparen _ _ _ H)|].
    returned H. apply reports_error; [apply silent_refl | simpl; auto].
  - (* ParseParenExpr *)
    intros st r st' H. rewrite ParseParenExpr_S in H. open_binds H.
    bind_as H t st1 E1. bind_as H V st2 E2. apply IHexpr in E2. quiet.
    null_or H V'; [|returned H; exact (reports_after _ _ _ _ _ E1 E2)].
    simpl in E2.
    branch H.
    { returned H. apply reports_error; [chain | simpl; auto]. }
    bind_as H t3 st3 E3. returned H. quiet. simpl. chain.
  - (* ParseIdentifierExpr *)
    intros st r st' H. rewrite ParseIdentifierExpr_S in H. open_binds H.
    bind_as H t st1 E1.
    branch H; [returned H; quiet; exact E1|].
    bind_as H t2 st2 E2. bind_as H Args st3 E3.
    assert (Hargs : says st2 Args st3).
    { destruct (negb (CurTok st2 =? chr ")")).
      - exact (IHargs _ _ _ _ E3).
      - injection E3 as <- <-. apply silent_refl. }
    quiet. apply (reports_after _ _ st2); [chain|].
    null_or H Args'; [|returned H; exact Hargs].
    bind_as H t4 st4 E4. returned H. quiet. simpl in *. chain.
  - (* ParseArguments *)
    intros Args st r st' H. rewrite ParseArguments_S in H. open_binds H.
    bind_as H Arg st1 E1. apply IHexpr in E1.
    null_or H Arg'; [|returned H; exact E1].
    simpl in E1.
    branch H; [returned H; exact E1|].
    branch H; [returned H; apply reports_error; [exact E1 | simpl; auto]|].
    bind_as H t2 st2 E2. quiet. apply IHargs in H.
    apply (reports_after _ _ st2); [chain | exact H].
  - (* ParseBinOpRHS *)
    intros ExprPrec LHS st r st' H.
    rewrite ParseBinOpRHS_S in H. open_binds H.
    bind_as H TokPrec st1 E1.
    branch H; [returned H; quiet; exact E1|].
    bind_as H t2 st2 E2. bind_as H RHS st3 E3. apply IHprim in E3. quiet.
    apply (reports_after _ _ st2); [chain|].
    null_or H RHS'; [|returned H; exact E3].
    simpl in E3.
    bind_as H NextPrec st4 E4. bind_as H RHS2 st5 E5.
    assert (Hrhs : says st4 RHS2 st5).
    { destruct (TokPrec <? NextPrec).
      - exact (IHrhs _ _ _ _ _ E5).
      - injection E5 as <- <-. apply silent_refl. }
    quiet. apply (reports_after _ _ st4); [chain|].
    null_or H RHS2'; [|returned H; exact Hrhs].
    simpl in Hrhs. apply IHrhs in H.
    apply (reports_after _ _ st5); [chain | exact H].
  - (* ParseExpression *)
    intros st r st' H. rewrite ParseExpression_S in H. open_binds H.
    bind_as H LHS st1 E1. apply IHprim in E1.
    null_or H LHS'; [|returned H; exact E1].
    simpl in E1. apply IHrhs in H.
    apply (reports_after _ _ st1); [exact E1 | exact H].
Qed.

End ParserRuns.

Section TopLevelParsers.

Variable strtod : string -> double.

(** *** More fuel *)

Lemma read_ArgNames_S f ArgNames :
  read_ArgNames strtod (S f) ArgNames =
  let* tok := getNextToken strtod in
  if tok =? tok_identifier then
    let* id := read IdentifierStr in
    read_ArgNames strtod f (ArgNames ++ [id])
  else ret ArgNames.
Proof. reflexivity. Qed.

Lemma read_ArgNames_fuel_S : forall f ArgNames,
  refines (read_ArgNames strtod f ArgNames) (read_ArgNames strtod (S f) ArgNames).
Proof.
  induction f as [|f IH]; intros ArgNames; [intros st r H; discriminate|].
  rewrite (read_ArgNames_S (S f)), (read_ArgNames_S f). more_fuel.
Qed.

Lemma read_ArgNames_fuel f f' ArgNames st r :
  (f <= f')%nat -> read_ArgNames strtod f ArgNames st = Some r ->
  read_ArgNames strtod f' ArgNames st = Some r.
Proof.
  intros Hle. induction Hle as [|k Hle IH]; [auto|].
  intros H. now apply read_ArgNames_fuel_S, IH.
Qed.

Lemma ParsePrototype_fuel f f' st r :
  (f <= f')%nat -> ParsePrototype strtod f st = Some r ->
  ParsePrototype strtod f' st = Some r.
Proof.
  intros Hle. revert st r. change (refines (ParsePrototype strtod f) (ParsePrototype strtod f')).
  unfold ParsePrototype. more_fuel.
  intros st r. now apply read_ArgNames_fuel.
Qed.

Lemma ParseFunDef_fuel f f' st r :
  (f <= f')%nat -> ParseFunDef strtod f st = Some r ->
  ParseFunDef strtod f' st = Some r.
Proof.
  intros Hle. revert st r. change (refines (ParseFunDef strtod f) (ParseFunDef strtod f')).
  unfold ParseFunDef.
  apply refines_bind; [apply refines_refl | intros _].
  apply refines_bind; [intros st r; now apply ParsePrototype_fuel | intros [P|]];
    [|apply refines_refl].
  apply refines_bind; [intros st r; now apply ParseExpression_fuel | intros ?].
  apply refines_refl.
Qed.

Lemma ParseImport_fuel f f' st r :
  (f <= f')%nat -> ParseImport strtod f st = Some r ->
  ParseImport strtod f' st = Some r.
Proof.
  intros Hle. revert st r. change (refines (ParseImport strtod f) (ParseImport strtod f')).
  unfold ParseImport.
  apply refines_bind; [apply refines_refl | intros _].
  intros st r. now apply ParsePrototype_fuel.
Qed.

Lemma ParseTopLevelExpr_fuel f f' st r :
  (f <= f')%nat -> ParseTopLevelExpr strtod f st = Some r ->
  ParseTopLevelExpr strtod f' st = Some r.
Proof.
  intros Hle. revert st r.
  change (refines (ParseTopLevelExpr strtod f) (ParseTopLevelExpr strtod f')).
  unfold ParseTopLevelExpr.
  apply refines_bind; [intros st r; now apply ParseExpression_fuel | intros ?].
  apply refines_refl.
Qed.

(** *** They return *)

Lemma ParseExpression_halts st :
  exists f r st', ParseExpression strtod f st = Some (r, st') /\ consumed st r st'.
Proof. apply (parser_halts strtod (unread st) st eq_refl). Qed.

Lemma read_ArgNames_halts : forall n st, unread st = n -> forall ArgNames,
  exists f r st', read_ArgNames strtod f ArgNames st = Some (r, st') /\
                  no_give_back st st'.
Proof.
  induction n as [n IH] using lt_wf_ind. intros st Hn ArgNames. subst n.
  destruct (getNextToken_unread strtod st) as (t & st1 & H1 & Ht & Hle & Hlt).
  destruct (t =? tok_identifier) eqn:E.
  - assert (Hs : (unread st1 < unread st)%nat).
    { apply Hlt. right. apply Z.eqb_eq in E. rewrite E. discriminate. }
    destruct (IH _ Hs st1 eq_refl (ArgNames ++ [IdentifierStr st1]))
      as (f & r & st' & H & Hle').
    exists (S f), r, st'. split; [|apply no_give_back_lt; less].
    rewrite read_ArgNames_S. run. rewrite H1, E. exact H.
  - exists 1%nat, ArgNames, st1. split; [|exact Hle].
    rewrite read_ArgNames_S. run. now rewrite H1, E.
Qed.

Lemma ParsePrototype_halts st :
  exists f r st', ParsePrototype strtod f st = Some (r, st') /\ no_give_back st st'.
Proof.
  unfold ParsePrototype, LogErrorP, LogError. run.
  destruct (negb (CurTok st =? tok_identifier)) eqn:E1.
  { exists 0%nat. eexists _, _. split; [reflexivity | apply no_give_back_stderr]. }
  destruct (getNextToken_unread strtod st) as (t1 & st1 & H1 & _ & Hle1 & _).
  rewrite H1.
  destruct (negb (CurTok st1 =? chr "(")) eqn:E2.
  { exists 0%nat. eexists _, _. split; [reflexivity|].
    eapply no_give_back_trans; [exact Hle1 | apply no_give_back_stderr]. }
  destruct (read_ArgNames_halts _ st1 eq_refl []) as (f & ArgNames & st2 & H2 & Hle2).
  exists f. rewrite H2.
  destruct (negb (CurTok st2 =? chr ")")) eqn:E3.
  { eexists _, _. split; [reflexivity|].
    eapply no_give_back_trans; [exact Hle1|].
    eapply no_give_back_trans; [exact Hle2 | apply no_give_back_stderr]. }
  destruct (getNextToken_unread strtod st2) as (t3 & st3 & H3 & _ & Hle3 & _).
  rewrite H3. eexists _, _. split; [reflexivity|].
  eapply no_give_back_trans; [exact Hle1|].
  eapply no_give_back_trans; [exact Hle2 | exact Hle3].
Qed.

Lemma ParseImport_halts st :
  CurTok st <> tok_eof ->
  exists f r st', ParseImport strtod f st = Some (r, st') /\
                  (unread st' < unread st)%nat.
Proof.
  intros Htok. unfold ParseImport. run.
  destruct (getNextToken_unread strtod st) as (t1 & st1 & H1 & _ & _ & Hlt1).
  specialize (Hlt1 (or_introl Htok)). rewrite H1.
  destruct (ParsePrototype_halts st1) as (f & r & st' & H & Hle).
  exists f, r, st'. split; [exact H | less].
Qed.

Lemma ParseFunDef_halts st :
  CurTok st <> tok_eof ->
  exists f r st', ParseFunDef strtod f st = Some (r, st') /\
                  (unread st' < unread st)%nat.
Proof.
  intros Htok. unfold ParseFunDef. run.
  destruct (getNextToken_unread strtod st) as (t1 & st1 & H1 & _ & _ & Hlt1).
  specialize (Hlt1 (or_introl Htok)). rewrite H1.
  destruct (ParsePrototype_halts st1) as (f2 & P & st2 & H2 & Hle2).
  destruct P as [P|].
  2:{ exists f2, None, st2. rewrite H2. split; [reflexivity | less]. }
  destruct (ParseExpression_halts st2) as (f3 & E & st3 & H3 & Hle3 & _).
  exists (f2 + f3)%nat.
  rewrite (ParsePrototype_fuel f2 (f2 + f3) _ _ ltac:(lia) H2).
  rewrite (ParseExpression_fuel strtod f3 (f2 + f3) _ _ ltac:(lia) H3).
  destruct E as [E|]; eexists _, _; (split; [reflexivity | less]).
Qed.

Lemma ParseTopLevelExpr_halts st :
  exists f r st', ParseTopLevelExpr strtod f st = Some (r, st') /\ consumed st r st'.
Proof.
  unfold ParseTopLevelExpr. run.
  destruct (ParseExpression_halts st) as (f & E & st1 & H & Hle & Hlt).
  exists f. rewrite H. destruct E as [E|]; eexists _, _; (split; [reflexivity|]).
  - apply consumed_lt. apply Hlt. discriminate.
  - now apply consumed_null.
Qed.

(** *** They say why they fail *)

Lemma read_ArgNames_silent : forall f ArgNames st r st',
  read_ArgNames strtod f ArgNames st = Some (r, st') -> silent st st'.
Proof.
  induction f as [|f IH]; intros ArgNames st r st' H; [discriminate|].
  rewrite read_ArgNames_S in H. open_binds H. bind_as H t st1 E1. quiet.
  branch H.
  - apply IH in H. chain.
  - returned H. exact E1.
Qed.

Lemma ParsePrototype_reports f st r st' :
  ParsePrototype strtod f st = Some (r, st') -> reports prototype_errors st r st'.
Proof.
  intros H. unfold ParsePrototype, LogErrorP in H. open_binds H.
  branch H; [returned H; apply reports_error; [apply silent_refl | simpl; auto]|].
  bind_as H t st1 E1. quiet.
  branch H; [returned H; apply reports_error; [exact E1 | simpl; auto]|].
  bind_as H ArgNames st2 E2. apply read_ArgNames_silent in E2.
  branch H; [returned H; apply reports_error; [chain | simpl; auto]|].
  bind_as H t3 st3 E3. returned H. quiet. simpl. chain.
Qed.

Lemma ParseExpression_reports f st r st' :
  ParseExpression strtod f st = Some (r, st') -> reports expression_errors st r st'.
Proof. apply parser_reports. Qed.

End TopLevelParsers.

Section ParserResults.

Variable strtod : string -> double.

(** [ParseExpression] returns from every state: with enough fuel, and
    then with any more, it gives one result, a tree or null.  It gives no
    character back, and a tree has taken at least one token. *)
Theorem ParseExpression_terminates (st : Parser) :
  exists fuel r st',
    (forall fuel', (fuel <= fuel')%nat ->
                   ParseExpression strtod fuel' st = Some (r, st')) /\
    consumed st r st'.
Proof.
  destruct (ParseExpression_halts strtod st) as (f & r & st' & H & Hc).
  exists f, r, st'. split; [|exact Hc].
  intros fuel' Hle. exact (ParseExpression_fuel strtod f fuel' _ _ Hle H).
Qed.

(** No parser function fails in silence.  A null result of
    [ParseExpression], [ParseFunDef], [ParseImport] or [ParseTopLevelExpr]
    comes with exactly one [LogError] line, which is the last line
    written; a tree or prototype comes with none.  The only other line on
    the error stream is the one of the lexer. *)
Theorem parse_failure_is_reported fuel st :
  (forall r st', ParseExpression strtod fuel st = Some (r, st') ->
                 reports expression_errors st r st') /\
  (forall r st', ParseFunDef strtod fuel st = Some (r, st') ->
                 reports (prototype_errors ++ expression_errors) st r st') /\
  (forall r st', ParseImport strtod fuel st = Some (r, st') ->
                 reports prototype_errors st r st') /\
  (forall r st', ParseTopLevelExpr strtod fuel st = Some (r, st') ->
                 reports expression_errors st r st').
Proof.
  split; [|split; [|split]].
  - intros r st'. apply ParseExpression_reports.
  - intros r st' H. unfold ParseFunDef in H. open_binds H.
    bind_as H t st1 E1. quiet.
    bind_as H P st2 E2. apply ParsePrototype_reports in E2.
    apply (reports_after _ _ st1); [exact E1|].
    null_or H P'.
    2:{ returned H. apply (reports_more prototype_errors); [|exact E2].
        intros msg Hin. apply in_or_app. now left. }
    simpl in E2.
    bind_as H E st3 E3. apply ParseExpression_reports in E3.
    apply (reports_after _ _ st2); [exact E2|].
    assert (Hsub : forall msg, In msg expression_errors ->
                               In msg (prototype_errors ++ expression_errors)).
    { intros msg Hin. apply in_or_app. now right. }
    destruct E as [E|]; returned H; [exact E3|].
    apply (reports_more expression_errors); [exact Hsub | exact E3].
  - intros r st' H. unfold ParseImport in H. open_binds H.
    bind_as H t st1 E1. quiet. apply ParsePrototype_reports in H.
    apply (reports_after _ _ st1); [exact E1 | exact H].
  - intros r st' H. unfold ParseTopLevelExpr in H. open_binds H.
    bind_as H E st1 E1. apply ParseExpression_reports in E1.
    destruct E as [E|]; returned H; exact E1.
Qed.

(** *** Where an expression ends *)

Lemma GetTokPrecedence_again st p st1 :
  GetTokPrecedence st = Some (p, st1) -> GetTokPrecedence st1 = Some (p, st1).
Proof.
  unfold GetTokPrecedence.
  destruct (negb (isascii (CurTok st))) eqn:E.
  { intros [= <- <-]. now rewrite E. }
  unfold map_index.
  destruct (BinopPrecedence st !! to_char (CurTok st)) as [v|] eqn:Hv.
  - destruct (v <=? 0) eqn:Hle; intros [= <- <-]; simpl; rewrite E, Hv, Hle;
      destruct st; reflexivity.
  - simpl. intros [= <- <-]. simpl. rewrite E, lookup_insert_eq. reflexivity.
Qed.

Lemma ParseBinOpRHS_stops : forall fuel ExprPrec LHS st e st',
  ParseBinOpRHS strtod fuel ExprPrec LHS st = Some (Some e, st') ->
  exists q, GetTokPrecedence st' = Some (q, st') /\ q < ExprPrec.
Proof.
  induction fuel as [|f IH]; intros ExprPrec LHS st e st' H; [discriminate|].
  rewrite ParseBinOpRHS_S in H. open_binds H.
  bind_as H TokPrec st1 E1.
  branch H.
  { returned H. exists TokPrec. split; [now apply (GetTokPrecedence_again st) | lia]. }
  bind_as H t2 st2 E2. bind_as H RHS st3 E3.
  null_or H RHS'; [|discriminate H].
  bind_as H NextPrec st4 E4. bind_as H RHS2 st5 E5.
  null_or H RHS2'; [|discriminate H].
  exact (IH _ _ _ _ _ H).
Qed.

(** [ParseExpression] takes all it can: the token it stops at, after it
    returned a tree, has no precedence, so it continues no expression. *)
Theorem ParseExpression_stops_at_non_operator fuel st e st' :
  ParseExpression strtod fuel st = Some (Some e, st') ->
  GetTokPrecedence st' = Some (-1, st').
Proof.
  destruct fuel as [|f]; [discriminate|].
  rewrite ParseExpression_S. intros H. open_binds H.
  bind_as H LHS st1 E1. null_or H LHS'; [|discriminate H].
  apply ParseBinOpRHS_stops in H as (q & Hq & Hlt).
  assert (q = -1); [|now subst q].
  revert Hq. unfold GetTokPrecedence.
  destruct (negb (isascii (CurTok st'))); [now intros [= <-]|].
  destruct (map_index _ _) as [v m].
  destruct (v <=? 0) eqn:Hle; intros [= <-]; lia.
Qed.

End ParserResults.

(** ** Results of lowering *)

Section CodeGenResults.

Variable FoldBinOp : Opcode -> Value -> Value -> option Value.
Variable FoldCmp : Value -> Value -> option Value.
Variable FoldCast : Value -> option Value.

(** *** Null results and error lines *)

Lemma some_error_lowered st st1 st2 :
  some_error st st1 -> lowered st1 st2 -> some_error st st2.
Proof.
  intros (line & more & E) (_ & _ & _ & _ & _ & _ & [more2 E2]).
  exists line, (more ++ more2). rewrite E2, E. now rewrite <- app_assoc.
Qed.

Lemma no_error_some_error st st1 st2 :
  no_error st st1 -> some_error st1 st2 -> some_error st st2.
Proof. intros E (line & more & E2). exists line, more. now rewrite E2, E. Qed.

Lemma some_error_neq st st' : some_error st st' -> Errs st' <> Errs st.
Proof.
  intros (line & more & E) H. rewrite E in H.
  apply (f_equal (@length string)) in H. rewrite length_app in H. simpl in H. lia.
Qed.

Lemma null_iff_error {A} (r : option A) st st' :
  null_with_error r st st' -> (r = None <-> Errs st' <> Errs st).
Proof.
  destruct r as [a|]; simpl; intros H.
  - split; [discriminate | intros Hne; now elim Hne].
  - split; [intros _; now apply some_error_neq | reflexivity].
Qed.

Lemma log_error_some_error st line : some_error st (log_error st line).
Proof. now exists line, []. Qed.

Lemma log_error_after st st0 line :
  Errs st0 = Errs st -> some_error st (log_error st0 line).
Proof. intros E. exists line, []. simpl. now rewrite E. Qed.

Lemma BinaryExprAST_emit_errs Op L R st :
  null_with_error (fst (BinaryExprAST_emit FoldBinOp FoldCmp FoldCast Op L R st)) st
                  (snd (BinaryExprAST_emit FoldBinOp FoldCmp FoldCast Op L R st)) /\
  (fst (BinaryExprAST_emit FoldBinOp FoldCmp FoldCast Op L R st) <> None <->
   is_binop Op = true).
Proof.
  unfold BinaryExprAST_emit, is_binop, CreateBinOp, CreateFCmpULT, CreateUIToFP.
  destruct (Op =? chr "+") eqn:E1.
  { apply Z.eqb_eq in E1. subst Op.
    destruct (FoldBinOp _ _ _); simpl; (split; [reflexivity | split; [reflexivity | discriminate]]). }
  destruct (Op =? chr "-") eqn:E2.
  { apply Z.eqb_eq in E2. subst Op.
    destruct (FoldBinOp _ _ _); simpl; (split; [reflexivity | split; [reflexivity | discriminate]]). }
  destruct (Op =? chr "*") eqn:E3.
  { apply Z.eqb_eq in E3. subst Op.
    destruct (FoldBinOp _ _ _); simpl; (split; [reflexivity | split; [reflexivity | discriminate]]). }
  destruct (Op =? chr "<") eqn:E4.
  { apply Z.eqb_eq in E4. subst Op.
    destruct (FoldCmp L R); simpl;
      match goal with |- context [FoldCast ?v] => destruct (FoldCast v) end; simpl;
      (split; [reflexivity | split; [reflexivity | discriminate]]). }
  simpl. split; [apply log_error_some_error|].
  split; [intros H; now elim H | discriminate].
Qed.

#[local] Abbreviation codegen := (codegen FoldBinOp FoldCmp FoldCast).
#[local] Abbreviation codegen_args := (codegen_args FoldBinOp FoldCmp FoldCast).
#[local] Abbreviation FunctionAST_codegen :=
  (FunctionAST_codegen FoldBinOp FoldCmp FoldCast).
#[local] Abbreviation BinaryExprAST_emit :=
  (BinaryExprAST_emit FoldBinOp FoldCmp FoldCast).

Lemma codegen_errs e : forall st,
  null_with_error (fst (codegen e st)) st (snd (codegen e st)).
Proof.
  induction e as [Val|Name|Op LHS RHS IHL IHR|Callee Args IH] using ExprAST_ind';
    intros st.
  - reflexivity.
  - simpl. unfold VariableExprAST_codegen, NamedValues_index.
    destruct (NamedValues st !! Name) as [[V|]|]; simpl;
      [reflexivity | apply log_error_some_error | now apply log_error_after].
  - simpl. pose proof (IHL st) as H1.
    destruct (codegen LHS st) as [L st1]. simpl in H1.
    pose proof (IHR st1) as H2. pose proof (codegen_lowered FoldBinOp FoldCmp FoldCast RHS st1) as Hlow.
    destruct (codegen RHS st1) as [R st2]. simpl in H2, Hlow.
    destruct L as [L|].
    2:{ simpl. eapply some_error_lowered; eauto. }
    destruct R as [R|].
    2:{ simpl. eapply no_error_some_error; eauto. }
    destruct (BinaryExprAST_emit_errs Op L R st2) as [H3 _].
    destruct (BinaryExprAST_emit Op L R st2) as [[V|] st3]; simpl in *.
    + unfold no_error in *. congruence.
    + eapply no_error_some_error; [|exact H3]. unfold no_error in *. congruence.
  - rewrite codegen_call.
    destruct (getFunction Callee st) as [F|]; [|apply log_error_some_error].
    destruct (negb _); [apply log_error_some_error|].
    assert (Hargs : forall acc s,
              null_with_error (fst (codegen_args Args acc s)) s
                              (snd (codegen_args Args acc s))).
    { clear -IH. induction IH as [|a l Ha _ IHl]; intros acc s; simpl;
        [reflexivity|].
      pose proof (Ha s) as H1. destruct (codegen a s) as [[V|] s1]; simpl in *;
        [|exact H1].
      specialize (IHl (acc ++ [V]) s1).
      destruct (codegen_args l (acc ++ [V]) s1) as [[ArgsV|] s2]; simpl in *.
      - unfold no_error in *. congruence.
      - eapply no_error_some_error; eauto. }
    specialize (Hargs [] st).
    destruct (codegen_args Args [] st) as [[ArgsV|] st1]; simpl in *; exact Hargs.
Qed.

Lemma FunctionAST_codegen_errs Fn st :
  null_with_error (fst (FunctionAST_codegen Fn st)) st (snd (FunctionAST_codegen Fn st)).
Proof.
  rewrite FunctionAST_codegen_eq.
  destruct (TheFunction_of (Proto Fn) st) as [F st0] eqn:HF.
  destruct (TheFunction_of_spec _ _ _ _ HF) as (_ & He0 & _).
  destruct (negb _).
  { simpl. exists "Error: Function cannot be redefined"%string, []. simpl. now rewrite He0. }
  destruct (body_entry_spec F st0) as (_ & _ & _ & He1 & _).
  pose proof (codegen_errs (Body Fn) (body_entry F st0)) as H.
  destruct (codegen (Body Fn) (body_entry F st0)) as [[RetVal|] st2];
    cbn [fst snd null_with_error] in *.
  - unfold no_error in *. rewrite He1, He0 in H. exact H.
  - destruct H as (line & more & E). exists line, more.
    rewrite He1, He0 in E. exact E.
Qed.

(** Lowering returns null exactly when it wrote to the error stream, for
    an expression and for a function definition. *)
Theorem codegen_null_iff_error :
  (forall e st, fst (codegen e st) = None <-> Errs (snd (codegen e st)) <> Errs st) /\
  (forall Fn st, fst (FunctionAST_codegen Fn st) = None <->
                 Errs (snd (FunctionAST_codegen Fn st)) <> Errs st).
Proof.
  split; intros; apply null_iff_error; [apply codegen_errs | apply FunctionAST_codegen_errs].
Qed.

(** *** Which trees lower *)

Lemma find_update_function n F0 f m :
  (forall G, FName (f G) = FName G) ->
  List.find (fun F => String.eqb (FName F) n) (update_function F0 f m) =
  option_map (fun G => if Nat.eqb (FId G) F0 then f G else G)
             (List.find (fun F => String.eqb (FName F) n) m).
Proof.
  intros Hf. unfold update_function. induction m as [|G m IH]; [reflexivity|].
  simpl. replace (FName (if Nat.eqb (FId G) F0 then f G else G)) with (FName G)
    by (destruct (Nat.eqb (FId G) F0); now rewrite ?Hf).
  destruct (String.eqb (FName G) n); [reflexivity | exact IH].
Qed.

Lemma callable_lowered Callee n st st' :
  lowered st st' -> callable Callee n st' = callable Callee n st.
Proof.
  intros (_ & _ & _ & _ & [new Hm] & _). unfold callable, getFunction.
  destruct (String.eqb Callee ""); [reflexivity|]. rewrite Hm.
  destruct (InsertPoint st) as [[F0 BB]|]; [|reflexivity]. simpl.
  rewrite find_update_function by reflexivity.
  destruct (List.find _ (TheModule st)) as [G|]; [|reflexivity]. simpl.
  now destruct (Nat.eqb (FId G) F0).
Qed.

Lemma has_value_lowered x st st' :
  lowered st st' -> has_value x st' = has_value x st.
Proof.
  intros (_ & _ & _ & _ & _ & Hnv & _). unfold has_value.
  destruct (Hnv x) as [-> | [-> ->]]; reflexivity.
Qed.

Lemma in_scope_lowered e st st' :
  lowered st st' -> in_scope st' e = in_scope st e.
Proof.
  intros Hlow.
  induction e as [Val|Name|Op LHS RHS IHL IHR|Callee Args IH] using ExprAST_ind'; simpl.
  - reflexivity.
  - now apply has_value_lowered.
  - now rewrite IHL, IHR.
  - rewrite (callable_lowered _ _ _ _ Hlow). f_equal.
    induction IH as [|a l Ha _ IHl]; simpl; [reflexivity|]. now rewrite Ha, IHl.
Qed.

Lemma codegen_in_scope e : forall st,
  match fst (codegen e st) with Some _ => true | None => false end = in_scope st e.
Proof.
  induction e as [Val|Name|Op LHS RHS IHL IHR|Callee Args IH] using ExprAST_ind';
    intros st.
  - reflexivity.
  - simpl. unfold VariableExprAST_codegen, NamedValues_index, has_value.
    destruct (NamedValues st !! Name) as [[V|]|]; reflexivity.
  - simpl. pose proof (IHL st) as H1.
    pose proof (codegen_lowered FoldBinOp FoldCmp FoldCast LHS st) as Hlow.
    destruct (codegen LHS st) as [L st1]. simpl in H1, Hlow.
    pose proof (IHR st1) as H2. rewrite (in_scope_lowered RHS _ _ Hlow) in H2.
    destruct (codegen RHS st1) as [R st2]. simpl in H2.
    rewrite <- H1, <- H2.
    destruct L as [L|]; [|reflexivity]. destruct R as [R|]; [|reflexivity].
    destruct (BinaryExprAST_emit_errs Op L R st2) as [_ H3]. simpl.
    destruct (fst (BinaryExprAST_emit Op L R st2)) as [V|].
    + symmetry. apply H3. discriminate.
    + destruct (is_binop Op); [|reflexivity].
      destruct H3 as [_ H3]. now elim (H3 eq_refl).
  - rewrite codegen_call. simpl. unfold callable.
    destruct (getFunction Callee st) as [F|]; [|reflexivity].
    destruct (Nat.eqb (length (FArgs F)) (length Args)); [|reflexivity].
    simpl.
    assert (Hargs : forall acc s,
              match fst (codegen_args Args acc s) with Some _ => true | None => false end
              = forallb (in_scope s) Args).
    { clear -IH. induction IH as [|a l Ha _ IHl]; intros acc s; simpl;
        [reflexivity|].
      pose proof (Ha s) as H1.
      pose proof (codegen_lowered FoldBinOp FoldCmp FoldCast a s) as Hlow.
      destruct (codegen a s) as [[V|] s1]; simpl in *; rewrite <- H1; [|reflexivity].
      rewrite IHl. simpl. clear -Hlow.
      induction l as [|e l IHl]; simpl; [reflexivity|].
      now rewrite IHl, (in_scope_lowered e _ _ Hlow). }
    specialize (Hargs [] st).
    destruct (codegen_args Args [] st) as [[ArgsV|] st1]; simpl in *; exact Hargs.
Qed.

(** [codegen] returns a value exactly for the trees that are [in_scope]
    of the state it starts from: what it needs can be read off the
    module and [NamedValues] beforehand. *)
Theorem codegen_succeeds_iff_in_scope e st :
  fst (codegen e st) <> None <-> in_scope st e = true.
Proof.
  rewrite <- codegen_in_scope. destruct (fst (codegen e st)); split; congruence.
Qed.

(** *** The operator error *)

Lemma BinaryExprAST_emit_binop Op L R st :
  is_binop Op = true -> Errs (snd (BinaryExprAST_emit Op L R st)) = Errs st.
Proof.
  intros Hop. destruct (BinaryExprAST_emit_errs Op L R st) as [H1 H2].
  destruct (fst (BinaryExprAST_emit Op L R st)) as [V|]; [exact H1|].
  apply H2 in Hop. now elim Hop.
Qed.

Lemma codegen_no_operator_error e : binops_ok e = true -> forall st,
  exists more, Errs (snd (codegen e st)) = Errs st ++ more /\
               ~ In "Error: invalid binary operator"%string more.
Proof.
  induction e as [Val|Name|Op LHS RHS IHL IHR|Callee Args IH] using ExprAST_ind';
    intros Hok st.
  - exists []. split; [simpl; now rewrite app_nil_r | intros []].
  - simpl. unfold VariableExprAST_codegen, NamedValues_index.
    destruct (NamedValues st !! Name) as [[V|]|]; simpl.
    + exists []. split; [now rewrite app_nil_r | intros []].
    + eexists. split; [reflexivity|]. intros [H|[]]. discriminate H.
    + eexists. split; [reflexivity|]. intros [H|[]]. discriminate H.
  - simpl in Hok. apply andb_true_iff in Hok as [Hok HR].
    apply andb_true_iff in Hok as [Hop HL].
    simpl. destruct (IHL HL st) as (m1 & E1 & N1).
    destruct (codegen LHS st) as [L st1]. simpl in E1.
    destruct (IHR HR st1) as (m2 & E2 & N2).
    destruct (codegen RHS st1) as [R st2]. simpl in E2.
    assert (H12 : Errs st2 = Errs st ++ (m1 ++ m2)) by (now rewrite E2, E1, app_assoc).
    assert (N12 : ~ In "Error: invalid binary operator"%string (m1 ++ m2)).
    { intros H. apply in_app_or in H as [H|H]; auto. }
    destruct L as [L|]; [|now exists (m1 ++ m2)].
    destruct R as [R|]; [|now exists (m1 ++ m2)].
    exists (m1 ++ m2). split; [|exact N12].
    now rewrite BinaryExprAST_emit_binop.
  - simpl in Hok. rewrite codegen_call.
    destruct (getFunction Callee st) as [F|].
    2:{ eexists. split; [reflexivity|]. intros [H|[]]. discriminate H. }
    destruct (negb _).
    { eexists. split; [reflexivity|]. intros [H|[]]. discriminate H. }
    assert (Hargs : forall acc s, exists more,
              Errs (snd (codegen_args Args acc s)) = Errs s ++ more /\
              ~ In "Error: invalid binary operator"%string more).
    { clear -IH Hok. induction IH as [|a l Ha _ IHl]; intros acc s; simpl in *.
      - exists []. split; [now rewrite app_nil_r | intros []].
      - apply andb_true_iff in Hok as [Hoka Hokl].
        destruct (Ha Hoka s) as (m1 & E1 & N1).
        destruct (codegen a s) as [[V|] s1]; simpl in *; [|now exists m1].
        destruct (IHl Hokl (acc ++ [V]) s1) as (m2 & E2 & N2).
        exists (m1 ++ m2). split; [now rewrite E2, E1, app_assoc|].
        intros H. apply in_app_or in H as [H|H]; auto. }
    destruct (Hargs [] st) as (m & E & N).
    destruct (codegen_args Args [] st) as [[ArgsV|] st1]; simpl in *; now exists m.
Qed.

(** *** Declarations *)

Lemma name_args_length Args : forall named last,
  length (name_args Args named last) = (length named + length Args)%nat.
Proof.
  induction Args as [|a Args IH]; intros named last; simpl; [lia|].
  destruct (setName named a false last) as [n last']. rewrite IH, length_app. simpl. lia.
Qed.

Lemma find_app_some {A} (p : A -> bool) l l' x :
  List.find p l = Some x -> List.find p (l ++ l') = Some x.
Proof.
  induction l as [|a l IH]; simpl; [discriminate|].
  destruct (p a); [auto | exact IH].
Qed.

(** [Proto->codegen()] adds one declaration at the end of the module, of
    as many parameters as the prototype has names, and hides nothing:
    every name the module had a function under still gives that function.
    So the declaration of a name that is in use cannot be called. *)
Theorem PrototypeAST_codegen_keeps_functions P st :
  let F := fst (PrototypeAST_codegen P st) in
  let st' := snd (PrototypeAST_codegen P st) in
  TheModule st' = TheModule st ++ [F] /\
  FId F = NextId st /\ Blocks F = [] /\
  length (FArgs F) = length (ProtoArgs P) /\
  Errs st' = Errs st /\
  (forall n G, getFunction n st = Some G -> getFunction n st' = Some G).
Proof.
  unfold PrototypeAST_codegen, Function_Create.
  destruct (setName _ _ _ _) as [n last]. simpl.
  split; [reflexivity|]. split; [reflexivity|]. split; [reflexivity|].
  split; [apply name_args_length|]. split; [reflexivity|].
  intros f G. unfold getFunction. simpl.
  destruct (String.eqb f ""); [discriminate|]. apply find_app_some.
Qed.

(** *** Parameters *)

Lemma record_args_lookup F names : forall k nv i x,
  NoDup names -> names !! i = Some x ->
  record_args F names k nv !! x = Some (Some (Argument F (k + i))).
Proof.
  induction names as [|n names IH]; intros k nv i x Hnd Hi; [discriminate|].
  apply NoDup_cons in Hnd as [Hn Hnd]. simpl. destruct i as [|i]; simpl in Hi.
  - injection Hi as ->. rewrite record_args_notin.
    + rewrite lookup_insert_eq. do 3 f_equal. lia.
    + intros H. apply Hn. now apply list_elem_of_In.
  - rewrite (IH (S k) _ i x Hnd Hi). do 3 f_equal. lia.
Qed.

(** In the body of a function, each parameter name stands for the
    parameter at its position: a reference to the [i]-th name lowers to
    the [i]-th argument of the function, and changes nothing. *)
Theorem parameter_lowers_to_argument F st i x :
  NoDup (FArgs F) -> FArgs F !! i = Some x ->
  codegen (VariableExprAST x) (body_entry F st) =
    (Some (Argument (FId F) i), body_entry F st).
Proof.
  intros Hnd Hi. apply VariableExprAST_codegen_bound.
  destruct (body_entry_spec F st) as (_ & -> & _).
  now rewrite (record_args_lookup _ _ 0%nat ∅ i x Hnd Hi).
Qed.

End CodeGenResults.

(** ** From the parser to the code generator *)

Section FrontToBack.

Variable strtod : string -> double.
Variable FoldBinOp : Opcode -> Value -> Value -> option Value.
Variable FoldCmp : Value -> Value -> option Value.
Variable FoldCast : Value -> option Value.

Lemma FunctionAST_codegen_no_operator_error Fn st :
  binops_ok (Body Fn) = true ->
  exists more,
    Errs (snd (FunctionAST_codegen FoldBinOp FoldCmp FoldCast Fn st)) = Errs st ++ more /\
    ~ In "Error: invalid binary operator"%string more.
Proof.
  intros Hok. rewrite FunctionAST_codegen_eq.
  destruct (TheFunction_of (Proto Fn) st) as [F st0] eqn:HF.
  destruct (TheFunction_of_spec _ _ _ _ HF) as (_ & He0 & _).
  destruct (negb _).
  { eexists. simpl. rewrite He0. split; [reflexivity|]. intros [H|[]]. discriminate H. }
  destruct (body_entry_spec F st0) as (_ & _ & _ & He1 & _).
  destruct (codegen_no_operator_error FoldBinOp FoldCmp FoldCast _ Hok (body_entry F st0))
    as (more & E & Hn).
  destruct (codegen _ _ _ (Body Fn) (body_entry F st0)) as [[RetVal|] st2];
    cbn [fst snd] in *; exists more; (split; [|exact Hn]); simpl;
    now rewrite E, He1, He0.
Qed.

(** What the parser builds, the code generator has an instruction for.
    With the operators of [main] in the table, every operator of a tree
    the parser returns is one of them, and lowering the tree (or the
    definition made of it) never writes the invalid-operator error: the
    [default] of the [switch] in [BinaryExprAST::codegen] is not reached
    from parsed input. *)
Theorem parsed_operators_are_lowered fuel st :
  only_main_binops (BinopPrecedence st) ->
  (forall e st', ParseExpression strtod fuel st = Some (Some e, st') ->
     binops_ok e = true /\
     forall g, exists more,
       Errs (snd (codegen FoldBinOp FoldCmp FoldCast e g)) = Errs g ++ more /\
       ~ In "Error: invalid binary operator"%string more) /\
  (forall Fn st',
     ParseFunDef strtod fuel st = Some (Some Fn, st') \/
     ParseTopLevelExpr strtod fuel st = Some (Some Fn, st') ->
     binops_ok (Body Fn) = true /\
     forall g, exists more,
       Errs (snd (FunctionAST_codegen FoldBinOp FoldCmp FoldCast Fn g)) = Errs g ++ more /\
       ~ In "Error: invalid binary operator"%string more).
Proof.
  intros Hok.
  assert (Hexpr : forall st1 e st', table_ok st1 ->
            ParseExpression strtod fuel st1 = Some (Some e, st') -> binops_ok e = true).
  { intros st1 e st' Hok1 H.
    destruct (parser_ok strtod fuel) as (_ & _ & _ & _ & _ & IH).
    now destruct (IH _ _ _ Hok1 H) as [_ He]. }
  split.
  - intros e st' H. pose proof (Hexpr _ _ _ Hok H) as He. split; [exact He|].
    intros g. now apply codegen_no_operator_error.
  - intros Fn st' H.
    assert (He : binops_ok (Body Fn) = true).
    { destruct H as [H|H].
      - unfold ParseFunDef, bind, ret in H.
        destruct (getNextToken strtod st) as [[t st1]|] eqn:E1; [|discriminate H].
        apply triple_getNextToken in E1; [|exact Hok].
        destruct (ParsePrototype strtod fuel st1) as [[P st2]|] eqn:E2; [|discriminate H].
        apply ParsePrototype_ok in E2; [|exact E1].
        destruct P as [P|]; [|discriminate H].
        destruct (ParseExpression strtod fuel st2) as [[E st3]|] eqn:E3; [|discriminate H].
        destruct E as [E|]; [|discriminate H].
        injection H as <- <-. simpl. exact (Hexpr _ _ _ E2 E3).
      - unfold ParseTopLevelExpr, bind, ret in H.
        destruct (ParseExpression strtod fuel st) as [[E st1]|] eqn:E1; [|discriminate H].
        destruct E as [E|]; [|discriminate H].
        injection H as <- <-. simpl. exact (Hexpr _ _ _ Hok E1). }
    split; [exact He|]. intros g. now apply FunctionAST_codegen_no_operator_error.
Qed.

End FrontToBack.

(** ** The module as the driver runs *)

Section ModuleInvariants.

Variable FoldBinOp : Opcode -> Value -> Value -> option Value.
Variable FoldCmp : Value -> Value -> option Value.
Variable FoldCast : Value -> option Value.

Lemma update_function_FId F f m :
  (forall G, FId (f G) = FId G) -> map FId (update_function F f m) = map FId m.
Proof.
  intros Hf. unfold update_function. rewrite map_map. apply map_ext. intros G.
  destruct (Nat.eqb (FId G) F); now rewrite ?Hf.
Qed.

Lemma update_function_arities F f m :
  (forall G, FId (f G) = FId G /\ FArgs (f G) = FArgs G) ->
  arities (update_function F f m) = arities m.
Proof.
  intros Hf. unfold arities, update_function. rewrite map_map. apply map_ext. intros G.
  destruct (Nat.eqb (FId G) F); [|reflexivity].
  destruct (Hf G) as [-> ->]. reflexivity.
Qed.

Lemma emit_arities ip new m : arities (emit ip new m) = arities m.
Proof.
  destruct ip as [[F BB]|]; [|reflexivity]. simpl.
  now apply update_function_arities.
Qed.

Lemma body_grows_refl st : body_grows st st.
Proof.
  split; [reflexivity|]. split; [lia|]. exists []. rewrite emit_nil.
  split; [reflexivity|]. split; [reflexivity | constructor].
Qed.

Lemma body_grows_arities st st' :
  body_grows st st' -> arities (TheModule st') = arities (TheModule st).
Proof.
  intros (_ & _ & new & -> & _). apply emit_arities.
Qed.

Lemma body_grows_trans st1 st2 st3 :
  body_grows st1 st2 -> body_grows st2 st3 -> body_grows st1 st3.
Proof.
  intros H12 (Hi' & Hn' & new2 & Hm' & Hr' & Hc').
  pose proof (body_grows_arities _ _ H12) as Hids.
  destruct H12 as (Hi & Hn & new1 & Hm & Hr & Hc).
  split; [congruence|]. split; [lia|].
  exists (new1 ++ new2). split; [|split].
  - rewrite Hm', Hi, Hm. apply emit_app.
  - rewrite forallb_app. now rewrite Hr, Hr'.
  - apply Forall_app. split; [exact Hc|]. now rewrite <- Hids.
Qed.

Lemma body_grows_Insert J Name st :
  is_ret (NextId st, J) = false ->
  callee_in (arities (TheModule st)) J = true ->
  body_grows st (snd (Insert J Name st)).
Proof.
  intros Hret Hcallee. unfold body_grows, Insert. simpl.
  split; [reflexivity|]. split; [lia|].
  exists [(NextId st, J)]. split; [|split].
  - destruct (InsertPoint st) as [[F BB]|]; reflexivity.
  - simpl. now rewrite Hret.
  - now repeat constructor.
Qed.

Lemma body_grows_same st st' :
  InsertPoint st' = InsertPoint st -> NextId st' = NextId st ->
  TheModule st' = TheModule st -> body_grows st st'.
Proof.
  intros Hi Hn Hm. split; [exact Hi|]. split; [lia|].
  exists []. rewrite emit_nil. split; [exact Hm|]. split; [reflexivity | constructor].
Qed.

Lemma body_grows_emit Op L R st :
  body_grows st (snd (BinaryExprAST_emit FoldBinOp FoldCmp FoldCast Op L R st)).
Proof.
  unfold BinaryExprAST_emit, CreateBinOp, CreateFCmpULT, CreateUIToFP.
  destruct (Op =? chr "+").
  { destruct (FoldBinOp _ _ _); [apply body_grows_refl | now apply (body_grows_Insert _ EmptyString)]. }
  destruct (Op =? chr "-").
  { destruct (FoldBinOp _ _ _); [apply body_grows_refl | now apply (body_grows_Insert _ EmptyString)]. }
  destruct (Op =? chr "*").
  { destruct (FoldBinOp _ _ _); [apply body_grows_refl | now apply (body_grows_Insert _ EmptyString)]. }
  destruct (Op =? chr "<"); [|now apply body_grows_same].
  assert (H1 : body_grows st
                 (snd (match FoldCmp L R with
                       | Some V => (V, st)
                       | None => Insert (FCmpULT L R) "cmptmp" st
                       end))).
  { destruct (FoldCmp L R); [apply body_grows_refl | now apply (body_grows_Insert _ EmptyString)]. }
  destruct (match FoldCmp L R with
            | Some V => (V, st)
            | None => Insert (FCmpULT L R) "cmptmp" st
            end) as [L' st1]. simpl in H1.
  assert (H2 : body_grows st1
                 (snd (match FoldCast L' with
                       | Some V' => (V', st1)
                       | None => Insert (UIToFP L') "booltmp" st1
                       end))).
  { destruct (FoldCast L'); [apply body_grows_refl | now apply (body_grows_Insert _ EmptyString)]. }
  destruct (match FoldCast L' with
            | Some V' => (V', st1)
            | None => Insert (UIToFP L') "booltmp" st1
            end) as [V st2]. simpl in *.
  eapply body_grows_trans; eauto.
Qed.

#[local] Abbreviation codegen := (codegen FoldBinOp FoldCmp FoldCast).
#[local] Abbreviation codegen_args := (codegen_args FoldBinOp FoldCmp FoldCast).
#[local] Abbreviation FunctionAST_codegen :=
  (FunctionAST_codegen FoldBinOp FoldCmp FoldCast).

Lemma getFunction_callee Callee st F Args :
  getFunction Callee st = Some F -> length (FArgs F) = length Args ->
  callee_in (arities (TheModule st)) (CallInst (FId F) Args) = true.
Proof.
  intros H Hlen. apply getFunction_In in H as [HIn _]. simpl.
  apply existsb_exists. exists (FId F, length (FArgs F)). split.
  - unfold arities. apply in_map_iff. now exists F.
  - simpl. now rewrite Hlen, !Nat.eqb_refl.
Qed.

Lemma codegen_body_grows e : forall st, body_grows st (snd (codegen e st)).
Proof.
  induction e as [Val|Name|Op LHS RHS IHL IHR|Callee Args IH] using ExprAST_ind';
    intros st.
  - apply body_grows_refl.
  - simpl. unfold VariableExprAST_codegen, NamedValues_index.
    destruct (NamedValues st !! Name) as [[V|]|]; simpl;
      [apply body_grows_refl | now apply body_grows_same | now apply body_grows_same].
  - simpl. pose proof (IHL st) as H1.
    destruct (codegen LHS st) as [L st1]. simpl in H1.
    pose proof (IHR st1) as H2.
    destruct (codegen RHS st1) as [R st2]. simpl in H2.
    pose proof (body_grows_trans _ _ _ H1 H2) as H12.
    destruct L as [L|]; [|exact H12]. destruct R as [R|]; [|exact H12].
    eapply body_grows_trans; [exact H12 | apply body_grows_emit].
  - rewrite codegen_call.
    destruct (getFunction Callee st) as [F|] eqn:HF; [|now apply body_grows_same].
    destruct (Nat.eqb (length (FArgs F)) (length Args)) eqn:Hlen; cbn [negb];
      [|now apply body_grows_same].
    apply Nat.eqb_eq in Hlen.
    assert (Hargs : forall acc s, body_grows s (snd (codegen_args Args acc s))).
    { clear -IH. induction IH as [|a l Ha _ IHl]; intros acc s; simpl;
        [apply body_grows_refl|].
      pose proof (Ha s) as H1. destruct (codegen a s) as [[V|] s1]; simpl in *;
        [|exact H1].
      eapply body_grows_trans; [exact H1 | apply IHl]. }
    pose proof (Hargs [] st) as H1.
    destruct (codegen_args Args [] st) as [[ArgsV|] st1] eqn:HA; simpl in *; [|exact H1].
    eapply body_grows_trans; [exact H1|].
    apply (body_grows_Insert _ "calltmp"); [reflexivity|].
    rewrite (body_grows_arities _ _ H1). apply (getFunction_callee _ _ _ _ HF).
    apply codegen_args_length in HA. simpl in HA. congruence.
Qed.

(** Lowering an expression destroys nothing. *)
Lemma codegen_Undefined e : forall st, Undefined (snd (codegen e st)) = Undefined st.
Proof.
  assert (Hins : forall I Name st, Undefined (snd (Insert I Name st)) = Undefined st)
    by reflexivity.
  assert (Hemit : forall Op L R st,
            Undefined (snd (BinaryExprAST_emit FoldBinOp FoldCmp FoldCast Op L R st))
            = Undefined st).
  { intros Op L R st. unfold BinaryExprAST_emit, CreateBinOp, CreateFCmpULT, CreateUIToFP.
    destruct (Op =? chr "+"); [destruct (FoldBinOp _ _ _); reflexivity|].
    destruct (Op =? chr "-"); [destruct (FoldBinOp _ _ _); reflexivity|].
    destruct (Op =? chr "*"); [destruct (FoldBinOp _ _ _); reflexivity|].
    destruct (Op =? chr "<"); [|reflexivity].
    destruct (FoldCmp L R) as [V|]; [destruct (FoldCast V); reflexivity|].
    simpl. destruct (FoldCast _); reflexivity. }
  induction e as [Val|Name|Op LHS RHS IHL IHR|Callee Args IH] using ExprAST_ind';
    intros st.
  - reflexivity.
  - simpl. unfold VariableExprAST_codegen, NamedValues_index.
    destruct (NamedValues st !! Name) as [[V|]|]; reflexivity.
  - simpl. specialize (IHL st). destruct (codegen LHS st) as [L st1]. simpl in IHL.
    specialize (IHR st1). destruct (codegen RHS st1) as [R st2]. simpl in IHR.
    destruct L as [L|]; [|simpl; congruence]. destruct R as [R|]; [|simpl; congruence].
    rewrite Hemit. congruence.
  - rewrite codegen_call.
    destruct (getFunction Callee st) as [F|]; [|reflexivity].
    destruct (negb _); [reflexivity|].
    assert (Hargs : forall acc s, Undefined (snd (codegen_args Args acc s)) = Undefined s).
    { clear -IH. induction IH as [|a l Ha _ IHl]; intros acc s; simpl; [reflexivity|].
      specialize (Ha s). destruct (codegen a s) as [[V|] s1]; simpl in *; [|exact Ha].
      now rewrite IHl. }
    specialize (Hargs [] st).
    destruct (codegen_args Args [] st) as [[ArgsV|] st1]; simpl in *; exact Hargs.
Qed.

(** *** Lists of functions *)

Lemma NoDup_FId_eq (m : list IRFunction) F G :
  NoDup (map FId m) -> In F m -> In G m -> FId F = FId G -> F = G.
Proof.
  induction m as [|H m IH]; simpl; [intros _ []|].
  intros Hnd HF HG Hid. apply NoDup_cons in Hnd as [Hnotin Hnd].
  assert (Hin : forall X, In X m -> FId X ∈ map FId m).
  { intros X HX. apply list_elem_of_In. apply in_map_iff. now exists X. }
  destruct HF as [<-|HF], HG as [<-|HG]; auto.
  - elim Hnotin. rewrite Hid. now apply Hin.
  - elim Hnotin. rewrite <- Hid. now apply Hin.
Qed.

Lemma update_function_other F f m G :
  In G m -> FId G <> F -> In G (update_function F f m).
Proof.
  intros HG Hne. unfold update_function. apply in_map_iff. exists G.
  split; [|exact HG]. apply Nat.eqb_neq in Hne. now rewrite Hne.
Qed.

Lemma Forall_update_function (P : IRFunction -> Prop) F f m :
  Forall P m -> (forall G, In G m -> FId G = F -> P (f G)) ->
  Forall P (update_function F f m).
Proof.
  intros Hm Hf. apply List.Forall_forall. intros X HX.
  unfold update_function in HX. apply in_map_iff in HX as (G & <- & HG).
  destruct (Nat.eqb (FId G) F) eqn:E.
  - apply Hf; [exact HG | now apply Nat.eqb_eq].
  - rewrite List.Forall_forall in Hm. now apply Hm.
Qed.

Lemma NoDup_map_filter {A B} (g : A -> B) (p : A -> bool) l :
  NoDup (map g l) -> NoDup (map g (List.filter p l)).
Proof.
  induction l as [|a l IH]; simpl; [auto|].
  intros Hnd. apply NoDup_cons in Hnd as [Ha Hnd].
  destruct (p a); [|auto]. simpl. apply NoDup_cons. split; [|auto].
  intros Hin. apply Ha. apply list_elem_of_In in Hin. apply list_elem_of_In.
  apply in_map_iff in Hin as (x & Hx & Hin). apply filter_In in Hin as [Hin _].
  apply in_map_iff. now exists x.
Qed.

Lemma forallb_rev {A} (p : A -> bool) l : forallb p (rev l) = forallb p l.
Proof.
  induction l as [|a l IH]; simpl; [reflexivity|].
  rewrite forallb_app, IH. simpl. rewrite andb_true_r. apply andb_comm.
Qed.

(** *** What [FunctionAST::codegen] does to the module *)

Lemma TheFunction_of_ok P st F st0 :
  TheFunction_of P st = (F, st0) -> module_ok st ->
  module_ok st0 /\ In F (TheModule st0) /\ (NextId st <= NextId st0)%nat /\
  (forall G, In G (TheModule st) -> In G (TheModule st0)) /\
  (Blocks F = [] -> forall G, In G (TheModule st) -> Blocks G <> [] -> FId G <> FId F).
Proof.
  intros HF (Hnd & Hfresh & Hwf). unfold TheFunction_of in HF.
  destruct (getFunction (Name P) st) as [F'|] eqn:E.
  - injection HF as <- <-. apply getFunction_In in E as [HIn _].
    split; [now split|]. split; [exact HIn|]. split; [lia|]. split; [auto|].
    intros Hempty G HG Hbody Hid.
    apply Hbody. rewrite (NoDup_FId_eq _ G F' Hnd HG HIn Hid). exact Hempty.
  - unfold PrototypeAST_codegen, Function_Create in HF.
    destruct (setName _ _ _ _) as [n last]. injection HF as <- <-. simpl.
    unfold ids_fresh in Hfresh.
    split; [split; [|split]|]; simpl.
    + rewrite map_app. simpl. apply NoDup_app. split; [exact Hnd|]. split.
      * intros x Hx Hx'. apply list_elem_of_In in Hx. apply list_elem_of_In in Hx'.
        destruct Hx' as [<-|[]]. apply in_map_iff in Hx as (G & HG & Hin).
        rewrite List.Forall_forall in Hfresh. specialize (Hfresh G Hin). lia.
      * apply NoDup_singleton.
    + unfold ids_fresh. simpl. apply Forall_app. split.
      * eapply Forall_impl; [exact Hfresh|]. simpl. intros; lia.
      * constructor; [simpl; lia | constructor].
    + apply Forall_app. split; [exact Hwf | now constructor].
    + split; [apply in_or_app; right; now left|].
      split; [lia|]. split; [intros G HG; apply in_or_app; now left|].
      intros _ G HG _. simpl. rewrite List.Forall_forall in Hfresh.
      specialize (Hfresh G HG). lia.
Qed.

Lemma FunctionAST_codegen_ok Fn st r st' :
  FunctionAST_codegen Fn st = (r, st') -> module_ok st ->
  module_ok st' /\ bodies_kept st st' /\
  (forall id, r = Some id ->
     forall G, In G (TheModule st) -> Blocks G <> [] -> FId G <> id).
Proof.
  intros H Hok. rewrite FunctionAST_codegen_eq in H.
  destruct (TheFunction_of (Proto Fn) st) as [F st0] eqn:HF.
  destruct (TheFunction_of_ok _ _ _ _ HF Hok)
    as ((Hnd0 & Hfresh0 & Hwf0) & HIn & Hn0 & Hsub & Hother).
  destruct (Nat.eqb (length (Blocks F)) 0) eqn:Hlen; cbn [negb] in H; cbv iota in H.
  2:{ injection H as <- <-. split; [now split|]. split; [|discriminate].
      intros G HG _. now apply Hsub. }
  assert (Hempty : Blocks F = []).
  { apply Nat.eqb_eq in Hlen. now destruct (Blocks F). }
  specialize (Hother Hempty).
  destruct (body_entry_spec F st0) as (Hip & _ & Hmod & _ & _ & Hn1).
  pose proof (codegen_body_grows (Body Fn) (body_entry F st0)) as Hgrow.
  pose proof (codegen_lowered FoldBinOp FoldCmp FoldCast (Body Fn) (body_entry F st0)) as Hlow.
  destruct (codegen (Body Fn) (body_entry F st0)) as [[RetVal|] st2];
    simpl in Hgrow, Hlow.
  - set (st3 := verifyFunction (snd (CreateRet RetVal st2)) (FId F)) in H.
    assert (Hn3 : NextId st3 = S (NextId st2)) by reflexivity.
    destruct Hgrow as (Hip2 & Hn2 & new & Hm2 & Hnr).
    assert (Hm : TheModule st3 =
              update_function (FId F)
                (fun G => append_inst 0 (NextId st2, ReturnInst RetVal)
                            (append_insts 0 new (add_entry G)))
                (TheModule st0)).
    { unfold st3, CreateRet, Insert. simpl. rewrite Hip2, Hip, Hm2, Hip, Hmod, Hempty. simpl.
      now rewrite !update_function_compose by reflexivity. }
    clearbody st3. injection H as <- <-.
    split; [split; [|split]|split].
    + rewrite Hm, update_function_FId by reflexivity. exact Hnd0.
    + unfold ids_fresh. rewrite Hm. apply Forall_update_function.
      * eapply Forall_impl; [exact Hfresh0|]. simpl. intros; lia.
      * intros G HG _. simpl. unfold ids_fresh in Hfresh0.
        rewrite List.Forall_forall in Hfresh0. specialize (Hfresh0 G HG). lia.
    + rewrite Hm. apply Forall_update_function; [exact Hwf0|].
      intros G HG Hid. rewrite (NoDup_FId_eq _ G F Hnd0 HG HIn Hid).
      unfold well_formed, append_inst, append_insts, add_entry. simpl.
      rewrite Hempty. simpl. unfold closed_block. simpl.
      rewrite rev_app_distr. simpl. now rewrite forallb_rev.
    + intros G HG Hbody. rewrite Hm. apply update_function_other; [now apply Hsub|].
      now apply Hother.
    + intros id [= <-]. exact Hother.
  - pose proof (erase_after_body F st0 st2 Hlow) as Herase.
    destruct Hgrow as (_ & Hn2 & _).
    assert (Hn3 : NextId (eraseFromParent (FId F) st2) = NextId st2) by reflexivity.
    set (st3 := eraseFromParent (FId F) st2) in *. clearbody st3.
    injection H as <- <-.
    split; [split; [|split]|split].
    + rewrite Herase. now apply NoDup_map_filter.
    + unfold ids_fresh. rewrite Herase. apply List.Forall_forall. intros G HG.
      apply filter_In in HG as [HG _]. unfold ids_fresh in Hfresh0.
      rewrite List.Forall_forall in Hfresh0. specialize (Hfresh0 G HG).
      simpl. lia.
    + rewrite Herase. apply List.Forall_forall. intros G HG.
      apply filter_In in HG as [HG _]. rewrite List.Forall_forall in Hwf0. now apply Hwf0.
    + intros G HG Hbody. rewrite Herase. apply filter_In. split; [now apply Hsub|].
      apply negb_true_iff, Nat.eqb_neq. now apply Hother.
    + discriminate.
Qed.

(** *** Calls and their callees *)

Lemma callee_in_incl (ids ids' : list (nat * nat)) I :
  (forall x, In x ids -> In x ids') -> callee_in ids I = true -> callee_in ids' I = true.
Proof.
  intros Hsub. destruct I; simpl; auto.
  intros H. apply existsb_exists in H as (x & Hx & Heq).
  apply existsb_exists. exists x. auto.
Qed.

Lemma fn_resolved_incl (ids ids' : list (nat * nat)) G :
  (forall x, In x ids -> In x ids') -> fn_resolved ids G -> fn_resolved ids' G.
Proof.
  intros Hsub HG. unfold fn_resolved in *.
  eapply Forall_impl; [exact HG|]. intros B HB. simpl in HB.
  eapply Forall_impl; [exact HB|]. intros J. now apply callee_in_incl.
Qed.

Lemma fn_resolved_append_insts ids BB new G :
  fn_resolved ids G -> Forall (fun J => callee_in ids (snd J) = true) new ->
  fn_resolved ids (append_insts BB new G).
Proof.
  intros HG Hnew. unfold fn_resolved, append_insts. simpl.
  apply Forall_alter; [exact HG|]. intros B _ HB. simpl.
  apply Forall_app. now split.
Qed.

Lemma calls_resolved_update F f m :
  (forall G, FId (f G) = FId G /\ FArgs (f G) = FArgs G) ->
  (forall G, fn_resolved (arities m) G -> fn_resolved (arities m) (f G)) ->
  calls_resolved m -> calls_resolved (update_function F f m).
Proof.
  intros Hid Hf Hm. unfold calls_resolved.
  rewrite update_function_arities by exact Hid.
  apply Forall_update_function; [exact Hm|].
  intros G HG _. apply Hf. unfold calls_resolved in Hm.
  rewrite List.Forall_forall in Hm. now apply Hm.
Qed.

Lemma calls_resolved_emit ip new m :
  calls_resolved m -> Forall (fun J => callee_in (arities m) (snd J) = true) new ->
  calls_resolved (emit ip new m).
Proof.
  intros Hm Hnew. destruct ip as [[F BB]|]; [|exact Hm]. simpl.
  apply calls_resolved_update; [now split | | exact Hm].
  intros G HG. now apply fn_resolved_append_insts.
Qed.

Lemma calls_resolved_add m F :
  calls_resolved m -> Blocks F = [] -> calls_resolved (m ++ [F]).
Proof.
  intros Hm Hempty. unfold calls_resolved, arities. rewrite map_app. apply Forall_app. split.
  - eapply Forall_impl; [exact Hm|]. intros G. apply fn_resolved_incl.
    intros x Hx. apply in_or_app. now left.
  - constructor; [|constructor]. unfold fn_resolved. rewrite Hempty. constructor.
Qed.

(** Once a function without users is taken out, no call is left without
    its callee. *)
Lemma calls_resolved_erase F m :
  calls_resolved m -> has_users F m = false ->
  calls_resolved (List.filter (fun G => negb (Nat.eqb (FId G) F)) m).
Proof.
  intros Hm Hnone. unfold calls_resolved in *. rewrite List.Forall_forall in Hm.
  apply List.Forall_forall. intros G HG. apply filter_In in HG as [HG Hne].
  specialize (Hm G HG). unfold fn_resolved in *.
  rewrite List.Forall_forall in Hm. apply List.Forall_forall. intros B HB.
  specialize (Hm B HB). rewrite List.Forall_forall in Hm.
  apply List.Forall_forall. intros J HJ. specialize (Hm J HJ).
  destruct (snd J) as [| | |Callee Args|] eqn:EJ; simpl in *; auto.
  apply existsb_exists in Hm as (x & Hx & Heq).
  apply existsb_exists. exists x. split; [|exact Heq].
  apply andb_true_iff in Heq as [Heq _]. apply Nat.eqb_eq in Heq.
  unfold arities in *.
  apply in_map_iff in Hx as (C & HC & HCin). apply in_map_iff. exists C.
  split; [exact HC|]. apply filter_In. split; [exact HCin|].
  subst x. simpl in Heq.
  apply negb_true_iff, Nat.eqb_neq. intros Heq'.
  assert (Hfalse : has_users F m = true); [|congruence].
  unfold has_users. apply existsb_exists. exists G. split; [exact HG|].
  rewrite Hne. simpl. apply existsb_exists. exists B. split; [exact HB|].
  apply existsb_exists. exists J. split; [exact HJ|].
  rewrite EJ. simpl. apply Nat.eqb_eq. congruence.
Qed.

Lemma TheFunction_of_Undefined P st F st0 :
  TheFunction_of P st = (F, st0) -> Undefined st0 = Undefined st.
Proof.
  unfold TheFunction_of. destruct (getFunction (Name P) st); [now intros [= <- <-]|].
  unfold PrototypeAST_codegen, Function_Create.
  destruct (setName _ _ _ _). now intros [= <- <-].
Qed.

Lemma TheFunction_of_resolved P st F st0 :
  TheFunction_of P st = (F, st0) -> calls_resolved (TheModule st) ->
  calls_resolved (TheModule st0) /\ Undefined st0 = Undefined st.
Proof.
  intros HF Hm.
  destruct (TheFunction_of_spec _ _ _ _ HF) as (_ & _ & _ & [[_ ->]|(_ & _ & Hempty & Hm0)]);
    [now split|].
  split; [rewrite Hm0; now apply calls_resolved_add|].
  unfold TheFunction_of in HF. destruct (getFunction (Name P) st); [now injection HF as <- <-|].
  unfold PrototypeAST_codegen, Function_Create in HF.
  destruct (setName _ _ _ _). now injection HF as <- <-.
Qed.

Lemma body_entry_resolved F st :
  calls_resolved (TheModule st) -> calls_resolved (TheModule (body_entry F st)).
Proof.
  intros Hm. destruct (body_entry_spec F st) as (_ & _ & -> & _).
  apply calls_resolved_update; [now split | | exact Hm].
  intros G HG. unfold fn_resolved in *. simpl. apply Forall_app. split; [exact HG|].
  now repeat constructor.
Qed.

(** As long as nothing is destroyed that has users, every call of the
    module keeps its callee. *)
Lemma FunctionAST_codegen_resolved Fn st r st' :
  FunctionAST_codegen Fn st = (r, st') -> calls_resolved (TheModule st) ->
  Undefined st' = false ->
  calls_resolved (TheModule st') /\ Undefined st = false.
Proof.
  intros H Hm Hdef. rewrite FunctionAST_codegen_eq in H.
  destruct (TheFunction_of (Proto Fn) st) as [F st0] eqn:HF.
  destruct (TheFunction_of_resolved _ _ _ _ HF Hm) as [Hm0 Hu0].
  destruct (negb (Nat.eqb (length (Blocks F)) 0)).
  { injection H as <- <-. simpl in *. split; [exact Hm0 | congruence]. }
  pose proof (codegen_body_grows (Body Fn) (body_entry F st0)) as Hgrow.
  pose proof (codegen_Undefined (Body Fn) (body_entry F st0)) as Hu2.
  assert (Hbe : Undefined (body_entry F st0) = Undefined st0) by reflexivity.
  pose proof (body_entry_resolved F st0 Hm0) as Hm1.
  assert (Hm2 : calls_resolved (TheModule (snd (codegen (Body Fn) (body_entry F st0))))).
  { destruct Hgrow as (_ & _ & new & -> & _ & Hc). now apply calls_resolved_emit. }
  destruct (codegen (Body Fn) (body_entry F st0)) as [[RetVal|] st2]; cbn [fst snd] in *.
  - injection H as <- <-. simpl in Hdef. split; [|congruence].
    change (calls_resolved (emit (InsertPoint st2) [(NextId st2, ReturnInst RetVal)]
                                 (TheModule st2))).
    apply calls_resolved_emit; [exact Hm2|]. now repeat constructor.
  - injection H as <- <-. simpl in Hdef. apply orb_false_iff in Hdef as [Hdef Hnone].
    split; [|congruence]. simpl. now apply calls_resolved_erase.
Qed.

Lemma eraseFromParent_ok id st st' :
  module_ok st -> bodies_kept st' st ->
  (forall G, In G (TheModule st') -> Blocks G <> [] -> FId G <> id) ->
  module_ok (eraseFromParent id st) /\ bodies_kept st' (eraseFromParent id st).
Proof.
  intros (Hnd & Hfresh & Hwf) Hkept Hid. unfold eraseFromParent. split; [split; [|split]|].
  - simpl. now apply NoDup_map_filter.
  - unfold ids_fresh in *. simpl. apply List.Forall_forall. intros G HG.
    apply filter_In in HG as [HG _]. rewrite List.Forall_forall in Hfresh. now apply Hfresh.
  - simpl. apply List.Forall_forall. intros G HG.
    apply filter_In in HG as [HG _]. rewrite List.Forall_forall in Hwf. now apply Hwf.
  - intros G HG Hbody. simpl. apply filter_In. split; [now apply Hkept|].
    apply negb_true_iff, Nat.eqb_neq. now apply Hid.
Qed.

Lemma PrototypeAST_codegen_ok P st :
  module_ok st ->
  module_ok (snd (PrototypeAST_codegen P st)) /\
  bodies_kept st (snd (PrototypeAST_codegen P st)).
Proof.
  intros (Hnd & Hfresh & Hwf). unfold PrototypeAST_codegen, Function_Create.
  destruct (setName _ _ _ _) as [n last]. unfold ids_fresh in Hfresh.
  split; [split; [|split]|]; simpl.
  - rewrite map_app. simpl. apply NoDup_app. split; [exact Hnd|]. split.
    + intros x Hx Hx'. apply list_elem_of_In in Hx. apply list_elem_of_In in Hx'.
      destruct Hx' as [<-|[]]. apply in_map_iff in Hx as (G & HG & Hin).
      rewrite List.Forall_forall in Hfresh. specialize (Hfresh G Hin). lia.
    + apply NoDup_singleton.
  - unfold ids_fresh. simpl. apply Forall_app. split.
    + eapply Forall_impl; [exact Hfresh|]. simpl. intros; lia.
    + constructor; [simpl; lia | constructor].
  - apply Forall_app. split; [exact Hwf | now constructor].
  - intros G HG _. simpl. apply in_or_app. now left.
Qed.

(** The module once the function [FunctionAST::codegen] worked on is
    taken out again: it is the module before, without that function. *)
Lemma FunctionAST_codegen_erased P B st :
  getFunction (Name P) st = None -> ids_fresh st ->
  let r := FunctionAST_codegen (mkFunctionAST P B) st in
  match fst r with
  | Some FnIR => TheModule (eraseFromParent FnIR (snd r)) = TheModule st
  | None => TheModule (snd r) = TheModule st
  end.
Proof.
  intros Hget Hfresh. cbv zeta. rewrite FunctionAST_codegen_eq. cbn [Proto Body].
  destruct (TheFunction_of P st) as [F st0] eqn:HF.
  destruct (TheFunction_of_spec _ _ _ _ HF) as (_ & _ & _ & [[Hsome _]|(_ & Hid & Hempty & Hm0)]);
    [congruence|].
  rewrite Hempty. cbn [length Nat.eqb negb].
  assert (Hfilter : List.filter (fun G => negb (Nat.eqb (FId G) (FId F))) (TheModule st0)
                    = TheModule st).
  { rewrite Hm0, List.filter_app. simpl. rewrite Nat.eqb_refl. simpl.
    rewrite app_nil_r, Hid. now apply filter_fresh_id. }
  pose proof (codegen_lowered FoldBinOp FoldCmp FoldCast B (body_entry F st0)) as Hlow.
  destruct (codegen B (body_entry F st0)) as [[RetVal|] st2]; cbn [fst snd] in *.
  - assert (Hlow' : lowered (body_entry F st0) (snd (CreateRet RetVal st2))).
    { eapply lowered_trans; [exact Hlow | apply lowered_Insert]. }
    apply erase_after_body in Hlow'. rewrite <- Hfilter, <- Hlow'. reflexivity.
  - apply erase_after_body in Hlow. now rewrite <- Hfilter, <- Hlow.
Qed.

(** *** Definitions, result by result *)

Lemma has_users_update F f m :
  (forall G, FId (f G) = FId G) ->
  has_users F (update_function F f m) = has_users F m.
Proof.
  intros Hf. unfold has_users, update_function.
  induction m as [|G m IH]; simpl; [reflexivity|]. rewrite IH. f_equal.
  destruct (Nat.eqb (FId G) F) eqn:E; [|now rewrite E].
  now rewrite Hf, E.
Qed.

Lemma has_users_own F m G :
  FId G = F -> has_users F (m ++ [G]) = has_users F m.
Proof.
  intros HG. unfold has_users. rewrite existsb_app. simpl.
  rewrite HG, Nat.eqb_refl. simpl. now rewrite orb_false_r.
Qed.

(** The users of the function a definition works on are those it had
    before the definition: the body under construction is its own. *)
Lemma has_users_body P st F st0 st2 :
  TheFunction_of P st = (F, st0) -> body_grows (body_entry F st0) st2 ->
  has_users (FId F) (TheModule st2) = has_users (FId F) (TheModule st).
Proof.
  intros HF (_ & _ & new & Hm & _).
  destruct (body_entry_spec F st0) as (Hip & _ & Hmod & _).
  rewrite Hm, Hip, Hmod. simpl. rewrite !has_users_update by reflexivity.
  destruct (TheFunction_of_spec _ _ _ _ HF) as (_ & _ & _ & [[_ ->]|(_ & _ & _ & ->)]);
    [reflexivity|].
  now apply has_users_own.
Qed.

(** A function that is newer than every call of the module has no
    users. *)
Lemma has_users_fresh st :
  ids_fresh st -> calls_resolved (TheModule st) ->
  has_users (NextId st) (TheModule st) = false.
Proof.
  intros Hfresh Hres. unfold has_users.
  destruct (existsb _ (TheModule st)) eqn:E; [|reflexivity]. exfalso.
  apply existsb_exists in E as (G & HG & E). apply andb_true_iff in E as [_ E].
  apply existsb_exists in E as (B & HB & E). apply existsb_exists in E as (J & HJ & E).
  unfold calls_resolved in Hres. rewrite List.Forall_forall in Hres.
  specialize (Hres G HG). unfold fn_resolved in Hres.
  rewrite List.Forall_forall in Hres. specialize (Hres B HB).
  rewrite List.Forall_forall in Hres. specialize (Hres J HJ).
  destruct (snd J) as [| | |Callee Args|]; simpl in E; try discriminate.
  apply Nat.eqb_eq in E. subst Callee. simpl in Hres.
  apply existsb_exists in Hres as (x & Hx & Heq).
  apply andb_true_iff in Heq as [Heq _]. apply Nat.eqb_eq in Heq.
  unfold arities in Hx. apply in_map_iff in Hx as (C & HC & HCin).
  subst x. simpl in Heq.
  unfold ids_fresh in Hfresh. rewrite List.Forall_forall in Hfresh.
  specialize (Hfresh C HCin). lia.
Qed.

(** C3.  A definition for a name the module has a function under.  When
    that function has a body, lowering returns null and writes the line
    of the redefinition error; nothing else changes.  When it is a
    declaration only (as an import leaves it), that very function is given
    the body: lowering returns it, its one block holds what the body
    emitted ([body], as the state after the body has it) and then the
    return of the body's value, no function is made or removed, no error is written, and [verifyFunction] has run on it;
    whenever the body lowers.  The parameters of the definition are not
    compared with those of the declaration. *)
Theorem FunctionAST_codegen_redefinition P B st F :
  getFunction (Name P) st = Some F ->
  (Blocks F <> [] ->
   FunctionAST_codegen (mkFunctionAST P B) st =
     (None,
      mkCodeGen (TheModule st) (LastUnique st) (NextId st) (InsertPoint st)
                (NamedValues st)
                (Errs st ++ ["Error: Function cannot be redefined"%string])
                (Verified st) (Undefined st))) /\
  (Blocks F = [] ->
   forall RetVal st2,
     codegen B (body_entry F st) = (Some RetVal, st2) ->
     exists st' body,
       FunctionAST_codegen (mkFunctionAST P B) st = (Some (FId F), st') /\
       In (mkIRFunction (FId F) (FName F) (FArgs F) [mkBasicBlock body])
          (TheModule st2) /\
       In (mkIRFunction (FId F) (FName F) (FArgs F)
             [mkBasicBlock (body ++ [(NextId st2, ReturnInst RetVal)])])
          (TheModule st') /\
       map (fun G => (FId G, FName G, FArgs G)) (TheModule st') =
         map (fun G => (FId G, FName G, FArgs G)) (TheModule st) /\
       Errs st' = Errs st /\ Verified st' = Verified st ++ [FId F] /\
       Undefined st' = Undefined st).
Proof.
  intros Hget.
  assert (HF : TheFunction_of P st = (F, st)) by (unfold TheFunction_of; now rewrite Hget).
  split.
  - intros Hbody. rewrite FunctionAST_codegen_eq. simpl. rewrite HF.
    destruct (Blocks F); [congruence|]. reflexivity.
  - intros Hempty RetVal st2 Hbody.
    pose proof (codegen_lowered FoldBinOp FoldCmp FoldCast B (body_entry F st)) as Hlow.
    pose proof (codegen_errs FoldBinOp FoldCmp FoldCast B (body_entry F st)) as Herr.
    pose proof (codegen_Undefined B (body_entry F st)) as Hu.
    rewrite Hbody in Hlow, Herr, Hu. cbn [fst snd null_with_error] in Hlow, Herr, Hu.
    apply getFunction_In in Hget as [HIn _].
    destruct (ret_after_body F st st2 RetVal Hempty HIn Hlow) as (body & Hin2 & Hin).
    eexists. exists body. split; [|split; [|split; [|split; [|split; [|split]]]]].
    + rewrite FunctionAST_codegen_eq. simpl. rewrite HF, Hempty. simpl.
      rewrite Hbody. reflexivity.
    + exact Hin2.
    + exact Hin.
    + change (map signature (TheModule (verifyFunction (snd (CreateRet RetVal st2)) (FId F)))
              = map signature (TheModule st)).
      destruct Hlow as (Hip2 & _ & _ & _ & [new Hm] & _).
      destruct (body_entry_spec F st) as (Hip & _ & Hmod & _).
      unfold CreateRet, Insert. simpl. rewrite Hip2, Hip, Hm, Hip, Hmod. simpl.
      rewrite !update_function_signature by reflexivity. reflexivity.
    + simpl. exact Herr.
    + simpl. destruct Hlow as (_ & _ & Hv & _). now rewrite Hv.
    + simpl. exact Hu.
Qed.

(** C5.  [FunctionAST::codegen] on a function without a body.  It lowers
    the body in the state [body_entry]: the entry block is there, the
    builder points at it, [NamedValues] holds the parameters only.  When
    the body lowers to a value, the result is the function, whose entry
    block is what the body emitted followed by the return of that value,
    and [verifyFunction] has run on it.  When the body fails, the result is null and the function is
    erased: no function of its identity is left, and the module holds the
    other functions it held before, unchanged.  So the module is all as it
    was when the name was new; but a declaration that an earlier import
    made for the name is erased with the failed body, and when other
    functions call that declaration it is destroyed while in use. *)
Theorem FunctionAST_codegen_all_or_nothing Fn st F st0 :
  TheFunction_of (Proto Fn) st = (F, st0) ->
  Blocks F = [] ->
  InsertPoint (body_entry F st0) = Some (FId F, 0%nat) /\
  NamedValues (body_entry F st0) = record_args (FId F) (FArgs F) 0 ∅ /\
  In (mkIRFunction (FId F) (FName F) (FArgs F) [mkBasicBlock []])
     (TheModule (body_entry F st0)) /\
  (forall RetVal st2,
     codegen (Body Fn) (body_entry F st0) = (Some RetVal, st2) ->
     exists st' body,
       FunctionAST_codegen Fn st = (Some (FId F), st') /\
       In (mkIRFunction (FId F) (FName F) (FArgs F) [mkBasicBlock body])
          (TheModule st2) /\
       In (mkIRFunction (FId F) (FName F) (FArgs F)
             [mkBasicBlock (body ++ [(NextId st2, ReturnInst RetVal)])])
          (TheModule st') /\
       Verified st' = Verified st ++ [FId F] /\
       Undefined st' = Undefined st) /\
  (forall st2,
     codegen (Body Fn) (body_entry F st0) = (None, st2) ->
     exists st',
       FunctionAST_codegen Fn st = (None, st') /\
       (forall G, In G (TheModule st') -> FId G <> FId F) /\
       TheModule st' =
         List.filter (fun G => negb (Nat.eqb (FId G) (FId F))) (TheModule st) /\
       Undefined st' = Undefined st || has_users (FId F) (TheModule st) /\
       (getFunction (Name (Proto Fn)) st = None -> ids_fresh st ->
        TheModule st' = TheModule st /\
        (calls_resolved (TheModule st) -> Undefined st' = Undefined st)) /\
       (getFunction (Name (Proto Fn)) st = Some F -> ~ In F (TheModule st'))).
Proof.
  intros HF Hempty.
  destruct (TheFunction_of_spec _ _ _ _ HF) as (HIn & _ & Hver & Hcase).
  destruct (body_entry_spec F st0) as (Hip & Hnv & Hmod & _ & Hver1 & _).
  assert (Hu0 : Undefined (body_entry F st0) = Undefined st).
  { now rewrite <- (TheFunction_of_Undefined _ _ _ _ HF). }
  split; [now rewrite Hip, Hempty|]. split; [exact Hnv|]. split.
  { rewrite Hmod.
    pose proof (update_function_In (FId F)
      (fun G => mkIRFunction (FId G) (FName G) (FArgs G)
                             (Blocks G ++ [mkBasicBlock []]))
      (TheModule st0) F HIn eq_refl) as H.
    simpl in H. now rewrite Hempty in H. }
  split.
  - intros RetVal st2 Hbody.
    pose proof (codegen_lowered FoldBinOp FoldCmp FoldCast (Body Fn) (body_entry F st0)) as Hlow.
    pose proof (codegen_Undefined (Body Fn) (body_entry F st0)) as Hu.
    rewrite Hbody in Hlow, Hu. simpl in Hlow. cbn [snd] in Hu.
    destruct (ret_after_body F st0 st2 RetVal Hempty HIn Hlow) as (body & Hin2 & Hin).
    eexists. exists body. split; [|split; [|split; [|split]]].
    + rewrite FunctionAST_codegen_eq, HF, Hempty. simpl. rewrite Hbody. reflexivity.
    + exact Hin2.
    + exact Hin.
    + simpl. destruct Hlow as (_ & _ & Hv & _). now rewrite Hv, Hver1, Hver.
    + simpl. congruence.
  - intros st2 Hbody.
    pose proof (codegen_lowered FoldBinOp FoldCmp FoldCast (Body Fn) (body_entry F st0)) as Hlow.
    pose proof (codegen_body_grows (Body Fn) (body_entry F st0)) as Hgrow.
    pose proof (codegen_Undefined (Body Fn) (body_entry F st0)) as Hu.
    rewrite Hbody in Hlow, Hgrow, Hu. simpl in Hlow, Hgrow. cbn [snd] in Hu.
    pose proof (erase_after_body F st0 st2 Hlow) as Herase.
    pose proof (has_users_body _ _ _ _ _ HF Hgrow) as Husers.
    assert (Hfilter : TheModule (eraseFromParent (FId F) st2) =
              List.filter (fun G => negb (Nat.eqb (FId G) (FId F))) (TheModule st)).
    { rewrite Herase. destruct Hcase as [[_ ->]|(_ & Hid & _ & ->)]; [reflexivity|].
      rewrite List.filter_app. simpl. rewrite Nat.eqb_refl. simpl.
      now rewrite app_nil_r. }
    assert (Hflag : Undefined (eraseFromParent (FId F) st2) =
                    Undefined st || has_users (FId F) (TheModule st)).
    { simpl. now rewrite Husers, Hu, Hu0. }
    eexists. split; [|split; [|split; [|split; [|split]]]].
    + rewrite FunctionAST_codegen_eq, HF, Hempty. simpl. rewrite Hbody. reflexivity.
    + intros G. apply eraseFromParent_gone.
    + exact Hfilter.
    + exact Hflag.
    + intros Hnew Hfresh.
      destruct Hcase as [[Hsome _]|(_ & Hid & _)]; [congruence|]. split.
      * rewrite Hfilter, Hid. now apply filter_fresh_id.
      * intros Hres. rewrite Hflag, Hid, has_users_fresh by assumption.
        apply orb_false_r.
    + intros _ Hin. now apply eraseFromParent_gone in Hin.
Qed.

End ModuleInvariants.

(** ** The driver *)

Section DriverProperties.

Variable strtod : string -> double.
Variable FoldBinOp : Opcode -> Value -> Value -> option Value.
Variable FoldCmp : Value -> Value -> option Value.
Variable FoldCast : Value -> option Value.

#[local] Abbreviation HandleDefinition :=
  (HandleDefinition strtod FoldBinOp FoldCmp FoldCast).
#[local] Abbreviation HandleExtern := (HandleExtern strtod).
#[local] Abbreviation HandleTopLevelExpression :=
  (HandleTopLevelExpression strtod FoldBinOp FoldCmp FoldCast).
#[local] Abbreviation MainLoop := (MainLoop strtod FoldBinOp FoldCmp FoldCast).
#[local] Abbreviation main := (main strtod FoldBinOp FoldCmp FoldCast).
#[local] Abbreviation skip_token := (skip_token strtod).
#[local] Abbreviation FunctionAST_codegen :=
  (FunctionAST_codegen FoldBinOp FoldCmp FoldCast).

(** *** The driver returns *)

Lemma HandleDefinition_fuel f f' d r :
  (f <= f')%nat -> HandleDefinition f d = Some r -> HandleDefinition f' d = Some r.
Proof.
  intros Hle. unfold HandleDefinition.
  destruct (ParseFunDef strtod f (Front d)) as [[r0 p]|] eqn:E; [|discriminate].
  now rewrite (ParseFunDef_fuel strtod f f' _ _ Hle E).
Qed.

Lemma HandleExtern_fuel f f' d r :
  (f <= f')%nat -> HandleExtern f d = Some r -> HandleExtern f' d = Some r.
Proof.
  intros Hle. unfold HandleExtern.
  destruct (ParseImport strtod f (Front d)) as [[r0 p]|] eqn:E; [|discriminate].
  now rewrite (ParseImport_fuel strtod f f' _ _ Hle E).
Qed.

Lemma HandleTopLevelExpression_fuel f f' d r :
  (f <= f')%nat -> HandleTopLevelExpression f d = Some r ->
  HandleTopLevelExpression f' d = Some r.
Proof.
  intros Hle. unfold HandleTopLevelExpression.
  destruct (ParseTopLevelExpr strtod f (Front d)) as [[r0 p]|] eqn:E; [|discriminate].
  now rewrite (ParseTopLevelExpr_fuel strtod f f' _ _ Hle E).
Qed.

Lemma MainLoop_S f d :
  MainLoop (S f) d =
  let d := fprintf d "is-> " in
  let tok := CurTok (Front d) in
  if tok =? tok_eof then Some d
  else
    match (if tok =? chr ";" then skip_token d
           else if tok =? tok_fun then HandleDefinition f d
           else if tok =? tok_imp then HandleExtern f d
           else HandleTopLevelExpression f d) with
    | None => None
    | Some d => if Undefined (Back d) then Some d else MainLoop f d
    end.
Proof. reflexivity. Qed.

Lemma MainLoop_fuel_S : forall f d r,
  MainLoop f d = Some r -> MainLoop (S f) d = Some r.
Proof.
  induction f as [|f IH]; intros d r; [discriminate|].
  rewrite (MainLoop_S (S f)), (MainLoop_S f). cbv zeta.
  destruct (CurTok (Front (fprintf d "is-> ")) =? tok_eof); [auto|].
  destruct (CurTok (Front (fprintf d "is-> ")) =? chr ";").
  { destruct (skip_token _) as [d1|]; [|discriminate].
    destruct (Undefined (Back d1)); [auto | apply IH]. }
  destruct (CurTok (Front (fprintf d "is-> ")) =? tok_fun).
  { destruct (HandleDefinition f _) as [d1|] eqn:E; [|discriminate].
    rewrite (HandleDefinition_fuel f (S f) _ _ ltac:(lia) E).
    destruct (Undefined (Back d1)); [auto | apply IH]. }
  destruct (CurTok (Front (fprintf d "is-> ")) =? tok_imp).
  { destruct (HandleExtern f _) as [d1|] eqn:E; [|discriminate].
    rewrite (HandleExtern_fuel f (S f) _ _ ltac:(lia) E).
    destruct (Undefined (Back d1)); [auto | apply IH]. }
  destruct (HandleTopLevelExpression f _) as [d1|] eqn:E; [|discriminate].
  rewrite (HandleTopLevelExpression_fuel f (S f) _ _ ltac:(lia) E).
  destruct (Undefined (Back d1)); [auto | apply IH].
Qed.

Lemma MainLoop_fuel f f' d r :
  (f <= f')%nat -> MainLoop f d = Some r -> MainLoop f' d = Some r.
Proof.
  intros Hle. induction Hle as [|k Hle IH]; [auto|].
  intros H. now apply MainLoop_fuel_S, IH.
Qed.

Lemma skip_token_halts d :
  exists d', skip_token d = Some d' /\ Back d' = Back d /\
             no_give_back (Front d) (Front d') /\
             (CurTok (Front d) <> tok_eof ->
              (unread (Front d') < unread (Front d))%nat).
Proof.
  unfold skip_token.
  destruct (getNextToken_unread strtod (Front d)) as (t & p & H & _ & Hle & Hlt).
  rewrite H. eexists. split; [reflexivity|]. simpl. auto.
Qed.

Lemma HandleDefinition_halts d :
  CurTok (Front d) <> tok_eof ->
  exists f d', HandleDefinition f d = Some d' /\
               (unread (Front d') < unread (Front d))%nat.
Proof.
  intros Htok. unfold HandleDefinition.
  destruct (ParseFunDef_halts strtod (Front d) Htok) as (f & r & p & H & Hlt).
  exists f. rewrite H. destruct r as [FnAST|].
  - destruct (FunctionAST_codegen FnAST (Back d)) as [[FnIR|] g];
      eexists; (split; [reflexivity | exact Hlt]).
  - destruct (skip_token_halts (mkDriver p (Back d) (Console d)))
      as (d' & -> & _ & [Hle _] & _).
    exists d'. split; [reflexivity|]. simpl in Hle. lia.
Qed.

Lemma HandleExtern_halts d :
  CurTok (Front d) <> tok_eof ->
  exists f d', HandleExtern f d = Some d' /\
               (unread (Front d') < unread (Front d))%nat.
Proof.
  intros Htok. unfold HandleExtern.
  destruct (ParseImport_halts strtod (Front d) Htok) as (f & r & p & H & Hlt).
  exists f. rewrite H. destruct r as [ProtoAST|].
  - destruct (PrototypeAST_codegen ProtoAST (Back d)) as [FnIR g].
    eexists. split; [reflexivity | exact Hlt].
  - destruct (skip_token_halts (mkDriver p (Back d) (Console d)))
      as (d' & -> & _ & [Hle _] & _).
    exists d'. split; [reflexivity|]. simpl in Hle. lia.
Qed.

Lemma HandleTopLevelExpression_halts d :
  CurTok (Front d) <> tok_eof ->
  exists f d', HandleTopLevelExpression f d = Some d' /\
               (unread (Front d') < unread (Front d))%nat.
Proof.
  intros Htok. unfold HandleTopLevelExpression.
  destruct (ParseTopLevelExpr_halts strtod (Front d)) as (f & r & p & H & [Hle Heq] & Hlt).
  exists f. rewrite H. destruct r as [FnAST|].
  - assert (Hs : (unread p < unread (Front d))%nat) by (apply Hlt; discriminate).
    destruct (FunctionAST_codegen FnAST (Back d)) as [[FnIR|] g];
      eexists; (split; [reflexivity | exact Hs]).
  - destruct (skip_token_halts (mkDriver p (Back d) (Console d)))
      as (d' & -> & _ & [Hle' _] & Hlt').
    exists d'. split; [reflexivity|]. simpl in Hle', Hlt'.
    destruct (Nat.eq_dec (unread p) (unread (Front d))) as [E|E]; [|lia].
    rewrite <- E. apply Hlt'. now rewrite Heq.
Qed.

(** The loop ends: at the end of the input, or where the behaviour of
    the program became undefined. *)
Lemma MainLoop_halts : forall n d, unread (Front d) = n ->
  exists f d', MainLoop f d = Some d' /\
               (Undefined (Back d') = true \/ CurTok (Front d') = tok_eof).
Proof.
  induction n as [n IH] using lt_wf_ind. intros d Hn. subst n.
  set (d0 := fprintf d "is-> ").
  assert (Hstep : forall f d1,
            (unread (Front d1) < unread (Front d0))%nat ->
            (if CurTok (Front d0) =? chr ";" then skip_token d0
             else if CurTok (Front d0) =? tok_fun then HandleDefinition f d0
             else if CurTok (Front d0) =? tok_imp then HandleExtern f d0
             else HandleTopLevelExpression f d0) = Some d1 ->
            (CurTok (Front d0) =? tok_eof) = false ->
            exists f' d', MainLoop f' d = Some d' /\
               (Undefined (Back d') = true \/ CurTok (Front d') = tok_eof)).
  { intros f d1 Hlt H Heof.
    destruct (Undefined (Back d1)) eqn:Hu.
    { exists (S f), d1. split; [|now left].
      rewrite MainLoop_S. cbv zeta. fold d0. rewrite Heof, H. now rewrite Hu. }
    destruct (IH _ Hlt d1 eq_refl) as (f1 & d' & H1 & Hd').
    exists (S (f + f1)), d'. split; [|exact Hd'].
    rewrite MainLoop_S. cbv zeta. fold d0. rewrite Heof.
    destruct (CurTok (Front d0) =? chr ";").
    { rewrite H, Hu. apply (MainLoop_fuel f1); [lia | exact H1]. }
    destruct (CurTok (Front d0) =? tok_fun).
    { rewrite (HandleDefinition_fuel f (f + f1) _ _ ltac:(lia) H), Hu.
      apply (MainLoop_fuel f1); [lia | exact H1]. }
    destruct (CurTok (Front d0) =? tok_imp).
    { rewrite (HandleExtern_fuel f (f + f1) _ _ ltac:(lia) H), Hu.
      apply (MainLoop_fuel f1); [lia | exact H1]. }
    rewrite (HandleTopLevelExpression_fuel f (f + f1) _ _ ltac:(lia) H), Hu.
    apply (MainLoop_fuel f1); [lia | exact H1]. }
  destruct (CurTok (Front d0) =? tok_eof) eqn:Heof.
  { exists 1%nat, d0. split; [|right; now apply Z.eqb_eq].
    rewrite MainLoop_S. cbv zeta. fold d0. now rewrite Heof. }
  assert (Htok : CurTok (Front d0) <> tok_eof) by now apply Z.eqb_neq.
  destruct (CurTok (Front d0) =? chr ";") eqn:E1.
  { destruct (skip_token_halts d0) as (d1 & H1 & _ & _ & Hlt).
    exact (Hstep 0%nat d1 (Hlt Htok) H1 eq_refl). }
  destruct (CurTok (Front d0) =? tok_fun) eqn:E2.
  { destruct (HandleDefinition_halts d0 Htok) as (f & d1 & H1 & Hlt).
    exact (Hstep f d1 Hlt H1 eq_refl). }
  destruct (CurTok (Front d0) =? tok_imp) eqn:E3.
  { destruct (HandleExtern_halts d0 Htok) as (f & d1 & H1 & Hlt).
    exact (Hstep f d1 Hlt H1 eq_refl). }
  destruct (HandleTopLevelExpression_halts d0 Htok) as (f & d1 & H1 & Hlt).
  exact (Hstep f d1 Hlt H1 eq_refl).
Qed.

(** [main] on every input: with enough fuel (and then with any more) the
    run has come to its end.  Either the loop has reached the end of the
    input, where [CurTok] is [tok_eof], and the module was printed last;
    or a function that was still in use has been destroyed, where the
    behaviour of the program is undefined and the run is followed no
    further.  No input makes the parser, the code generator or the error
    recovery of the driver run forever. *)
Theorem main_terminates (input : string) :
  exists fuel d,
    (forall fuel', (fuel <= fuel')%nat -> main fuel' input = Some d) /\
    (Undefined (Back d) = true \/
     CurTok (Front d) = tok_eof /\
     exists out, Console d = out ++ [PrintModule (TheModule (Back d))]).
Proof.
  unfold main.
  destruct (skip_token_halts
              (fprintf (fprintf
                 (mkDriver (set_BinopPrecedence (start input)
                              (install_binops (BinopPrecedence (start input))))
                           InitializeModule [])
                 "Isere Version alpha 0.1") "is->")) as (d0 & -> & _).
  destruct (MainLoop_halts _ (mkDriver (Front d0) InitializeModule (Console d0)) eq_refl)
    as (f & d' & H & Hend).
  exists f. destruct (Undefined (Back d')) eqn:Hu.
  - exists d'. split; [|now left].
    intros fuel' Hle. rewrite (MainLoop_fuel f fuel' _ _ Hle H). now rewrite Hu.
  - eexists. split.
    + intros fuel' Hle. rewrite (MainLoop_fuel f fuel' _ _ Hle H). rewrite Hu.
      reflexivity.
    + right. destruct Hend as [Hend|Hend]; [congruence|].
      split; [exact Hend|]. now exists (Console d').
Qed.

End DriverProperties.

Section DriverInvariants.

Variable strtod : string -> double.
Variable FoldBinOp : Opcode -> Value -> Value -> option Value.
Variable FoldCmp : Value -> Value -> option Value.
Variable FoldCast : Value -> option Value.

#[local] Abbreviation HandleDefinition :=
  (HandleDefinition strtod FoldBinOp FoldCmp FoldCast).
#[local] Abbreviation HandleExtern := (HandleExtern strtod).
#[local] Abbreviation HandleTopLevelExpression :=
  (HandleTopLevelExpression strtod FoldBinOp FoldCmp FoldCast).
#[local] Abbreviation MainLoop := (MainLoop strtod FoldBinOp FoldCmp FoldCast).
#[local] Abbreviation main := (main strtod FoldBinOp FoldCmp FoldCast).
#[local] Abbreviation skip_token := (skip_token strtod).
#[local] Abbreviation FunctionAST_codegen :=
  (FunctionAST_codegen FoldBinOp FoldCmp FoldCast).

Lemma bodies_kept_refl st : bodies_kept st st.
Proof. intros F HF _. exact HF. Qed.

Lemma bodies_kept_trans st1 st2 st3 :
  bodies_kept st1 st2 -> bodies_kept st2 st3 -> bodies_kept st1 st3.
Proof. intros H1 H2 F HF Hb. apply H2; [now apply H1 | exact Hb]. Qed.

Lemma skip_token_Back d d' : skip_token d = Some d' -> Back d' = Back d.
Proof.
  unfold skip_token. destruct (getNextToken strtod (Front d)) as [[t p]|]; [|discriminate].
  now intros [= <-].
Qed.

Lemma HandleDefinition_ok f d d' :
  HandleDefinition f d = Some d' -> module_sound (Back d) ->
  Undefined (Back d') = false ->
  module_sound (Back d') /\ bodies_kept (Back d) (Back d').
Proof.
  unfold HandleDefinition.
  destruct (ParseFunDef strtod f (Front d)) as [[[FnAST|] p]|]; [| |discriminate].
  - destruct (FunctionAST_codegen FnAST (Back d)) as [FnIR g] eqn:E.
    intros H [Hok Hres] Hdef.
    destruct (FunctionAST_codegen_ok _ _ _ _ _ _ _ E Hok) as (Hok' & Hkept & _).
    assert (Hres' : calls_resolved (TheModule g)).
    { apply (FunctionAST_codegen_resolved _ _ _ _ _ _ _ E Hres).
      destruct FnIR as [FnIR|]; injection H as <-; exact Hdef. }
    destruct FnIR as [FnIR|]; injection H as <-; (split; [now split | exact Hkept]).
  - intros H Hok _. apply skip_token_Back in H. simpl in H. rewrite H.
    split; [exact Hok | apply bodies_kept_refl].
Qed.

Lemma PrototypeAST_codegen_resolved P st :
  calls_resolved (TheModule st) ->
  calls_resolved (TheModule (snd (PrototypeAST_codegen P st))).
Proof.
  intros Hm. unfold PrototypeAST_codegen, Function_Create.
  destruct (setName _ _ _ _) as [n last]. simpl. now apply calls_resolved_add.
Qed.

Lemma HandleExtern_ok f d d' :
  HandleExtern f d = Some d' -> module_sound (Back d) ->
  module_sound (Back d') /\ bodies_kept (Back d) (Back d').
Proof.
  unfold HandleExtern.
  destruct (ParseImport strtod f (Front d)) as [[[ProtoAST|] p]|]; [| |discriminate].
  - pose proof (PrototypeAST_codegen_ok ProtoAST (Back d)) as Hproto.
    pose proof (PrototypeAST_codegen_resolved ProtoAST (Back d)) as Hres'.
    destruct (PrototypeAST_codegen ProtoAST (Back d)) as [FnIR g].
    intros [= <-] [Hok Hres]. destruct (Hproto Hok) as [Hok' Hkept].
    split; [split; [exact Hok' | now apply Hres'] | exact Hkept].
  - intros H Hok. apply skip_token_Back in H. simpl in H. rewrite H.
    split; [exact Hok | apply bodies_kept_refl].
Qed.

Lemma HandleTopLevelExpression_ok f d d' :
  HandleTopLevelExpression f d = Some d' -> module_sound (Back d) ->
  Undefined (Back d') = false ->
  module_sound (Back d') /\ bodies_kept (Back d) (Back d').
Proof.
  unfold HandleTopLevelExpression.
  destruct (ParseTopLevelExpr strtod f (Front d)) as [[[FnAST|] p]|]; [| |discriminate].
  - destruct (FunctionAST_codegen FnAST (Back d)) as [FnIR g] eqn:E.
    intros H [Hok Hres] Hdef.
    destruct (FunctionAST_codegen_ok _ _ _ _ _ _ _ E Hok) as (Hok' & Hkept & Hid).
    destruct FnIR as [FnIR|]; injection H as <-.
    + simpl in Hdef. apply orb_false_iff in Hdef as [Hdef Hnone].
      destruct (FunctionAST_codegen_resolved _ _ _ _ _ _ _ E Hres Hdef) as [Hres' _].
      destruct (eraseFromParent_ok FnIR g (Back d) Hok' Hkept (Hid FnIR eq_refl))
        as [Hok3 Hkept3].
      split; [split; [exact Hok3|] | exact Hkept3].
      simpl. now apply calls_resolved_erase.
    + destruct (FunctionAST_codegen_resolved _ _ _ _ _ _ _ E Hres Hdef) as [Hres' _].
      split; [now split | exact Hkept].
  - intros H Hok _. apply skip_token_Back in H. simpl in H. rewrite H.
    split; [exact Hok | apply bodies_kept_refl].
Qed.

Lemma MainLoop_ok : forall f d d',
  MainLoop f d = Some d' -> module_sound (Back d) -> Undefined (Back d') = false ->
  module_sound (Back d') /\ bodies_kept (Back d) (Back d').
Proof.
  induction f as [|f IH]; intros d d'; [discriminate|].
  rewrite MainLoop_S. cbv zeta. set (d0 := fprintf d "is-> ").
  change (Back d) with (Back d0).
  destruct (CurTok (Front d0) =? tok_eof).
  { intros [= <-] Hok _. split; [exact Hok | apply bodies_kept_refl]. }
  assert (Hstep : forall d1,
            (module_sound (Back d0) -> Undefined (Back d1) = false ->
             module_sound (Back d1) /\ bodies_kept (Back d0) (Back d1)) ->
            (if Undefined (Back d1) then Some d1 else MainLoop f d1) = Some d' ->
            module_sound (Back d0) -> Undefined (Back d') = false ->
            module_sound (Back d') /\ bodies_kept (Back d0) (Back d')).
  { intros d1 H1 H Hok Hdef. destruct (Undefined (Back d1)) eqn:Hu.
    - injection H as <-. congruence.
    - destruct (H1 Hok eq_refl) as [Hok1 Hk1].
      destruct (IH _ _ H Hok1 Hdef) as [Hok' Hk']. split; [exact Hok'|].
      eapply bodies_kept_trans; eauto. }
  destruct (CurTok (Front d0) =? chr ";").
  { destruct (skip_token d0) as [d1|] eqn:E; [|discriminate].
    apply Hstep. intros Hok _. apply skip_token_Back in E. rewrite E.
    split; [exact Hok | apply bodies_kept_refl]. }
  destruct (CurTok (Front d0) =? tok_fun).
  { destruct (HandleDefinition f d0) as [d1|] eqn:E; [|discriminate].
    apply Hstep. now apply (HandleDefinition_ok f). }
  destruct (CurTok (Front d0) =? tok_imp).
  { destruct (HandleExtern f d0) as [d1|] eqn:E; [|discriminate].
    apply Hstep. intros Hok _. now apply (HandleExtern_ok f). }
  destruct (HandleTopLevelExpression f d0) as [d1|] eqn:E; [|discriminate].
  apply Hstep. now apply (HandleTopLevelExpression_ok f).
Qed.



(** A function that has its body stays as it is, on a run whose
    behaviour is defined throughout: whatever the rest of the input,
    [MainLoop] neither changes nor removes it (a second definition of the
    name fails, a declaration does not replace it), and the functions it
    calls are still there, with the parameters its calls have arguments
    for. *)
Theorem MainLoop_keeps_definitions fuel d d' F :
  module_sound (Back d) -> MainLoop fuel d = Some d' ->
  Undefined (Back d') = false ->
  In F (TheModule (Back d)) -> Blocks F <> [] ->
  In F (TheModule (Back d')) /\ fn_resolved (arities (TheModule (Back d'))) F.
Proof.
  intros Hok H Hdef HF Hbody.
  destruct (MainLoop_ok _ _ _ H Hok Hdef) as [[_ Hres] Hkept].
  assert (HF' : In F (TheModule (Back d'))) by now apply Hkept.
  split; [exact HF'|]. unfold calls_resolved in Hres.
  rewrite List.Forall_forall in Hres. now apply Hres.
Qed.

Lemma ParseTopLevelExpr_Proto f st FnAST st' :
  ParseTopLevelExpr strtod f st = Some (Some FnAST, st') ->
  exists E, FnAST = mkFunctionAST (mkPrototypeAST EmptyString []) E.
Proof.
  unfold ParseTopLevelExpr, bind, ret.
  destruct (ParseExpression strtod f st) as [[[E|] st1]|]; [| |discriminate].
  - intros [= <- <-]. now exists E.
  - discriminate.
Qed.

(** A top-level expression leaves the functions of the module as they
    were: its anonymous function is erased after it was printed, or by
    [FunctionAST::codegen] when the expression did not lower. *)
Theorem HandleTopLevelExpression_keeps_module f d d' :
  ids_fresh (Back d) -> HandleTopLevelExpression f d = Some d' ->
  TheModule (Back d') = TheModule (Back d).
Proof.
  intros Hfresh. unfold HandleTopLevelExpression.
  destruct (ParseTopLevelExpr strtod f (Front d)) as [[[FnAST|] p]|] eqn:HP;
    [| |discriminate].
  - apply ParseTopLevelExpr_Proto in HP as [E ->].
    pose proof (FunctionAST_codegen_erased FoldBinOp FoldCmp FoldCast
                  (mkPrototypeAST EmptyString []) E (Back d) eq_refl Hfresh) as H.
    cbv zeta in H.
    destruct (FunctionAST_codegen _ (Back d)) as [[FnIR|] g]; cbn [fst snd] in H;
      intros [= <-]; exact H.
  - intros H. apply skip_token_Back in H. now rewrite H.
Qed.

End DriverInvariants.

(** ** The precedence table, for good *)

Lemma install_binops_main_table : main_table (install_binops ∅).
Proof.
  intros c. unfold install_binops.
  destruct (decide (c = chr "*")) as [->|H1]; [now rewrite lookup_insert_eq|].
  rewrite lookup_insert_ne by congruence.
  destruct (decide (c = chr "-")) as [->|H2]; [now rewrite lookup_insert_eq|].
  rewrite lookup_insert_ne by congruence.
  destruct (decide (c = chr "+")) as [->|H3]; [now rewrite lookup_insert_eq|].
  rewrite lookup_insert_ne by congruence.
  destruct (decide (c = chr "<")) as [->|H4]; [now rewrite lookup_insert_eq|].
  rewrite lookup_insert_ne by congruence.
  rewrite lookup_empty. unfold is_binop.
  apply Z.eqb_neq in H1, H2, H3, H4. now rewrite H1, H2, H3, H4.
Qed.

Lemma main_precedence_other c : is_binop c = false -> main_precedence c = -1.
Proof.
  unfold is_binop, main_precedence. intros H.
  apply orb_false_iff in H as [H H4]. apply orb_false_iff in H as [H H3].
  apply orb_false_iff in H as [H1 H2]. now rewrite H1, H2, H3, H4.
Qed.

Lemma main_precedence_binop c : is_binop c = true -> 0 < main_precedence c.
Proof.
  unfold is_binop, main_precedence. intros H.
  destruct (c =? chr "<"); [lia|]. destruct (c =? chr "+"); [lia|].
  destruct (c =? chr "-"); [lia|]. destruct (c =? chr "*"); [lia|]. discriminate.
Qed.

Lemma is_binop_isascii c : is_binop c = true -> isascii c = true.
Proof.
  unfold is_binop, isascii. intros H.
  apply orb_true_iff in H as [H|H]; [|apply Z.eqb_eq in H; now subst].
  apply orb_true_iff in H as [H|H]; [|apply Z.eqb_eq in H; now subst].
  apply orb_true_iff in H as [H|H]; apply Z.eqb_eq in H; now subst.
Qed.

Lemma to_char_isascii c : isascii c = true -> to_char c = c.
Proof.
  unfold isascii, to_char. intros H.
  rewrite Z.mod_small by lia. lia.
Qed.

Lemma set_BinopPrecedence_same st : set_BinopPrecedence st (BinopPrecedence st) = st.
Proof. now destruct st. Qed.

Lemma GetTokPrecedence_main st :
  main_table (BinopPrecedence st) ->
  exists m,
    GetTokPrecedence st =
      Some (main_precedence (CurTok st), set_BinopPrecedence st m) /\
    main_table m.
Proof.
  intros Hm. unfold GetTokPrecedence.
  destruct (isascii (CurTok st)) eqn:E; simpl.
  2:{ exists (BinopPrecedence st). rewrite set_BinopPrecedence_same.
      rewrite main_precedence_other; [auto|].
      destruct (is_binop (CurTok st)) eqn:Hb; [|reflexivity].
      apply is_binop_isascii in Hb. congruence. }
  rewrite (to_char_isascii _ E). unfold map_index.
  specialize (Hm (CurTok st)) as Hc.
  destruct (BinopPrecedence st !! CurTok st) as [v|] eqn:Hv.
  - exists (BinopPrecedence st). split; [|exact Hm].
    destruct (is_binop (CurTok st)) eqn:Hb.
    + subst v. pose proof (main_precedence_binop _ Hb) as Hpos.
      now replace (main_precedence (CurTok st) <=? 0) with false by lia.
    + replace (v <=? 0) with true by lia. now rewrite (main_precedence_other _ Hb).
  - simpl. rewrite (main_precedence_other _ Hc). eexists. split; [reflexivity|].
    intros c. destruct (decide (CurTok st = c)) as [<-|Hne].
    + rewrite lookup_insert_eq, Hc. lia.
    + rewrite lookup_insert_ne by exact Hne. apply Hm.
Qed.

(** [GetTokPrecedence] is the table of [main], whatever was parsed
    before: on ['<'], ['+'], ['-'] and ['*'] it answers 10, 20, 20 and 40,
    on every other token [-1].  The zero that [BinopPrecedence[CurTok]]
    leaves behind for a character it did not hold changes no answer. *)
Theorem GetTokPrecedence_is_main_table st :
  main_table (BinopPrecedence st) ->
  exists st',
    GetTokPrecedence st = Some (main_precedence (CurTok st), st') /\
    main_table (BinopPrecedence st') /\
    CurTok st' = CurTok st /\ Stdin st' = Stdin st /\ LastChar st' = LastChar st /\
    Stderr st' = Stderr st.
Proof.
  intros Hm. destruct (GetTokPrecedence_main st Hm) as (m & H & Hm').
  exists (set_BinopPrecedence st m). split; [exact H|]. simpl. auto 10.
Qed.

(** ** Names *)

Lemma append_inj_r s : forall t t', (s +:+ t = s +:+ t')%string -> t = t'.
Proof.
  induction s as [|a s IH]; simpl; intros t t' H; [exact H|].
  injection H as H. now apply IH.
Qed.

Lemma candidate_inj base dot n n' :
  candidate base dot n = candidate base dot n' -> n = n'.
Proof.
  unfold candidate. intros H. apply append_inj_r in H. apply append_inj_r in H.
  now apply (inj pretty) in H.
Qed.

Lemma name_taken_In taken n : name_taken taken n = true -> In n taken.
Proof.
  unfold name_taken. intros H. apply existsb_exists in H as (x & Hx & Heq).
  apply String.eqb_eq in Heq. now subst x.
Qed.

Lemma name_not_taken taken n : name_taken taken n = false -> ~ In n taken.
Proof.
  unfold name_taken. intros H Hin.
  assert (Ht : existsb (String.eqb n) taken = true).
  { apply existsb_exists. exists n. split; [exact Hin | apply String.eqb_refl]. }
  congruence.
Qed.

(** The run of [makeUniqueName]: it passes over [j] candidates, all in
    use, and stops at the next one, which is free unless the fuel ended. *)
Lemma makeUniqueName_run : forall fuel taken base dot last,
  exists j, (j <= fuel)%nat /\
    makeUniqueName fuel taken base dot last =
      (candidate base dot (S (last + j)), S (last + j)) /\
    (forall i, (i < j)%nat -> In (candidate base dot (S (last + i))) taken) /\
    ((j < fuel)%nat -> ~ In (candidate base dot (S (last + j))) taken).
Proof.
  induction fuel as [|f IH]; intros taken base dot last.
  - exists 0%nat. rewrite Nat.add_0_r. split; [lia|]. split; [reflexivity|].
    split; intros; lia.
  - simpl. fold (candidate base dot (S last)).
    destruct (name_taken taken (candidate base dot (S last))) eqn:E.
    + destruct (IH taken base dot (S last)) as (j & Hj & Hrun & Hin & Hfree).
      exists (S j). replace (last + S j)%nat with (S last + j)%nat by lia.
      split; [lia|]. split; [exact Hrun|]. split.
      * intros [|i] Hi.
        -- rewrite Nat.add_0_r. now apply name_taken_In.
        -- replace (last + S i)%nat with (S last + i)%nat by lia. apply Hin. lia.
      * intros Hlt. apply Hfree. lia.
    + exists 0%nat. rewrite Nat.add_0_r. split; [lia|]. split; [reflexivity|].
      split; [intros; lia|]. intros _. now apply name_not_taken.
Qed.

(** The fuel [setName] gives [makeUniqueName] is enough: the name it
    returns is free. *)
Lemma makeUniqueName_free taken base dot last :
  ~ In (fst (makeUniqueName (length taken) taken base dot last)) taken.
Proof.
  destruct (makeUniqueName_run (length taken) taken base dot last)
    as (j & Hj & -> & Hin & Hfree). simpl.
  destruct (Nat.eq_dec j (length taken)) as [->|Hne]; [|apply Hfree; lia].
  intros Hlast.
  pose (tried := (fun i => candidate base dot (S (last + i))) <$> seq 0 (S (length taken))).
  assert (Hnd : NoDup tried).
  { apply NoDup_fmap_2_strong; [|apply NoDup_seq].
    intros x y _ _ H. apply candidate_inj in H. lia. }
  assert (Hsub : forall x, x ∈ tried -> x ∈ taken).
  { intros x Hx. apply list_elem_of_fmap in Hx as (i & -> & Hi).
    apply elem_of_seq in Hi. apply list_elem_of_In.
    destruct (Nat.eq_dec i (length taken)) as [->|Hi']; [exact Hlast|].
    apply Hin. lia. }
  pose proof (submseteq_length _ _ (NoDup_submseteq _ _ Hnd Hsub)) as Hlen.
  unfold tried in Hlen. rewrite length_fmap, length_seq in Hlen. lia.
Qed.

Lemma setName_fresh taken n dot last :
  n <> EmptyString -> ~ In (fst (setName taken n dot last)) taken.
Proof.
  intros Hn. unfold setName. apply String.eqb_neq in Hn. rewrite Hn.
  destruct (name_taken taken n) eqn:E; [apply makeUniqueName_free|].
  simpl. now apply name_not_taken.
Qed.

(** No two functions of the module get the same name: a prototype whose
    name is in use is declared under a name that is not (the name with a
    dot and a number), so names that differ before differ after; a name
    that is free is kept as written. *)
Theorem PrototypeAST_codegen_fresh_name P st :
  Name P <> EmptyString ->
  NoDup (map FName (TheModule st)) ->
  let F := fst (PrototypeAST_codegen P st) in
  let st' := snd (PrototypeAST_codegen P st) in
  ~ In (FName F) (map FName (TheModule st)) /\
  NoDup (map FName (TheModule st')) /\
  (getFunction (Name P) st = None -> FName F = Name P).
Proof.
  intros Hn Hnd. unfold PrototypeAST_codegen, Function_Create.
  pose proof (setName_fresh (map FName (TheModule st)) (Name P) true (LastUnique st) Hn)
    as Hfresh.
  destruct (setName _ _ _ _) as [n last] eqn:E. simpl in *.
  split; [exact Hfresh|]. split.
  - rewrite map_app. simpl. apply NoDup_app. split; [exact Hnd|]. split.
    + intros x Hx Hx'. apply list_elem_of_In in Hx'. destruct Hx' as [<-|[]].
      apply Hfresh. now apply list_elem_of_In.
    + apply NoDup_singleton.
  - intros Hget.
    assert (Hfree : ~ In (Name P) (map FName (TheModule st))).
    { unfold getFunction in Hget. apply String.eqb_neq in Hn. rewrite Hn in Hget.
      intros Hin. apply in_map_iff in Hin as (G & HG & Hin).
      apply (find_none _ _ Hget) in Hin. simpl in Hin.
      rewrite HG, String.eqb_refl in Hin. discriminate. }
    rewrite setName_free in E by exact Hfree. now injection E as <- _.
Qed.

(** ** The parser reads what is written *)

Lemma Source_ind' (P : Source -> Prop) :
  (forall text, P (SNum text)) ->
  (forall Name, P (SVar Name)) ->
  (forall Op LHS RHS, P LHS -> P RHS -> P (SBin Op LHS RHS)) ->
  (forall Callee Args, Forall P Args -> P (SCall Callee Args)) ->
  forall e, P e.
Proof.
  intros HN HV HB HC.
  fix IH 1. intros [text|Name|Op LHS RHS|Callee Args].
  - apply HN.
  - apply HV.
  - apply HB; apply IH.
  - apply HC. induction Args as [|a Args IHArgs]; constructor; [apply IH | exact IHArgs].
Qed.

Lemma print_to_call Callee Args k :
  print_to (SCall Callee Args) k = (Callee +:+ String "(" (print_args_to Args k))%string.
Proof.
  simpl. f_equal. f_equal.
  induction Args as [|a Args IH]; simpl; [reflexivity|].
  destruct Args; [reflexivity|]. now rewrite IH.
Qed.

Lemma stands_at_after st rest :
  LastChar st = head_char rest -> Stdin st = tail_chars rest -> stands_at st rest.
Proof.
  destruct rest as [|b rest]; unfold head_char, tail_chars; simpl; intros HL HS.
  - left. now split.
  - right. exists b, EmptyString. rewrite HS. now split.
Qed.

Lemma ends_expression_punctuation c rest :
  ends_expression (head_char (String c rest)) = true ->
  is_punctuation (chr c) = true /\ main_precedence (chr c) = -1 /\
  chr c <> chr "(" /\ isalnum (chr c) = false /\ is_num_char (chr c) = false.
Proof.
  unfold ends_expression, head_char. simpl. rewrite chr_not_EOF. simpl.
  intros H. apply orb_true_iff in H as [H|H].
  - apply orb_true_iff in H as [H|H]; apply Z.eqb_eq in H; rewrite H;
      repeat split; try reflexivity; discriminate.
  - apply Z.eqb_eq in H; rewrite H; repeat split; try reflexivity; discriminate.
Qed.

Lemma ends_expression_word rest :
  ends_expression (head_char rest) = true ->
  isalnum (head_char rest) = false /\ is_num_char (head_char rest) = false.
Proof.
  destruct rest as [|c rest].
  - intros _. split; reflexivity.
  - intros H. apply ends_expression_punctuation in H as (_ & _ & _ & H1 & H2).
    now split.
Qed.

Section ReadsWhatIsWritten.

Variable strtod : string -> double.

#[local] Abbreviation ast := (ast strtod).
#[local] Abbreviation looking_at := (looking_at strtod).
#[local] Abbreviation primed_with := (primed_with strtod).

(** *** The lookahead *)

Lemma looking_at_same st st' t :
  looking_at st t ->
  CurTok st' = CurTok st -> Stdin st' = Stdin st -> LastChar st' = LastChar st ->
  IdentifierStr st' = IdentifierStr st -> NumVal st' = NumVal st ->
  looking_at st' t.
Proof.
  intros (st0 & st1 & H0 & Hg & H1 & H2 & H3 & H4) Hc Hs Hl Hi Hn.
  exists st0, st1. rewrite Hc, Hs, Hl, Hi, Hn. auto 10.
Qed.

Lemma getNextToken_looks st t :
  stands_at st t ->
  exists tok st', getNextToken strtod st = Some (tok, st') /\ looking_at st' t /\
                  BinopPrecedence st' = BinopPrecedence st.
Proof.
  intros Hat. destruct (getNextToken_total strtod st) as (tok & st1 & H & Hg).
  exists tok, (set_CurTok st1 tok). split; [exact H|]. split.
  - exists st, st1. simpl. auto 10.
  - apply getNextToken_frame in H as [H _]. exact H.
Qed.

Lemma look_word st id rest :
  looking_at st (id +:+ rest) -> is_identifier id = true ->
  isalnum (head_char rest) = false ->
  CurTok st = word_token id /\ IdentifierStr st = id /\ stands_at st rest.
Proof.
  intros (st0 & st1 & H0 & Hg & H1 & H2 & H3 & H4) Hid Hrest.
  destruct H0 as [[_ He]|(a & ws & HL & Hin & Hws)].
  { destruct id; [discriminate | discriminate He]. }
  rewrite (lex_word strtod st0 a ws id rest HL Hin Hws Hid Hrest) in Hg.
  injection Hg as Hc <-. simpl in *.
  split; [now symmetry|]. split; [exact H3|]. now apply stands_at_after.
Qed.

Lemma look_number st num rest :
  looking_at st (num +:+ rest) -> is_numeral num = true ->
  is_num_char (head_char rest) = false ->
  CurTok st = tok_number /\ NumVal st = strtod num /\ stands_at st rest.
Proof.
  intros (st0 & st1 & H0 & Hg & H1 & H2 & H3 & H4) Hnum Hrest.
  unfold is_numeral in Hnum. apply andb_true_iff in Hnum as [Hne Hnum].
  apply negb_true_iff, String.eqb_neq in Hne.
  destruct H0 as [[_ He]|(a & ws & HL & Hin & Hws)].
  { destruct num; [congruence | discriminate He]. }
  rewrite (lex_number strtod st0 a ws num rest HL Hin Hws Hne Hnum Hrest) in Hg.
  injection Hg as Hc <-. simpl in *.
  split; [now symmetry|]. split; [exact H4|]. now apply stands_at_after.
Qed.

Lemma look_char st c rest :
  looking_at st (String c rest) -> is_punctuation (chr c) = true ->
  CurTok st = chr c /\ stands_at st rest.
Proof.
  intros (st0 & st1 & H0 & Hg & H1 & H2 & H3 & H4) Hc.
  destruct H0 as [[_ He]|(a & ws & HL & Hin & Hws)]; [discriminate He|].
  rewrite (lex_char strtod st0 a ws c rest HL Hin Hws Hc) in Hg.
  injection Hg as Hc' <-. simpl in *.
  split; [now symmetry|]. now apply stands_at_after.
Qed.

Lemma look_end st : looking_at st EmptyString -> CurTok st = tok_eof.
Proof.
  intros (st0 & st1 & H0 & Hg & _).
  destruct H0 as [[HL _]|(a & ws & HL & Hin & Hws)].
  - rewrite (getTok_at_EOF strtod st0 HL) in Hg. now injection Hg as <- _.
  - rewrite (lex_blank strtod st0 a HL) in Hg.
    + now injection Hg as <- _.
    + rewrite Hin. clear -Hws. induction ws as [|w ws IH]; simpl in *; [reflexivity|].
      apply andb_true_iff in Hws as [Hw Hws]. now rewrite Hw, IH.
Qed.

(** The token an expression ends at has no precedence, and opens no
    call. *)
Lemma look_ends st k :
  looking_at st k -> ends_expression (head_char k) = true ->
  main_precedence (CurTok st) = -1 /\ CurTok st <> chr "(".
Proof.
  intros Hlook Hk. destruct k as [|c k].
  - apply look_end in Hlook. rewrite Hlook. split; [reflexivity | discriminate].
  - apply ends_expression_punctuation in Hk as (Hp & Hprec & Hne & _).
    apply look_char in Hlook as [-> _]; [|exact Hp]. now split.
Qed.

(** *** One construct after the other *)

(** The parser reads [e] wherever it is written: before any text [k]
    that goes on with nothing of an expression. *)
Definition reads (e : Source) : Prop :=
  forall k st,
    ends_expression (head_char k) = true ->
    main_table (BinopPrecedence st) ->
    looking_at st (print_to e k) ->
    exists fuel st',
      ParseExpression strtod fuel st = Some (Some (ast e), st') /\
      looking_at st' k /\ main_table (BinopPrecedence st').

Lemma GetTokPrecedence_looks st t :
  main_table (BinopPrecedence st) -> looking_at st t ->
  exists st', GetTokPrecedence st = Some (main_precedence (CurTok st), st') /\
              looking_at st' t /\ main_table (BinopPrecedence st') /\
              CurTok st' = CurTok st.
Proof.
  intros Hm Hlook. destruct (GetTokPrecedence_main st Hm) as (m & H & Hm').
  exists (set_BinopPrecedence st m). split; [exact H|].
  split; [|split; [exact Hm' | reflexivity]].
  now apply (looking_at_same st).
Qed.

Lemma next_token st t :
  main_table (BinopPrecedence st) -> stands_at st t ->
  exists tok st', getNextToken strtod st = Some (tok, st') /\ looking_at st' t /\
                  main_table (BinopPrecedence st').
Proof.
  intros Hm Hat. destruct (getNextToken_looks st t Hat) as (tok & st' & H & Hl & Hb).
  exists tok, st'. rewrite Hb. auto.
Qed.

Lemma ParseBinOpRHS_ends LHS st k :
  looking_at st k -> ends_expression (head_char k) = true ->
  main_table (BinopPrecedence st) ->
  exists st', ParseBinOpRHS strtod 1 0 LHS st = Some (Some LHS, st') /\
              looking_at st' k /\ main_table (BinopPrecedence st').
Proof.
  intros Hlook Hk Hm.
  destruct (look_ends st k Hlook Hk) as [Hprec _].
  destruct (GetTokPrecedence_looks st k Hm Hlook) as (st' & H & Hl' & Hm' & _).
  exists st'. split; [|now split].
  rewrite ParseBinOpRHS_S. run. rewrite H, Hprec. reflexivity.
Qed.

(** A primary expression that is all of the expression. *)
Lemma ParsePrimary_alone f st E st1 k :
  ParsePrimary strtod f st = Some (Some E, st1) ->
  looking_at st1 k -> ends_expression (head_char k) = true ->
  main_table (BinopPrecedence st1) ->
  exists fuel st', ParseExpression strtod fuel st = Some (Some E, st') /\
                   looking_at st' k /\ main_table (BinopPrecedence st').
Proof.
  intros H Hlook Hk Hm.
  destruct (ParseBinOpRHS_ends E st1 k Hlook Hk Hm) as (st' & H' & Hl' & Hm').
  exists (S (f + 1)), st'. split; [|now split].
  rewrite ParseExpression_S. run.
  rewrite (ParsePrimary_fuel strtod f (f + 1) _ _ ltac:(lia) H).
  apply (ParseBinOpRHS_fuel strtod 1); [lia | exact H'].
Qed.

Lemma is_name_word id :
  is_name id = true -> is_identifier id = true /\ word_token id = tok_identifier.
Proof.
  unfold is_name, word_token. intros H.
  apply andb_true_iff in H as [H H2]. apply andb_true_iff in H as [H0 H1].
  apply negb_true_iff in H1, H2. now rewrite H1, H2.
Qed.

Lemma is_binop_punctuation c : is_binop c = true -> is_punctuation c = true.
Proof.
  unfold is_binop. intros H.
  apply orb_true_iff in H as [H|H]; [|apply Z.eqb_eq in H; now subst].
  apply orb_true_iff in H as [H|H]; [|apply Z.eqb_eq in H; now subst].
  apply orb_true_iff in H as [H|H]; apply Z.eqb_eq in H; now subst.
Qed.

(** An expression in parentheses, as a primary expression. *)
Lemma ParsePrimary_paren e st k :
  reads e -> main_table (BinopPrecedence st) ->
  looking_at st (String "(" (print_to e (String ")" k))) ->
  exists fuel st', ParsePrimary strtod fuel st = Some (Some (ast e), st') /\
                   looking_at st' k /\ main_table (BinopPrecedence st').
Proof.
  intros He Hm Hlook.
  apply look_char in Hlook as [Htok Hat]; [|reflexivity].
  destruct (next_token st _ Hm Hat) as (t1 & st1 & H1 & Hl1 & Hm1).
  destruct (He (String ")" k) st1 eq_refl Hm1 Hl1) as (f & st2 & H2 & Hl2 & Hm2).
  apply look_char in Hl2 as [Htok2 Hat2]; [|reflexivity].
  destruct (next_token st2 _ Hm2 Hat2) as (t3 & st3 & H3 & Hl3 & Hm3).
  exists (S (S f)), st3. split; [|now split].
  rewrite ParsePrimary_S. run. rewrite Htok.
  change (chr "(" =? tok_identifier) with false.
  change (chr "(" =? tok_number) with false.
  change (chr "(" =? chr "(") with true. cbv iota.
  rewrite ParseParenExpr_S. run. rewrite H1, H2. cbv beta iota. rewrite Htok2.
  change (negb (chr ")" =? chr ")")) with false. cbv beta iota. now rewrite H3.
Qed.

Lemma reads_SNum text : is_numeral text = true -> reads (SNum text).
Proof.
  intros Hnum k st Hk Hm Hlook. simpl in Hlook.
  destruct (ends_expression_word k Hk) as [_ Hk2].
  apply look_number in Hlook as (Htok & Hval & Hat); [|exact Hnum | exact Hk2].
  destruct (next_token st _ Hm Hat) as (t1 & st1 & H1 & Hl1 & Hm1).
  apply (ParsePrimary_alone 1 st _ st1 k); [|assumption..].
  rewrite ParsePrimary_S. run. rewrite Htok.
  change (tok_number =? tok_identifier) with false.
  change (tok_number =? tok_number) with true. cbv iota.
  unfold ParseNumberExpr. run. rewrite H1, Hval. reflexivity.
Qed.

Lemma reads_SVar Name : is_name Name = true -> reads (SVar Name).
Proof.
  intros Hname k st Hk Hm Hlook. simpl in Hlook.
  destruct (is_name_word _ Hname) as [Hid Hword].
  destruct (ends_expression_word k Hk) as [Hk1 _].
  apply look_word in Hlook as (Htok & Hstr & Hat); [|exact Hid | exact Hk1].
  rewrite Hword in Htok.
  destruct (next_token st _ Hm Hat) as (t1 & st1 & H1 & Hl1 & Hm1).
  destruct (look_ends st1 k Hl1 Hk) as [_ Hne].
  apply (ParsePrimary_alone 2 st _ st1 k); [|assumption..].
  rewrite ParsePrimary_S. run. rewrite Htok.
  change (tok_identifier =? tok_identifier) with true. cbv iota.
  rewrite ParseIdentifierExpr_S. run. rewrite H1, Hstr.
  apply Z.eqb_neq in Hne. rewrite Hne. reflexivity.
Qed.

Lemma reads_SBin Op LHS RHS :
  is_binop (chr Op) = true -> reads LHS -> reads RHS -> reads (SBin Op LHS RHS).
Proof.
  intros Hop HL HR k st Hk Hm Hlook. simpl in Hlook.
  destruct (ParsePrimary_paren LHS st _ HL Hm Hlook) as (f1 & st1 & H1 & Hl1 & Hm1).
  (* the operator *)
  destruct (GetTokPrecedence_looks st1 _ Hm1 Hl1) as (st2 & H2 & Hl2 & Hm2 & Hc2).
  apply look_char in Hl1 as [Htok1 _]; [|now apply is_binop_punctuation].
  pose proof (main_precedence_binop _ Hop) as Hpos. rewrite Htok1 in H2.
  apply look_char in Hl2 as [Htok2 Hat2]; [|now apply is_binop_punctuation].
  destruct (next_token st2 _ Hm2 Hat2) as (t3 & st3 & H3 & Hl3 & Hm3).
  (* the right operand *)
  destruct (ParsePrimary_paren RHS st3 _ HR Hm3 Hl3) as (f4 & st4 & H4 & Hl4 & Hm4).
  destruct (look_ends st4 k Hl4 Hk) as [Hprec4 _].
  destruct (GetTokPrecedence_looks st4 _ Hm4 Hl4) as (st5 & H5 & Hl5 & Hm5 & _).
  rewrite Hprec4 in H5.
  destruct (ParseBinOpRHS_ends (BinaryExprAST (chr Op) (ast LHS) (ast RHS)) st5 k Hl5 Hk Hm5)
    as (st6 & H6 & Hl6 & Hm6).
  exists (S (S (f1 + f4 + 1))), st6. split; [|now split].
  rewrite ParseExpression_S. run.
  rewrite (ParsePrimary_fuel strtod f1 (S (f1 + f4 + 1)) _ _ ltac:(lia) H1).
  cbv beta iota. rewrite ParseBinOpRHS_S. run. rewrite H2.
  replace (main_precedence (chr Op) <? 0) with false by lia.
  rewrite Htok2, H3.
  rewrite (ParsePrimary_fuel strtod f4 (f1 + f4 + 1) _ _ ltac:(lia) H4).
  cbv beta iota. rewrite H5.
  replace (main_precedence (chr Op) <? -1) with false by lia.
  rewrite (to_char_isascii _ (is_binop_isascii _ Hop)).
  apply (ParseBinOpRHS_fuel strtod 1); [lia | exact H6].
Qed.

(** The arguments of a call, from the first one to the closing
    parenthesis (which is left as the token at hand). *)
Lemma ParseArguments_reads Args : Forall reads Args -> Args <> [] ->
  forall acc k st,
    main_table (BinopPrecedence st) ->
    looking_at st (print_args_to Args k) ->
    exists fuel st',
      ParseArguments strtod fuel acc st = Some (Some (acc ++ map ast Args), st') /\
      looking_at st' (String ")" k) /\ main_table (BinopPrecedence st').
Proof.
  induction 1 as [|a Args Ha HArgs IH]; intros Hne acc k st Hm Hlook; [congruence|].
  simpl in Hlook. destruct Args as [|b Args].
  - destruct (Ha (String ")" k) st eq_refl Hm Hlook) as (f & st1 & H1 & Hl1 & Hm1).
    exists (S f), st1. split; [|now split].
    apply look_char in Hl1 as [Htok1 _]; [|reflexivity].
    rewrite ParseArguments_S. run. rewrite H1. cbv beta iota zeta. rewrite Htok1.
    reflexivity.
  - destruct (Ha (String "," (print_args_to (b :: Args) k)) st eq_refl Hm Hlook)
      as (f & st1 & H1 & Hl1 & Hm1).
    apply look_char in Hl1 as [Htok1 Hat1]; [|reflexivity].
    destruct (next_token st1 _ Hm1 Hat1) as (t2 & st2 & H2 & Hl2 & Hm2).
    destruct (IH ltac:(discriminate) (acc ++ [ast a]) k st2 Hm2 Hl2)
      as (f3 & st3 & H3 & Hl3 & Hm3).
    exists (S (f + f3)), st3. split; [|now split].
    rewrite ParseArguments_S. run.
    rewrite (ParseExpression_fuel strtod f (f + f3) _ _ ltac:(lia) H1).
    cbv beta iota zeta. rewrite Htok1.
    change (chr "," =? chr ")") with false. change (negb (chr "," =? chr ",")) with false.
    cbv beta iota. rewrite H2.
    rewrite (ParseArguments_fuel strtod f3 (f + f3) _ _ _ ltac:(lia) H3).
    simpl map. now rewrite <- app_assoc.
Qed.

(** The first token of an expression is a number, a name or an opening
    parenthesis; in particular no closing parenthesis. *)
Lemma first_token e k st :
  well_written e = true -> ends_expression (head_char k) = true ->
  looking_at st (print_to e k) -> CurTok st <> chr ")".
Proof.
  intros Hwf Hk Hlook. destruct e as [text|Name|Op LHS RHS|Callee Args]; simpl in *.
  - destruct (ends_expression_word k Hk) as [_ Hk2].
    apply look_number in Hlook as (-> & _); [discriminate | exact Hwf | exact Hk2].
  - destruct (is_name_word _ Hwf) as [Hid Hword].
    destruct (ends_expression_word k Hk) as [Hk1 _].
    apply look_word in Hlook as (-> & _); [|exact Hid | exact Hk1].
    rewrite Hword. discriminate.
  - apply look_char in Hlook as [-> _]; [discriminate | reflexivity].
  - apply andb_true_iff in Hwf as [Hname _].
    destruct (is_name_word _ Hname) as [Hid Hword].
    apply look_word in Hlook as (-> & _); [|exact Hid | reflexivity].
    rewrite Hword. discriminate.
Qed.

Lemma reads_SCall Callee Args :
  is_name Callee = true -> forallb well_written Args = true ->
  Forall reads Args -> reads (SCall Callee Args).
Proof.
  intros Hname Hwf HArgs k st Hk Hm Hlook. rewrite print_to_call in Hlook.
  destruct (is_name_word _ Hname) as [Hid Hword].
  apply look_word in Hlook as (Htok & Hstr & Hat); [|exact Hid | reflexivity].
  rewrite Hword in Htok.
  destruct (next_token st _ Hm Hat) as (t1 & st1 & H1 & Hl1 & Hm1).
  apply look_char in Hl1 as [Htok1 Hat1]; [|reflexivity].
  destruct (next_token st1 _ Hm1 Hat1) as (t2 & st2 & H2 & Hl2 & Hm2).
  assert (Hargs : exists f3 st3,
            (if negb (CurTok st2 =? chr ")") then ParseArguments strtod f3 [] else ret (Some []))
              st2 = Some (Some (map ast Args), st3) /\
            looking_at st3 (String ")" k) /\ main_table (BinopPrecedence st3)).
  { destruct Args as [|a Args].
    - exists 0%nat, st2. simpl in Hl2.
      pose proof Hl2 as Hl2'. apply look_char in Hl2' as [-> _]; [|reflexivity].
      change (negb (chr ")" =? chr ")")) with false. cbv iota. now split.
    - assert (Hfirst : CurTok st2 <> chr ")").
      { simpl in Hl2, Hwf. apply andb_true_iff in Hwf as [Hwa _].
        apply (first_token a _ st2 Hwa) in Hl2; [exact Hl2|].
        now destruct Args. }
      apply Z.eqb_neq in Hfirst. rewrite Hfirst. cbv [negb].
      apply (ParseArguments_reads (a :: Args) HArgs ltac:(discriminate) [] k st2 Hm2 Hl2). }
  destruct Hargs as (f3 & st3 & H3 & Hl3 & Hm3).
  apply look_char in Hl3 as [Htok3 Hat3]; [|reflexivity].
  destruct (next_token st3 _ Hm3 Hat3) as (t4 & st4 & H4 & Hl4 & Hm4).
  apply (ParsePrimary_alone (S (S f3)) st _ st4 k); [|assumption..].
  rewrite ParsePrimary_S. run. rewrite Htok.
  change (tok_identifier =? tok_identifier) with true. cbv iota.
  rewrite ParseIdentifierExpr_S. run. rewrite H1, Hstr, Htok1.
  change (negb (chr "(" =? chr "(")) with false. cbv beta iota. rewrite H2.
  destruct (negb (CurTok st2 =? chr ")")).
  - rewrite H3. cbv beta iota. now rewrite H4.
  - unfold ret in H3. injection H3 as Hnil <-. rewrite H4. simpl. now rewrite <- Hnil.
Qed.

Lemma reads_well_written e : well_written e = true -> reads e.
Proof.
  induction e as [text|Name|Op LHS RHS IHL IHR|Callee Args IH] using Source_ind';
    simpl; intros Hwf.
  - now apply reads_SNum.
  - now apply reads_SVar.
  - apply andb_true_iff in Hwf as [Hwf HR]. apply andb_true_iff in Hwf as [Hop HL].
    apply reads_SBin; auto.
  - apply andb_true_iff in Hwf as [Hname Hargs].
    apply reads_SCall; [assumption..|].
    clear Hname. induction IH as [|a Args Ha _ IHl]; constructor.
    + apply Ha. simpl in Hargs. now apply andb_true_iff in Hargs as [? _].
    + apply IHl. simpl in Hargs. now apply andb_true_iff in Hargs as [_ ?].
Qed.

(** The parser reads what is written.  For an expression made of
    numerals, names, calls and the four operators of [main], written with
    its operands in parentheses and followed by the end of the input, a
    closing parenthesis, a comma or a semicolon, [ParseExpression] returns
    the tree of that expression and stops at what follows: it takes
    neither less nor more than the expression, whatever follows next. *)
Theorem ParseExpression_reads_what_is_written e k st :
  well_written e = true ->
  ends_expression (head_char k) = true ->
  main_table (BinopPrecedence st) ->
  looking_at st (print_to e k) ->
  exists fuel st',
    (forall fuel', (fuel <= fuel')%nat ->
       ParseExpression strtod fuel' st = Some (Some (ast e), st')) /\
    looking_at st' k /\ main_table (BinopPrecedence st').
Proof.
  intros Hwf Hk Hm Hlook.
  destruct (reads_well_written e Hwf k st Hk Hm Hlook) as (f & st' & H & Hl & Hm').
  exists f, st'. split; [|now split].
  intros fuel' Hle. exact (ParseExpression_fuel strtod f fuel' _ _ Hle H).
Qed.

(** The text of an expression, given to the program: [main] up to the
    first call of [ParseExpression] and that call return the tree of the
    expression, with the end of the input as the token at hand. *)
Theorem parse_expression_print e :
  well_written e = true ->
  exists fuel, forall fuel', (fuel <= fuel')%nat ->
    parse_expression strtod fuel' (print e) = Some (Some (ast e), tok_eof).
Proof.
  intros Hwf. unfold parse_expression, main_primed.
  set (st0 := set_BinopPrecedence (start (print e))
                (install_binops (BinopPrecedence (start (print e))))).
  assert (Hat : stands_at st0 (print_to e EmptyString)).
  { right. exists " "%char, " "%string. now split. }
  destruct (next_token st0 _ install_binops_main_table Hat) as (t1 & st1 & H1 & Hl1 & Hm1).
  rewrite H1.
  destruct (reads_well_written e Hwf EmptyString st1 eq_refl Hm1 Hl1)
    as (f & st' & H & Hl & Hm').
  exists f. intros fuel' Hle.
  rewrite (ParseExpression_fuel strtod f fuel' _ _ Hle H).
  now rewrite (look_end st' Hl).
Qed.

(** *** Prototypes, definitions and imports *)

Lemma stands_at_blank st t : stands_at st (String " " t) -> stands_at st t.
Proof.
  intros [[_ H]|(a & ws & HL & Hin & Hws)]; [discriminate H|].
  right. exists a, (ws +:+ " ")%string. split; [exact HL|]. split.
  - rewrite Hin. clear. induction ws as [|w ws IH]; simpl; [reflexivity|]. now rewrite IH.
  - rewrite all_chars_app, Hws. reflexivity.
Qed.

Lemma read_ArgNames_reads ArgNames : forallb is_name ArgNames = true ->
  forall acc k st,
    main_table (BinopPrecedence st) ->
    stands_at st (print_params_to ArgNames k) ->
    exists fuel st',
      read_ArgNames strtod fuel acc st = Some (acc ++ ArgNames, st') /\
      CurTok st' = chr ")" /\ stands_at st' k /\ main_table (BinopPrecedence st').
Proof.
  induction ArgNames as [|a ArgNames IH]; intros Hnames acc k st Hm Hat.
  - destruct (next_token st _ Hm Hat) as (t1 & st1 & H1 & Hl1 & Hm1).
    simpl in Hl1. apply look_char in Hl1 as [Htok1 Hat1]; [|reflexivity].
    apply getNextToken_frame in H1 as Hf. destruct Hf as [_ Ht1].
    exists 1%nat, st1. split; [|now split].
    rewrite read_ArgNames_S. run. rewrite H1. rewrite <- Ht1, Htok1.
    change (chr ")" =? tok_identifier) with false. cbv iota.
    now rewrite app_nil_r.
  - simpl in Hnames. apply andb_true_iff in Hnames as [Hname Hnames].
    destruct (is_name_word _ Hname) as [Hid Hword].
    destruct (next_token st _ Hm Hat) as (t1 & st1 & H1 & Hl1 & Hm1).
    apply getNextToken_frame in H1 as Hf. destruct Hf as [_ Ht1].
    simpl in Hl1.
    assert (Hrest : exists r, print_params_to (a :: ArgNames) k = (a +:+ r)%string /\
                              isalnum (head_char r) = false /\
                              (stands_at st1 r -> stands_at st1 (print_params_to ArgNames k))).
    { simpl. destruct ArgNames as [|b ArgNames].
      - eexists. split; [reflexivity|]. split; [reflexivity | auto].
      - eexists. split; [reflexivity|]. split; [reflexivity | apply stands_at_blank]. }
    destruct Hrest as (r & Hr & Hal & Hnext). simpl in Hr. rewrite Hr in Hl1.
    apply look_word in Hl1 as (Htok1 & Hstr1 & Hat1); [|exact Hid | exact Hal].
    rewrite Hword in Htok1.
    destruct (IH Hnames (acc ++ [a]) k st1 Hm1 (Hnext Hat1)) as (f & st' & H & Hc & Hat' & Hm').
    exists (S f), st'. split; [|now split].
    rewrite read_ArgNames_S. run. rewrite H1. rewrite <- Ht1, Htok1.
    change (tok_identifier =? tok_identifier) with true. cbv beta iota.
    rewrite Hstr1, H. now rewrite <- app_assoc.
Qed.

Lemma ParsePrototype_reads P k st :
  well_written_prototype P = true ->
  main_table (BinopPrecedence st) ->
  looking_at st (print_prototype_to P k) ->
  exists fuel st',
    ParsePrototype strtod fuel st = Some (Some P, st') /\
    looking_at st' k /\ main_table (BinopPrecedence st').
Proof.
  intros Hwf Hm Hlook. destruct P as [FnName ArgNames].
  unfold well_written_prototype, print_prototype_to in *. simpl in *.
  apply andb_true_iff in Hwf as [Hname Hnames].
  destruct (is_name_word _ Hname) as [Hid Hword].
  apply look_word in Hlook as (Htok & Hstr & Hat); [|exact Hid | reflexivity].
  rewrite Hword in Htok.
  destruct (next_token st _ Hm Hat) as (t1 & st1 & H1 & Hl1 & Hm1).
  apply look_char in Hl1 as [Htok1 Hat1]; [|reflexivity].
  destruct (read_ArgNames_reads ArgNames Hnames [] k st1 Hm1 Hat1)
    as (f & st2 & H2 & Htok2 & Hat2 & Hm2).
  destruct (next_token st2 _ Hm2 Hat2) as (t3 & st3 & H3 & Hl3 & Hm3).
  exists f, st3. split; [|now split].
  unfold ParsePrototype, LogErrorP. run. rewrite Htok.
  change (negb (tok_identifier =? tok_identifier)) with false. cbv beta iota.
  rewrite H1, Htok1.
  change (negb (chr "(" =? chr "(")) with false. cbv beta iota.
  rewrite H2, Htok2.
  change (negb (chr ")" =? chr ")")) with false. cbv beta iota.
  now rewrite H3, Hstr.
Qed.

Lemma looking_at_blank st t : looking_at st (String " " t) -> looking_at st t.
Proof.
  intros (st0 & st1 & H0 & H). exists st0, st1. split; [|exact H].
  now apply stands_at_blank.
Qed.

(** Definitions and imports are read as written: the text
    [fn name(a b) body] gives [ParseFunDef] the definition of that name,
    those parameters and the tree of the body, and [import name(a b)]
    gives [ParseImport] the prototype.  Parameter names are set apart by
    blanks. *)
Theorem definitions_are_read_as_written P e :
  well_written_prototype P = true -> well_written e = true ->
  exists fuel, forall fuel', (fuel <= fuel')%nat ->
    parse_with strtod (ParseFunDef strtod) fuel' (print_definition P e) =
      Some (Some (mkFunctionAST P (ast e))) /\
    parse_with strtod (ParseImport strtod) fuel' (print_import P) = Some (Some P).
Proof.
  intros HP He.
  (* the definition *)
  assert (Hdef : exists f r,
            ParseFunDef strtod f
              (primed_with (print_definition P e)) = Some (Some (mkFunctionAST P (ast e)), r)).
  { unfold primed_with.
    set (st0 := set_BinopPrecedence (start (print_definition P e))
                  (install_binops (BinopPrecedence (start (print_definition P e))))).
    assert (Hat : stands_at st0 (print_definition P e)).
    { right. exists " "%char, " "%string. now split. }
    destruct (next_token st0 _ install_binops_main_table Hat) as (t1 & st1 & H1 & Hl1 & Hm1).
    rewrite H1. cbv iota beta.
    unfold print_definition in Hl1.
    apply (look_word st1 "fn") in Hl1 as (_ & _ & Hat1); [|reflexivity..].
    apply stands_at_blank in Hat1.
    destruct (next_token st1 _ Hm1 Hat1) as (t2 & st2 & H2 & Hl2 & Hm2).
    destruct (ParsePrototype_reads P _ st2 HP Hm2 Hl2) as (f3 & st3 & H3 & Hl3 & Hm3).
    apply looking_at_blank in Hl3.
    destruct (reads_well_written e He EmptyString st3 eq_refl Hm3 Hl3)
      as (f4 & st4 & H4 & _).
    exists (f3 + f4)%nat, st4. unfold ParseFunDef. run. rewrite H2.
    rewrite (ParsePrototype_fuel strtod f3 (f3 + f4) _ _ ltac:(lia) H3). cbv beta iota.
    now rewrite (ParseExpression_fuel strtod f4 (f3 + f4) _ _ ltac:(lia) H4). }
  (* the import *)
  assert (Himp : exists f r,
            ParseImport strtod f (primed_with (print_import P)) = Some (Some P, r)).
  { unfold primed_with.
    set (st0 := set_BinopPrecedence (start (print_import P))
                  (install_binops (BinopPrecedence (start (print_import P))))).
    assert (Hat : stands_at st0 (print_import P)).
    { right. exists " "%char, " "%string. now split. }
    destruct (next_token st0 _ install_binops_main_table Hat) as (t1 & st1 & H1 & Hl1 & Hm1).
    rewrite H1. cbv iota beta.
    unfold print_import in Hl1.
    apply (look_word st1 "import") in Hl1 as (_ & _ & Hat1); [|reflexivity..].
    apply stands_at_blank in Hat1.
    destruct (next_token st1 _ Hm1 Hat1) as (t2 & st2 & H2 & Hl2 & Hm2).
    destruct (ParsePrototype_reads P _ st2 HP Hm2 Hl2) as (f3 & st3 & H3 & _).
    exists f3, st3. unfold ParseImport. run. now rewrite H2. }
  destruct Hdef as (f1 & r1 & H1). destruct Himp as (f2 & r2 & H2).
  exists (f1 + f2)%nat. intros fuel' Hle. unfold parse_with, main_primed.
  unfold primed_with in H1, H2. split.
  - destruct (getNextToken_total strtod
                (set_BinopPrecedence (start (print_definition P e))
                   (install_binops (BinopPrecedence (start (print_definition P e))))))
      as (t & st & H & _).
    rewrite H in H1 |- *.
    now rewrite (ParseFunDef_fuel strtod f1 fuel' _ _ ltac:(lia) H1).
  - destruct (getNextToken_total strtod
                (set_BinopPrecedence (start (print_import P))
                   (install_binops (BinopPrecedence (start (print_import P))))))
      as (t & st & H & _).
    rewrite H in H2 |- *.
    now rewrite (ParseImport_fuel strtod f2 fuel' _ _ ltac:(lia) H2).
Qed.

End ReadsWhatIsWritten.

(** ** The parser-only program: the code for block comments is dead *)

Section HugLexer.

Variable strtod : string -> double.

Lemma Hug_getTok_rec_eq fuel st :
  Hug.getTok_rec strtod fuel st =
  let again st' := match fuel with O => None | S f => Hug.getTok_rec strtod f st' end in
  let multi_line st inp c :=
    if c =? chr "/" then
      let '(c1, inp1) := getchar inp in
      if c1 =? chr "*" then
        match skip_block inp1 with
        | None =>
            Some (tok_eof,
                  fprintf_stderr (set_lex st EmptyString EOF)
                                 "Error: Unterminated multi-line comment")
        | Some inp2 =>
            let '(c3, inp3) := getchar inp2 in
            again (set_lex st inp3 c3)
        end
      else Some (chr "/", set_lex st inp1 c1)
    else Some (Hug.getTok_rest st inp c) in
  let '(c, inp) := skip_whitespace (Stdin st) (LastChar st) in
  if isalpha c then
    let '(id, c', inp') := read_identifier inp (push_back EmptyString c) in
    let st' := set_IdentifierStr (set_lex st inp' c') id in
    if String.eqb id "fn" then Some (tok_fun, st')
    else if String.eqb id "import" then Some (tok_imp, st')
    else Some (tok_identifier, st')
  else if is_num_char c then
    let '(NumStr, c', inp') := read_number inp (push_back EmptyString c) in
    Some (tok_number, set_NumVal (set_lex st inp' c') (strtod NumStr))
  else if c =? chr "/" then
    let '(c1, inp1) := getchar inp in
    if c1 =? chr "/" then
      let '(c2, inp2) := skip_line inp1 in
      if negb (c2 =? EOF) then again (set_lex st inp2 c2)
      else multi_line st inp2 c2
    else Some (chr "/", set_lex st inp1 c1)
  else multi_line st inp c.
Proof.
  destruct fuel; reflexivity.
Qed.

Lemma Hug_getTok_rec_quiet : forall fuel st t st',
  Hug.getTok_rec strtod fuel st = Some (t, st') -> Stderr st' = Stderr st.
Proof.
  induction fuel as [fuel IH] using lt_wf_ind. intros st t st'.
  assert (Hagain : forall st1, Stderr st1 = Stderr st ->
            match fuel with O => None | S f => Hug.getTok_rec strtod f st1 end
              = Some (t, st') -> Stderr st' = Stderr st).
  { intros st1 H1 H. destruct fuel as [|f]; [discriminate|].
    apply IH in H; [congruence | lia]. }
  rewrite Hug_getTok_rec_eq. cbv zeta.
  destruct (skip_whitespace (Stdin st) (LastChar st)) as [c inp].
  destruct (isalpha c).
  { destruct (read_identifier inp (push_back "" c)) as [[id c'] inp'].
    destruct (String.eqb id "fn"); [now intros [= <- <-]|].
    destruct (String.eqb id "import"); now intros [= <- <-]. }
  destruct (is_num_char c).
  { destruct (read_number inp (push_back "" c)) as [[num c'] inp'].
    now intros [= <- <-]. }
  unfold Hug.getTok_rest.
  destruct (c =? chr "/") eqn:Hslash.
  - destruct (getchar inp) as [c1 inp1].
    destruct (c1 =? chr "/"); [|now intros [= <- <-]].
    destruct (skip_line inp1) as [c2 inp2].
    destruct (c2 =? EOF) eqn:E2; simpl.
    + apply Z.eqb_eq in E2. subst c2. change (EOF =? chr "/") with false. cbv iota.
      now intros [= <- <-].
    + now apply Hagain.
  - destruct (c =? EOF); [now intros [= <- <-]|].
    destruct (getchar inp). now intros [= <- <-].
Qed.

(** In the parser-only program the code for block comments is never
    reached: [getTok] writes nothing to the error stream, whatever the
    input (so never the line for an unterminated comment), and a slash
    that is followed by anything but a second slash, a star too, is the
    token ['/']. *)
Theorem Hug_getTok_block_comment_code_is_dead st :
  (forall t st', Hug.getTok strtod st = Some (t, st') -> Stderr st' = Stderr st) /\
  (LastChar st = chr "/" -> head_char (Stdin st) <> chr "/" ->
   Hug.getTok strtod st =
     Some (chr "/", set_lex st (tail_chars (Stdin st)) (head_char (Stdin st)))).
Proof.
  split.
  - intros t st'. apply Hug_getTok_rec_quiet.
  - intros HL Hnext. unfold Hug.getTok. rewrite Hug_getTok_rec_eq. cbv zeta.
    rewrite HL, skip_whitespace_stop by reflexivity.
    change (isalpha (chr "/")) with false. change (is_num_char (chr "/")) with false.
    change (chr "/" =? chr "/") with true. cbv iota.
    unfold head_char, tail_chars in *. destruct (getchar (Stdin st)) as [c1 inp1].
    simpl in *. apply Z.eqb_neq in Hnext. now rewrite Hnext.
Qed.

End HugLexer.

(** ** Expressions at the top level *)

Section TopLevelExpressions.

Variable FoldBinOp : Opcode -> Value -> Value -> option Value.
Variable FoldCmp : Value -> Value -> option Value.
Variable FoldCast : Value -> option Value.

#[local] Abbreviation codegen := (codegen FoldBinOp FoldCmp FoldCast).
#[local] Abbreviation FunctionAST_codegen :=
  (FunctionAST_codegen FoldBinOp FoldCmp FoldCast).

(** A top-level expression has no variables: its anonymous function has
    no parameters, so an expression that refers to any name lowers to
    null, whatever was defined before. *)
Theorem top_level_expression_has_no_variables x e st :
  mentions x e = true ->
  fst (FunctionAST_codegen (mkFunctionAST (mkPrototypeAST EmptyString []) e) st) = None.
Proof.
  intros Hm. rewrite FunctionAST_codegen_eq. cbn [Proto Body].
  unfold TheFunction_of, getFunction, PrototypeAST_codegen, Function_Create. simpl.
  set (F := mkIRFunction (NextId st) EmptyString [] []).
  match goal with
  | |- context [codegen e ?s] =>
      pose proof (codegen_mentions_unbound FoldBinOp FoldCmp FoldCast x e s Hm) as H
  end.
  destruct (codegen e _) as [[V|] st2]; [|reflexivity].
  simpl in H. discriminate H. left. apply lookup_empty.
Qed.

End TopLevelExpressions.

(** * Closed instances

    The theorems above hold for every [strtod] and every folder.  Here
    they are applied to the examples of the specification, with the folder
    that never folds and [strtod_digits]. *)

#[local] Abbreviation lower_expr := (codegen NoFoldBinOp NoFoldCmp NoFoldCast).
#[local] Abbreviation lower_fn := (FunctionAST_codegen NoFoldBinOp NoFoldCmp NoFoldCast).

Lemma getTok_number_witness :
  exists st',
    getTok strtod_digits (start "  4.5.6+x") = Some (tok_number, st') /\
    NumVal st' = strtod_digits "4.5.6" /\
    LastChar st' = chr "+" /\ Stdin st' = "x"%string.
Proof.
  destruct (getTok_number strtod_digits (start "  4.5.6+x") " " "   " "4.5.6" "+x")
    as (st' & H1 & H2 & H3 & H4 & _);
    [reflexivity | reflexivity | reflexivity | discriminate | reflexivity
    | reflexivity |].
  exists st'. auto.
Defined.

Lemma division_is_never_parsed_witness :
  (exists st', ParseBinOpRHS strtod_digits 1 0 (NumberExprAST 1%float) (primed "/2")
               = Some (Some (NumberExprAST 1%float), st')
               /\ CurTok st' = chr "/" /\ Stdin st' = Stdin (primed "/2")) /\
  forall e st', ParseExpression strtod_digits 8 (primed "1/2") = Some (Some e, st') ->
                uses_op (chr "/") e = false.
Proof.
  split.
  - destruct (division_is_never_parsed strtod_digits 0 (primed "/2")
                install_binops_only_main) as (_ & _ & H).
    destruct (H eq_refl) as (_ & H').
    destruct (H' 0 (NumberExprAST 1%float) ltac:(lia)) as (st' & H1 & H2 & H3 & _).
    exists st'. auto.
  - exact (proj1 (division_is_never_parsed strtod_digits 8 (primed "1/2")
                    install_binops_only_main)).
Defined.

Lemma ParseParenExpr_is_transparent_witness :
  exists st3,
    ParsePrimary strtod_digits 8 (primed "(1+2)*3") =
      Some (Some (BinaryExprAST (chr "+") (NumberExprAST 1%float) (NumberExprAST 2%float)),
            st3) /\
    CurTok st3 = chr "*".
Proof.
  pose (next := returned_by (getNextToken strtod_digits) (primed "(1+2)*3") 0).
  pose (inner := returned_by (ParseExpression strtod_digits 6) (snd next) None).
  destruct (ParseParenExpr_is_transparent strtod_digits 6 (primed "(1+2)*3")
              (fst next) (snd next)
              (BinaryExprAST (chr "+") (NumberExprAST 1%float) (NumberExprAST 2%float))
              (snd inner))
    as (t' & st3 & Hnext & _ & H & _);
    [vm_compute; reflexivity | vm_compute; reflexivity | vm_compute; reflexivity
    | vm_compute; reflexivity |].
  exists st3. split; [exact H|].
  vm_compute in Hnext. injection Hnext as <- <-. reflexivity.
Defined.

Lemma VariableExprAST_codegen_unbound_witness :
  exists st',
    lower_expr (VariableExprAST "x") InitializeModule = (None, st') /\
    Errs st' = ["Error: Unknown Variable name"%string] /\
    (dom (NamedValues st') : gset string) = {["x"%string]} ∪ ∅.
Proof.
  destruct (VariableExprAST_codegen_unbound NoFoldBinOp NoFoldCmp NoFoldCast
              "x" InitializeModule)
    as (st' & H1 & H2 & _ & _ & H3 & _); [vm_compute; reflexivity|].
  exists st'. split; [exact H1|]. split; [exact H2|].
  rewrite H3. simpl. now rewrite dom_empty_L.
Defined.

(** [import f(a b)], then [f(1.0)], [f(1.0, 2.0)] and [g()] in a
    top-level expression: the arity error, the call emitted into the
    block of the expression, the unknown-function error. *)
Lemma CallExprAST_codegen_cases_witness :
  (exists st',
     lower_expr (CallExprAST "f" [NumberExprAST 1%float]) top_level_body = (None, st') /\
     Errs st' =
       ["Error: Incorrect number of arguments passed into function call"%string] /\
     TheModule st' = TheModule top_level_body) /\
  (exists st',
     lower_expr (CallExprAST "f" [NumberExprAST 1%float; NumberExprAST 2%float])
                top_level_body = (Some (InstructionV 2), st') /\
     TheModule st' =
       [mkIRFunction 0 "f" ["a"; "b"]%string [];
        mkIRFunction 1 EmptyString []
          [mkBasicBlock [(2%nat, CallInst 0 [ConstantFP 1%float; ConstantFP 2%float])]]] /\
     Errs st' = []) /\
  (exists st',
     lower_expr (CallExprAST "g" []) top_level_body = (None, st') /\
     Errs st' = ["Error: Unkown Function referenced"%string] /\
     TheModule st' = TheModule top_level_body).
Proof.
  pose (F := mkIRFunction 0 "f" ["a"; "b"]%string []).
  split; [|split].
  - eexists. split; [|split].
    + apply (proj1 (proj2 (CallExprAST_codegen_cases NoFoldBinOp NoFoldCmp NoFoldCast
                             "f" [NumberExprAST 1%float] top_level_body)) F).
      * vm_compute; reflexivity.
      * simpl. lia.
    + vm_compute; reflexivity.
    + reflexivity.
  - destruct (proj2 (proj2 (CallExprAST_codegen_cases NoFoldBinOp NoFoldCmp NoFoldCast
                   "f" [NumberExprAST 1%float; NumberExprAST 2%float] top_level_body))
                F) as [_ H]; [vm_compute; reflexivity | reflexivity |].
    destruct (H [ConstantFP 1%float; ConstantFP 2%float] top_level_body)
      as [_ H']; [vm_compute; reflexivity|].
    eexists. split; [exact H'|]. split; vm_compute; reflexivity.
  - eexists. split; [|split].
    + apply (proj1 (CallExprAST_codegen_cases NoFoldBinOp NoFoldCmp NoFoldCast
                      "g" [] top_level_body)).
      vm_compute; reflexivity.
    + vm_compute; reflexivity.
    + reflexivity.
Defined.

(** [fn f() 1.0] then [fn f() 2.0]: the error, and the module keeps the
    first definition.  [import f()] then [fn f() 1.0]: the declaration
    gets the body. *)
Lemma FunctionAST_codegen_redefinition_witness :
  (let st := snd (lower_fn fn_f_1 InitializeModule) in
   fst (lower_fn fn_f_1 InitializeModule) = Some 0%nat /\
   exists st',
     lower_fn fn_f_2 st = (None, st') /\
     Errs st' = ["Error: Function cannot be redefined"%string] /\
     TheModule st' =
       [mkIRFunction 0 "f" [] [mkBasicBlock [(1%nat, ReturnInst (ConstantFP 1%float))]]]) /\
  (exists st',
     lower_fn fn_f_1 (after_import []) = (Some 0%nat, st') /\
     TheModule (after_import []) = [mkIRFunction 0 "f" [] []] /\
     TheModule st' =
       [mkIRFunction 0 "f" [] [mkBasicBlock [(1%nat, ReturnInst (ConstantFP 1%float))]]] /\
     Errs st' = []).
Proof.
  split.
  - intros st. split; [vm_compute; reflexivity|].
    eexists. split; [|split].
    + refine (proj1 (FunctionAST_codegen_redefinition NoFoldBinOp NoFoldCmp NoFoldCast
                       (mkPrototypeAST "f" []) (NumberExprAST 2%float) st
                       (mkIRFunction 0 "f" []
                          [mkBasicBlock [(1%nat, ReturnInst (ConstantFP 1%float))]])
                       _) _).
      * vm_compute; reflexivity.
      * discriminate.
    + vm_compute; reflexivity.
    + vm_compute; reflexivity.
  - pose (F := mkIRFunction 0 "f" [] []).
    destruct (proj2 (FunctionAST_codegen_redefinition NoFoldBinOp NoFoldCmp NoFoldCast
                       (mkPrototypeAST "f" []) (NumberExprAST 1%float) (after_import [])
                       F ltac:(vm_compute; reflexivity))
                eq_refl (ConstantFP 1%float) (body_entry F (after_import [])) eq_refl)
      as (st' & body & H1 & _ & _ & _ & H4 & _).
    assert (Hst : st' = snd (lower_fn fn_f_1 (after_import []))).
    { change fn_f_1 with (mkFunctionAST (mkPrototypeAST "f" []) (NumberExprAST 1%float)).
      now rewrite H1. }
    exists st'. split; [exact H1|]. split; [vm_compute; reflexivity|].
    split; [rewrite Hst; vm_compute; reflexivity | exact H4].
Defined.

(** [fn id(x) x] lowers to a function that returns its parameter;
    [fn g(x) y] fails and leaves the module as it was. *)
Lemma FunctionAST_codegen_all_or_nothing_witness :
  (exists st',
     lower_fn fn_id InitializeModule = (Some 0%nat, st') /\
     In (mkIRFunction 0 "id" ["x"%string]
           [mkBasicBlock [(1%nat, ReturnInst (Argument 0 0))]])
        (TheModule st') /\
     Verified st' = [0%nat]) /\
  (exists st',
     lower_fn fn_g_y InitializeModule = (None, st') /\
     TheModule st' = TheModule InitializeModule /\
     Undefined st' = false).
Proof.
  split.
  - destruct (FunctionAST_codegen_all_or_nothing NoFoldBinOp NoFoldCmp NoFoldCast
                fn_id InitializeModule (mkIRFunction 0 "id" ["x"%string] [])
                (snd (TheFunction_of (Proto fn_id) InitializeModule))
                ltac:(vm_compute; reflexivity) eq_refl)
      as (_ & _ & _ & Hok & _).
    destruct (Hok (Argument 0 0)
                  (body_entry (mkIRFunction 0 "id" ["x"%string] [])
                     (snd (TheFunction_of (Proto fn_id) InitializeModule)))
                  ltac:(vm_compute; reflexivity))
      as (st' & body & H1 & _ & H2 & H3 & _).
    assert (Hst : st' = snd (lower_fn fn_id InitializeModule)) by now rewrite H1.
    exists st'. split; [exact H1|]. split; [|exact H3].
    rewrite Hst. vm_compute. left. reflexivity.
  - destruct (FunctionAST_codegen_all_or_nothing NoFoldBinOp NoFoldCmp NoFoldCast
                fn_g_y InitializeModule (mkIRFunction 0 "g" ["x"%string] [])
                (snd (TheFunction_of (Proto fn_g_y) InitializeModule))
                ltac:(vm_compute; reflexivity) eq_refl)
      as (_ & _ & _ & _ & Hfail).
    edestruct Hfail as (st' & H1 & _ & _ & _ & H4 & _); [vm_compute; reflexivity|].
    exists st'. split; [exact H1|].
    destruct H4 as [H4 H5];
      [vm_compute; reflexivity | unfold ids_fresh; simpl; constructor |].
    split; [exact H4|]. apply H5. constructor.
Defined.

(** [import f(a)], then [fn f(a) y]: the body fails, and the declaration
    the import made is gone with it.  The module is not as it was. *)
Lemma FunctionAST_codegen_erases_declaration :
  let st := after_import ["a"%string] in
  TheModule st = [mkIRFunction 0 "f" ["a"%string] []] /\
  exists st',
    lower_fn (mkFunctionAST (mkPrototypeAST "f" ["a"%string]) (VariableExprAST "y")) st
      = (None, st') /\
    TheModule st' = [] /\ TheModule st' <> TheModule st.
Proof.
  split; [vm_compute; reflexivity|].
  eexists. split; [vm_compute; reflexivity|]. split; [reflexivity | discriminate].
Qed.



Lemma getTok_line_comment_witness :
  getTok strtod_digits (on_slash ("/ comment" +:+ nl +:+ "+ 2")) =
  getTok strtod_digits (set_lex (on_slash ("/ comment" +:+ nl +:+ "+ 2")) "+ 2" 10).
Proof.
  apply (getTok_line_comment strtod_digits
           (on_slash ("/ comment" +:+ nl +:+ "+ 2")) " comment" (ascii_of 10) "+ 2");
    reflexivity.
Defined.

Lemma getTok_block_comment_witness :
  getTok strtod_digits (on_slash "* c */ + 2") =
  getTok strtod_digits (set_lex (on_slash "* c */ + 2") "+ 2" (chr " ")).
Proof.
  apply (getTok_block_comment strtod_digits (on_slash "* c */ + 2") " c " " + 2");
    reflexivity.
Defined.

Lemma getTok_word_witness :
  exists st',
    getTok strtod_digits (start "  foo(1)") = Some (word_token "foo", st') /\
    IdentifierStr st' = "foo"%string /\
    LastChar st' = head_char "(1)" /\ Stdin st' = tail_chars "(1)" /\
    NumVal st' = NumVal (start "  foo(1)") /\ Stderr st' = Stderr (start "  foo(1)").
Proof.
  apply (getTok_word strtod_digits (start "  foo(1)") " " "   " "foo" "(1)");
    reflexivity.
Defined.

Lemma getTok_single_character_witness :
  getTok strtod_digits (start " (x") =
    Some (chr "(", set_lex (start " (x") (tail_chars "x") (head_char "x")).
Proof.
  apply (getTok_single_character strtod_digits (start " (x") " " "  " "(" "x");
    [reflexivity | reflexivity | reflexivity | left; reflexivity].
Defined.

Lemma getTok_blank_witness :
  getTok strtod_digits (start "   ") = Some (tok_eof, set_lex (start "   ") EmptyString EOF).
Proof.
  apply (getTok_blank strtod_digits (start "   ") " "); reflexivity.
Defined.

Lemma getTok_eof_is_final_witness :
  getTok strtod_digits (set_lex (start " ") EmptyString EOF) =
    Some (tok_eof, set_lex (start " ") EmptyString EOF).
Proof.
  apply (getTok_eof_is_final strtod_digits (start " ")). vm_compute. reflexivity.
Defined.

Lemma getTok_consumes_witness :
  let st' := set_IdentifierStr (set_lex (start "ab c") "c" (chr " ")) "ab" in
  (pending st' <= pending (start "ab c"))%nat /\
  (tok_identifier <> tok_eof -> (pending st' < pending (start "ab c"))%nat).
Proof.
  intros st'.
  apply (getTok_consumes strtod_digits (start "ab c") tok_identifier st').
  vm_compute. reflexivity.
Defined.

Lemma getTok_token_kinds_witness :
  let st' := set_IdentifierStr (set_lex (start "fn f") "f" (chr " ")) "fn" in
  token_kind tok_fun st' /\ is_char_or_EOF (LastChar st').
Proof.
  intros st'.
  apply (getTok_token_kinds strtod_digits (start "fn f") tok_fun st').
  - vm_compute. split; discriminate.
  - vm_compute. reflexivity.
Defined.

Lemma getTok_unterminated_comment_witness :
  getTok strtod_digits (on_slash "* never closed") =
    Some (tok_eof,
          fprintf_stderr (set_lex (on_slash "* never closed") EmptyString EOF)
                         "Error: Unterminated multi-line comment").
Proof.
  apply (getTok_unterminated_comment strtod_digits (on_slash "* never closed")
           " never closed" EmptyString);
    [reflexivity | reflexivity | reflexivity | left; reflexivity].
Defined.

Lemma getTok_double_star_comment_witness :
  getTok strtod_digits (on_slash "* c **/ + 2") =
  getTok strtod_digits (set_lex (on_slash "* c **/ + 2") "* + 2" (chr "/")).
Proof.
  apply (getTok_double_star_comment strtod_digits (on_slash "* c **/ + 2") " c " " + 2");
    reflexivity.
Defined.

(** [(1] fails with the message for the missing parenthesis; [1+2] gives
    a tree and no message. *)
Lemma parse_failure_is_reported_witness :
  reports expression_errors (primed "(1") (@None ExprAST)
          (snd (returned_by (ParseExpression strtod_digits 8) (primed "(1") None)) /\
  reports expression_errors (primed "1+2")
          (fst (returned_by (ParseExpression strtod_digits 8) (primed "1+2") None))
          (snd (returned_by (ParseExpression strtod_digits 8) (primed "1+2") None)).
Proof.
  split.
  - apply (proj1 (parse_failure_is_reported strtod_digits 8 (primed "(1"))).
    vm_compute. reflexivity.
  - apply (proj1 (parse_failure_is_reported strtod_digits 8 (primed "1+2"))).
    vm_compute. reflexivity.
Defined.

(** [1+2 3]: the expression ends before [3]. *)
Lemma ParseExpression_stops_at_non_operator_witness :
  let st' := snd (returned_by (ParseExpression strtod_digits 8) (primed "1+2 3") None) in
  GetTokPrecedence st' = Some (-1, st') /\ CurTok st' = tok_number.
Proof.
  intros st'. split; [|vm_compute; reflexivity].
  apply (ParseExpression_stops_at_non_operator strtod_digits 8 (primed "1+2 3")
           (BinaryExprAST (chr "+") (NumberExprAST 1%float) (NumberExprAST 2%float))).
  vm_compute. reflexivity.
Defined.

Lemma parsed_operators_are_lowered_witness :
  let e := BinaryExprAST (chr "*") (VariableExprAST "x") (NumberExprAST 2%float) in
  binops_ok e = true /\
  exists more, Errs (snd (lower_expr e InitializeModule)) = Errs InitializeModule ++ more /\
               ~ In "Error: invalid binary operator"%string more.
Proof.
  intros e.
  destruct (proj1 (parsed_operators_are_lowered strtod_digits NoFoldBinOp NoFoldCmp NoFoldCast
                     8 (primed "x*2") install_binops_only_main)
              e (snd (returned_by (ParseExpression strtod_digits 8) (primed "x*2") None)))
    as [He Hg]; [vm_compute; reflexivity|].
  split; [exact He | apply Hg].
Defined.

Lemma parameter_lowers_to_argument_witness :
  let F := mkIRFunction 0 "f" ["x"; "y"]%string [] in
  lower_expr (VariableExprAST "y") (body_entry F InitializeModule) =
    (Some (Argument 0 1), body_entry F InitializeModule).
Proof.
  intros F.
  apply (parameter_lowers_to_argument NoFoldBinOp NoFoldCmp NoFoldCast F InitializeModule
           1%nat "y"); [|reflexivity].
  apply (bool_decide_unpack _). vm_compute. exact I.
Defined.


(** A run that becomes undefined: [g] calls the declared [f], then a
    definition of [f] fails and destroys it.  The run ends there, before
    the module is printed. *)
Lemma main_undefined_example :
  let d := ran 30 "import f() fn g() f() fn f() x" in
  Undefined (Back d) = true /\
  last (Console d) = Some (Text "is-> ").
Proof.
  vm_compute. split; reflexivity.
Qed.

(** After [import h(a)] and [fn f(x) h(x)], the input defines [h],
    defines [f] again and calls it: [f] is in the module as it was. *)
Lemma MainLoop_keeps_definitions_witness :
  let d := driver_on "fn h(a) a fn f(x) 2 f(1)"
                     (Back (ran 30 "import h(a) fn f(x) h(x)")) in
  let d' := handled (MainLoop strtod_digits NoFoldBinOp NoFoldCmp NoFoldCast 30) d in
  let F := mkIRFunction 1 "f" ["x"%string]
             [mkBasicBlock [(2%nat, CallInst 0 [Argument 1 0]);
                            (3%nat, ReturnInst (InstructionV 2))]] in
  In F (TheModule (Back d')) /\ fn_resolved (arities (TheModule (Back d'))) F.
Proof.
  intros d d' F.
  apply (MainLoop_keeps_definitions strtod_digits NoFoldBinOp NoFoldCmp NoFoldCast 30 d).
  - split; [split; [|split]|]; vm_compute.
    + apply (bool_decide_unpack _). vm_compute. exact I.
    + repeat constructor.
    + repeat constructor.
    + repeat constructor.
  - vm_compute. reflexivity.
  - vm_compute. reflexivity.
  - vm_compute. right. left. reflexivity.
  - discriminate.
Defined.

(** After [import f(a b)], the top-level expressions [f(1, 2)] (which
    lowers) and [f(1)] (which does not). *)
Lemma HandleTopLevelExpression_keeps_module_witness :
  TheModule (Back (handled (HandleTopLevelExpression strtod_digits NoFoldBinOp NoFoldCmp
                              NoFoldCast 8)
                           (driver_on "f(1, 2)" (after_import ["a"; "b"]%string)))) =
    TheModule (after_import ["a"; "b"]%string) /\
  TheModule (Back (handled (HandleTopLevelExpression strtod_digits NoFoldBinOp NoFoldCmp
                              NoFoldCast 8)
                           (driver_on "f(1)" (after_import ["a"; "b"]%string)))) =
    TheModule (after_import ["a"; "b"]%string).
Proof.
  split.
  - apply (HandleTopLevelExpression_keeps_module strtod_digits NoFoldBinOp NoFoldCmp
             NoFoldCast 8 (driver_on "f(1, 2)" (after_import ["a"; "b"]%string))).
    + unfold ids_fresh. vm_compute. repeat constructor.
    + vm_compute. reflexivity.
  - apply (HandleTopLevelExpression_keeps_module strtod_digits NoFoldBinOp NoFoldCmp
             NoFoldCast 8 (driver_on "f(1)" (after_import ["a"; "b"]%string))).
    + unfold ids_fresh. vm_compute. repeat constructor.
    + vm_compute. reflexivity.
Defined.

Lemma GetTokPrecedence_is_main_table_witness :
  exists st', GetTokPrecedence (primed "* 2") = Some (40, st') /\
              main_table (BinopPrecedence st').
Proof.
  destruct (GetTokPrecedence_is_main_table (primed "* 2") install_binops_main_table)
    as (st' & H & Hm & _).
  exists st'. split; [exact H | exact Hm].
Defined.

(** [import f()] a second time: the declaration is called [f.1]. *)
Lemma PrototypeAST_codegen_fresh_name_witness :
  FName (fst (PrototypeAST_codegen (mkPrototypeAST "f" []) (after_import []))) = "f.1"%string /\
  NoDup (map FName (TheModule (snd (PrototypeAST_codegen (mkPrototypeAST "f" [])
                                      (after_import []))))).
Proof.
  split; [vm_compute; reflexivity|].
  apply (PrototypeAST_codegen_fresh_name (mkPrototypeAST "f" []) (after_import [])).
  - discriminate.
  - vm_compute. apply NoDup_singleton.
Defined.

(** [f(x)] before [;y]. *)
Lemma ParseExpression_reads_what_is_written_witness :
  exists fuel st',
    (forall fuel', (fuel <= fuel')%nat ->
       ParseExpression strtod_digits fuel' (primed "f(x);y") =
         Some (Some (CallExprAST "f" [VariableExprAST "x"]), st')) /\
    looking_at strtod_digits st' ";y" /\ main_table (BinopPrecedence st').
Proof.
  apply (ParseExpression_reads_what_is_written strtod_digits
           (SCall "f" [SVar "x"]) ";y" (primed "f(x);y")).
  - reflexivity.
  - reflexivity.
  - exact install_binops_main_table.
  - pose (st0 := set_BinopPrecedence (start "f(x);y")
                   (install_binops (BinopPrecedence (start "f(x);y")))).
    exists st0, (snd (returned_by (getTok strtod_digits) st0 0)). split.
    + right. exists " "%char, " "%string. repeat split; reflexivity.
    + repeat split; vm_compute; reflexivity.
Defined.

Lemma parse_expression_print_witness :
  exists fuel, forall fuel', (fuel <= fuel')%nat ->
    parse_expression strtod_digits fuel' "(x)+(f(1,2.5))" =
      Some (Some (BinaryExprAST (chr "+") (VariableExprAST "x")
                    (CallExprAST "f" [NumberExprAST (strtod_digits "1");
                                      NumberExprAST (strtod_digits "2.5")])),
            tok_eof).
Proof.
  apply (parse_expression_print strtod_digits
           (SBin "+" (SVar "x") (SCall "f" [SNum "1"; SNum "2.5"]))).
  reflexivity.
Defined.

Lemma definitions_are_read_as_written_witness :
  exists fuel, forall fuel', (fuel <= fuel')%nat ->
    parse_with strtod_digits (ParseFunDef strtod_digits) fuel' "fn add(a b) (a)+(b)" =
      Some (Some (mkFunctionAST (mkPrototypeAST "add" ["a"; "b"]%string)
                    (BinaryExprAST (chr "+") (VariableExprAST "a") (VariableExprAST "b")))) /\
    parse_with strtod_digits (ParseImport strtod_digits) fuel' "import add(a b)" =
      Some (Some (mkPrototypeAST "add" ["a"; "b"]%string)).
Proof.
  apply (definitions_are_read_as_written strtod_digits
           (mkPrototypeAST "add" ["a"; "b"]%string) (SBin "+" (SVar "a") (SVar "b")));
    reflexivity.
Defined.

Lemma Hug_getTok_block_comment_code_is_dead_witness :
  Hug.getTok strtod_digits (on_slash "* c */ + 2") =
    Some (chr "/", set_lex (on_slash "* c */ + 2") " c */ + 2" (chr "*")).
Proof.
  apply (proj2 (Hug_getTok_block_comment_code_is_dead strtod_digits
                  (on_slash "* c */ + 2"))).
  - reflexivity.
  - discriminate.
Defined.

(** [x + 1] at the top level. *)
Lemma top_level_expression_has_no_variables_witness :
  fst (FunctionAST_codegen NoFoldBinOp NoFoldCmp NoFoldCast
         (mkFunctionAST (mkPrototypeAST EmptyString [])
            (BinaryExprAST (chr "+") (VariableExprAST "x") (NumberExprAST 1%float)))
         (after_import ["x"%string])) = None.
Proof.
  apply (top_level_expression_has_no_variables NoFoldBinOp NoFoldCmp NoFoldCast "x").
  reflexivity.
Defined.
